(** * Segmented LRU cache of [tests/lru_test.cpp] (namespace [experiment])

    The cache is an [unordered_map] from keys to nodes, the nodes being
    threaded on one circular doubly-linked list through the sentinel
    [dummy], with two markers [nomination] and [inlet] into that list.

    A [LruNodeBase*] is either the address of the sentinel or the address
    of the node the map holds for a key; map nodes never move, so the key
    identifies the address.  Reading or writing through a pointer whose
    node has been erased is undefined behaviour in the source: every
    operation of the model returns [None] there. *)

From stdpp Require Import base option gmap list.
From Stdlib Require Import ZArith.
Local Open Scope Z_scope.

(** ** Data model *)

(** [LruNodeBase::State] *)
Inductive State := NOMINATED | ADDED | REUSED | DETACHED.

Global Instance State_eq_dec : EqDecision State.
Proof. solve_decision. Defined.

(** [LruNodeBase*]: [&dummy] or the node stored in the map under a key. *)
Inductive ptr (K : Type) := Dummy | Node (k : K).
Arguments Dummy {K}.
Arguments Node {K} k.

Global Instance ptr_eq_dec {K} `{EqDecision K} : EqDecision (ptr K).
Proof. solve_decision. Defined.

(** [struct LruNodeBase] *)
Record LruNodeBase (K : Type) := mkBase {
  next : ptr K;
  prev : ptr K;
  state : State }.
Arguments mkBase {K}.
Arguments next {K}.
Arguments prev {K}.
Arguments state {K}.

(** [struct LruNode : LruNodeBase]; the [in_map] iterator of the node stored
    under key [k] designates the entry of [k], so it is not a field here. *)
Record LruNode (K V : Type) := mkNode {
  base : LruNodeBase K;
  value : V }.
Arguments mkNode {K V}.
Arguments base {K V}.
Arguments value {K V}.

(** What a call does to the outside world: a call of [on_create], the
    [map.erase] of an entry, a call of [on_evict]. *)
Inductive event (K V : Type) :=
  | Created (k : K)
  | Erased (k : K)
  | Evicted (k : K) (v : V).
Arguments Created {K V}.
Arguments Erased {K V}.
Arguments Evicted {K V}.

(** [struct LruCache].  [on_evict] only acts on the outside world (it gets
    the moved-out key and value), so the cache records whether it is set and
    each call shows as an [Evicted] event. *)
Record LruCache (K V : Type) `{Countable K} := mkCache {
  dummy : LruNodeBase K;
  inlet : ptr K;
  nomination : ptr K;
  cache_limit : Z;
  nominated_limit : Z;
  added_limit : Z;
  cache_size : Z;
  map : gmap K (LruNode K V);
  on_create : option (K → V);
  on_evict : bool }.
Arguments mkCache {K V _ _}.
Arguments dummy {K V _ _}.
Arguments inlet {K V _ _}.
Arguments nomination {K V _ _}.
Arguments cache_limit {K V _ _}.
Arguments nominated_limit {K V _ _}.
Arguments added_limit {K V _ _}.
Arguments cache_size {K V _ _}.
Arguments map {K V _ _}.
Arguments on_create {K V _ _}.
Arguments on_evict {K V _ _}.

Section Cache.
Context {K V : Type} `{Countable K}.

(** [V(key)], the conversion the source applies when no factory is set. *)
Variable V_of_K : K → V.

Abbreviation cache := (LruCache K V).

(** *** Field assignment on the cache *)

Definition set_dummy (c : cache) (b : LruNodeBase K) : cache :=
  mkCache b (inlet c) (nomination c) (cache_limit c) (nominated_limit c)
    (added_limit c) (cache_size c) (map c) (on_create c) (on_evict c).

Definition set_inlet (c : cache) (p : ptr K) : cache :=
  mkCache (dummy c) p (nomination c) (cache_limit c) (nominated_limit c)
    (added_limit c) (cache_size c) (map c) (on_create c) (on_evict c).

Definition set_nomination (c : cache) (p : ptr K) : cache :=
  mkCache (dummy c) (inlet c) p (cache_limit c) (nominated_limit c)
    (added_limit c) (cache_size c) (map c) (on_create c) (on_evict c).

Definition set_cache_size (c : cache) (z : Z) : cache :=
  mkCache (dummy c) (inlet c) (nomination c) (cache_limit c)
    (nominated_limit c) (added_limit c) z (map c) (on_create c) (on_evict c).

Definition set_map (c : cache) (m : gmap K (LruNode K V)) : cache :=
  mkCache (dummy c) (inlet c) (nomination c) (cache_limit c)
    (nominated_limit c) (added_limit c) (cache_size c) m (on_create c)
    (on_evict c).

(** *** Access through a node pointer *)

(** Reading the node [p] points to: fails on a pointer to an erased node. *)
Definition deref (c : cache) (p : ptr K) : option (LruNodeBase K) :=
  match p with
  | Dummy => Some (dummy c)
  | Node k => base <$> map c !! k
  end.

(** Updating the node [p] points to with [f], in place. *)
Definition assign (c : cache) (p : ptr K)
    (f : LruNodeBase K → LruNodeBase K) : option cache :=
  match p with
  | Dummy => Some (set_dummy c (f (dummy c)))
  | Node k =>
      n ← map c !! k;
      Some (set_map c (<[k := mkNode (f (base n)) (value n)]> (map c)))
  end.

Definition get_next (c : cache) (p : ptr K) : option (ptr K) :=
  next <$> deref c p.
Definition get_prev (c : cache) (p : ptr K) : option (ptr K) :=
  prev <$> deref c p.
Definition get_state (c : cache) (p : ptr K) : option State :=
  state <$> deref c p.

Definition set_next (c : cache) (p q : ptr K) : option cache :=
  assign c p (λ b, mkBase q (prev b) (state b)).
Definition set_prev (c : cache) (p q : ptr K) : option cache :=
  assign c p (λ b, mkBase (next b) q (state b)).
Definition set_state (c : cache) (p : ptr K) (s : State) : option cache :=
  assign c p (λ b, mkBase (next b) (prev b) s).

(** ** Construction *)

(** [LruCache(size, on_create, on_evict, nominated_size, added_size)];
    [None] when one of the three assertions fails. *)
Definition LruCache_new (size : Z) (create : option (K → V)) (evict : bool)
    (nominated_size added_size : Z) : option cache :=
  let nl := if decide (nominated_size = 0) then size ÷ 2 else nominated_size in
  let al := if decide (added_size = 0) then nl + size ÷ 4 else added_size in
  if decide (nl > 0 ∧ al > nl ∧ size > al)
  then Some (mkCache (mkBase Dummy Dummy DETACHED) Dummy Dummy
               size nl al 0 ∅ create evict)
  else None.

(** ** List primitives *)

(** [remove_(n)] *)
Definition remove_ (c : cache) (n : ptr K) : option cache :=
  nn ← get_next c n;
  np ← get_prev c n;
  c1 ← set_prev c nn np;
  np' ← get_prev c1 n;
  nn' ← get_next c1 n;
  set_next c1 np' nn'.

(** [insert_before_(at, n)] *)
Definition insert_before_ (c : cache) (at_ n : ptr K) : option cache :=
  c1 ← set_next c n at_;
  ap ← get_prev c1 at_;
  c2 ← set_prev c1 n ap;
  np ← get_prev c2 n;
  c3 ← set_next c2 np n;
  set_prev c3 at_ n.

(** ** Promotion *)

(** Lines 100-107 of [use_]: the boundary cascade of a promotion. *)
Definition use_cascade (c : cache) : option cache :=
  ns ← get_state c (nomination c);
  if decide (ns = ADDED) then
    c1 ← set_state c (nomination c) NOMINATED;
    nn ← get_next c1 (nomination c1);
    let c2 := set_nomination c1 nn in
    ist ← get_state c2 (inlet c2);
    if decide (ist = REUSED) then
      c3 ← set_state c2 (inlet c2) ADDED;
      inn ← get_next c3 (inlet c3);
      Some (set_inlet c3 inn)
    else Some c2
  else Some c.

(** Lines 97-99 of [use_]: the move of the node to the head. *)
Definition use_move (c : cache) (n : ptr K) : option cache :=
  c1 ← remove_ c n;
  c2 ← insert_before_ c1 Dummy n;
  set_state c2 n REUSED.

(** [use_(n)] *)
Definition use_ (c : cache) (n : ptr K) : option cache :=
  st ← get_state c n;
  if decide (st ≠ NOMINATED) then Some c
  else
    c3 ← use_move c n;
    use_cascade c3.

(** ** Insertion and eviction *)

(** Lines 120-121 of [add_]: the boundary step of an insertion at capacity. *)
Definition add_cascade (c : cache) : option cache :=
  c1 ← set_state c (nomination c) NOMINATED;
  nn ← get_next c1 (nomination c1);
  Some (set_nomination c1 nn).

(** Lines 125-134 of [add_]: placement of the new node while the cache
    fills up. *)
Definition add_warmup (c : cache) (n : ptr K) : option cache :=
  if decide (cache_size c < nominated_limit c) then
    set_state c n NOMINATED
  else if decide (cache_size c = nominated_limit c) then
    Some (set_nomination c n)
  else
    ip ← get_prev c (inlet c);
    let c1 := set_inlet c ip in
    let c2 := if decide (nomination c1 = inlet c1)
              then set_nomination c1 n else c1 in
    set_state c2 (inlet c2) REUSED.

(** [add_(n)].  At capacity the node after the sentinel is cast to
    [LruNode*] and its value and key are read: with [dummy.next == &dummy]
    that is undefined. *)
Definition add_ (c : cache) (n : ptr K)
    : option (cache * list (event K V)) :=
  st ← get_state c n;
  if decide (st ≠ DETACHED) then Some (c, [])
  else
    c0 ← set_state c n ADDED;
    if decide (cache_size c0 >= cache_limit c0) then
      match next (dummy c0) with
      | Dummy => None
      | Node key_to_remove =>
          c1 ← remove_ c0 (Node key_to_remove);
          node_to_remove ← map c1 !! key_to_remove;
          let val_to_remove := value node_to_remove in
          let c2 := set_map c1 (delete key_to_remove (map c1)) in
          c3 ← insert_before_ c2 (inlet c2) n;
          c4 ← add_cascade c3;
          Some (c4, Erased key_to_remove ::
                    if on_evict c4
                    then [Evicted key_to_remove val_to_remove] else [])
      end
    else
      c1 ← add_warmup c0 n;
      let c2 := set_cache_size c1 (cache_size c1 + 1) in
      c3 ← insert_before_ c2 (inlet c2) n;
      Some (c3, []).

(** ** Facade *)

(** The node [map.insert] stores for a missing key: the constructor of
    [LruNodeBase] links it to itself and leaves it [DETACHED]; [add_]
    assigns both links before anything reads them. *)
Definition fresh_node (key : K) (v : V) : LruNode K V :=
  mkNode (mkBase (Node key) (Node key) DETACHED) v.

(** [operator[](key)]: the value referred to by the result, the cache
    afterwards, and the events of the call. *)
Definition fetch (c : cache) (key : K)
    : option (V * cache * list (event K V)) :=
  match map c !! key with
  | Some _ =>
      c1 ← use_ c (Node key);
      n ← map c1 !! key;
      Some (value n, c1, [])
  | None =>
      let '(v, ev) :=
        match on_create c with
        | Some f => (f key, [Created key])
        | None => (V_of_K key, [])
        end in
      let c0 := set_map c (<[key := fresh_node key v]> (map c)) in
      '(c1, ev1) ← add_ c0 (Node key);
      n ← map c1 !! key;
      Some (value n, c1, ev ++ ev1)
  end.

(** A run of calls, oldest first, with the value and events of each. *)
Fixpoint run (c : cache) (keys : list K)
    : option (cache * list (V * list (event K V))) :=
  match keys with
  | [] => Some (c, [])
  | key :: rest =>
      '(v, c1, ev) ← fetch c key;
      '(c2, out) ← run c1 rest;
      Some (c2, (v, ev) :: out)
  end.

(** ** Introspection: the walk of [check] *)

(** Keys and state tags met from [n] up to [term] (exclusive) along
    [next]; fails when the sentinel comes first. *)
Fixpoint walk (c : cache) (fuel : nat) (n term : ptr K)
    : option (list (K * State)) :=
  if decide (n = term) then Some []
  else
    match fuel, n with
    | S fuel', Node k =>
        st ← get_state c n;
        nx ← get_next c n;
        rest ← walk c fuel' nx term;
        Some ((k, st) :: rest)
    | _, _ => None
    end.

(** The three zones, tail to head: up to [nomination], up to [inlet], up
    to the sentinel. *)
Definition zones (c : cache)
    : option (list (K * State) * list (K * State) * list (K * State)) :=
  let fuel := S (size (map c)) in
  zn ← walk c fuel (next (dummy c)) (nomination c);
  za ← walk c fuel (nomination c) (inlet c);
  zr ← walk c fuel (inlet c) Dummy;
  Some (zn, za, zr).

Definition all_state (s : State) (l : list (K * State)) : bool :=
  forallb (λ e, bool_decide (e.2 = s)) l.

(** The layout [tail NOMINATED nom ADDED inlet REUSED head]. *)
Definition zones_ok (c : cache) : bool :=
  match zones c with
  | Some (zn, za, zr) =>
      all_state NOMINATED zn && all_state ADDED za && all_state REUSED zr
  | None => false
  end.

(** ** Events of a call *)

Definition erased (ev : list (event K V)) : list K :=
  omap (λ e, match e with Erased k => Some k | _ => None end) ev.

Definition observed (ev : list (event K V)) : list (K * V) :=
  omap (λ e, match e with Evicted k v => Some (k, v) | _ => None end) ev.

Definition created (ev : list (event K V)) : list K :=
  omap (λ e, match e with Created k => Some k | _ => None end) ev.

(** ** Well-formed and reachable caches *)

Definition live (c : cache) (p : ptr K) : Prop := is_Some (deref c p).

(** Outside the nodes of [P] (those taken off the list for the moment)
    [next] and [prev] stay among the live nodes outside [P] and are
    inverse to each other. *)
Definition linked (c : cache) (P : ptr K → Prop) : Prop :=
  ∀ p, ¬ P p → live c p →
    ∃ q r, get_next c p = Some q ∧ get_prev c p = Some r ∧
           ¬ P q ∧ ¬ P r ∧
           get_prev c q = Some p ∧ get_next c r = Some p.

Definition wf (c : cache) : Prop :=
  linked c (λ _, False) ∧ live c (inlet c) ∧ live c (nomination c).

(** The keys, the values and the configuration: what no list operation
    touches. *)
Definition same_data (c c' : cache) : Prop :=
  cache_limit c' = cache_limit c ∧
  nominated_limit c' = nominated_limit c ∧
  added_limit c' = added_limit c ∧
  on_create c' = on_create c ∧
  on_evict c' = on_evict c ∧
  ∀ k, value <$> map c' !! k = value <$> map c !! k.

(** The element after [x] in [l], and [q] after the last one. *)
Fixpoint succ (l : list (ptr K)) (q x : ptr K) : ptr K :=
  match l with
  | [] => q
  | p :: l' => if decide (p = x) then hd q l' else succ l' q x
  end.

(** The live nodes outside [P] are the sentinel and the nodes of [l],
    each once, and [next] runs through them in this order and back to the
    sentinel. *)
Definition ring (c : cache) (P : ptr K → Prop) (l : list (ptr K)) : Prop :=
  NoDup (Dummy :: l) ∧
  (∀ p, p ∈ Dummy :: l ↔ live c p ∧ ¬ P p) ∧
  ∀ p, p ∈ Dummy :: l → get_next c p = Some (succ (Dummy :: l) Dummy p).

(** What the markers keep of the layout whatever the calls: the list is
    [l1 ++ l2 ++ l3] with [nomination] at the head of [l2 ++ l3] and
    [inlet] at the head of [l3]; [l3] holds [REUSED] nodes only, [l2] no
    [NOMINATED] node; [l2] and [l3] are empty up to [nominated_limit]
    entries and [l2] is not empty beyond. *)
Definition zoned_by (c : cache) (P : ptr K → Prop)
    (l1 l2 l3 : list (ptr K)) : Prop :=
  ring c P (l1 ++ l2 ++ l3) ∧
  nomination c = hd Dummy (l2 ++ l3) ∧
  inlet c = hd Dummy l3 ∧
  (∀ p, p ∈ l3 → get_state c p = Some REUSED) ∧
  (∀ p, p ∈ l2 → get_state c p ≠ Some NOMINATED) ∧
  get_state c Dummy = Some DETACHED ∧
  (cache_size c <= nominated_limit c → l2 = [] ∧ l3 = []) ∧
  (cache_size c > nominated_limit c → l2 ≠ []) ∧
  nominated_limit c < cache_limit c.

Definition zoned (c : cache) : Prop :=
  ∃ l1 l2 l3, zoned_by c (λ _, False) l1 l2 l3.

(** The layout the comments of the code describe, position by position,
    with none of the three runs empty: [l1] is [NOMINATED], [l2] is
    [ADDED], [l3] is [REUSED]. *)
Definition laid_by (c : cache) (P : ptr K → Prop)
    (l1 l2 l3 : list (ptr K)) : Prop :=
  ring c P (l1 ++ l2 ++ l3) ∧
  nomination c = hd Dummy (l2 ++ l3) ∧
  inlet c = hd Dummy l3 ∧
  (∀ p, p ∈ l1 → get_state c p = Some NOMINATED) ∧
  (∀ p, p ∈ l2 → get_state c p = Some ADDED) ∧
  (∀ p, p ∈ l3 → get_state c p = Some REUSED) ∧
  l1 ≠ [] ∧ l2 ≠ [] ∧ l3 ≠ [].

(** What a write through a node pointer leaves alone. *)
Definition frame (c c' : cache) : Prop :=
  same_data c c' ∧ cache_size c' = cache_size c ∧
  inlet c' = inlet c ∧ nomination c' = nomination c.

(** The caches a program can hold: a constructed one, and what
    [operator[]] leaves behind when it returns. *)
Inductive reachable : cache → Prop :=
  | reach_new size create evict nominated_size added_size c :
      LruCache_new size create evict nominated_size added_size = Some c →
      reachable c
  | reach_fetch c key v c' ev :
      reachable c → fetch c key = Some (v, c', ev) → reachable c'.

End Cache.

(** ** The instance of the test: [LruCache<int, int>] *)

(** [int(key)] *)
Definition int_of_int (k : Z) : Z := k.

(** [int()], the value-initialised [int] *)
Definition int_default : Z := 0.

(** The factory of [TEST(LruTest, Basic)] *)
Definition times10 (v : Z) : Z := v * 10.

(** [LruCache<int, int> cache(4, [](int v) { return v * 10; })] *)
Definition test_cache : option (LruCache Z Z) :=
  LruCache_new 4 (Some times10) false 0 0.

(** [LruCache<int, int> cache(4)] *)
Definition plain_cache : option (LruCache Z Z) :=
  LruCache_new 4 None false 0 0.

(** [LruCache<int, int> cache(4, [](int v) { return v * 10; }, on_evict)] *)
Definition observed_cache : option (LruCache Z Z) :=
  LruCache_new 4 (Some times10) true 0 0.

Definition run_on (c0 : option (LruCache Z Z)) (keys : list Z)
    : option (LruCache Z Z * list (Z * list (event Z Z))) :=
  c ← c0; run int_of_int c keys.

Definition after (c0 : option (LruCache Z Z)) (keys : list Z)
    : option (LruCache Z Z) :=
  fst <$> run_on c0 keys.

Definition zones_after (c0 : option (LruCache Z Z)) (keys : list Z) :=
  c ← after c0 keys; zones c.

(** The values the calls return, in order. *)
Definition returned (c0 : option (LruCache Z Z)) (keys : list Z)
    : option (list Z) :=
  match run_on c0 keys with
  | Some (_, out) => Some (List.map fst out)
  | None => None
  end.

(** * Facts *)

(** Case analysis on every pointer comparison of the goal. *)
Ltac split_decide :=
  repeat match goal with
         | |- context [decide ?P] => destruct (decide P)
         | H : context [decide ?P] |- _ => destruct (decide P)
         end.

Ltac by_cases := split_decide; simplify_eq; intuition congruence.

#[local] Set Warnings "-clear-no-such-hyp".

Section Facts.
Context {K V : Type} `{HK : Countable K}.
Variable V_of_K : K → V.

Abbreviation cache := (LruCache K V).

Implicit Types (c : cache) (p q r x : ptr K) (k key : K).

(** ** The successor in a list without repetition *)

Lemma succ_in_tl (l : list (ptr K)) q x :
  succ l q x = q ∨ succ l q x ∈ tl l.
Proof.
  induction l as [|p l IH]; simpl; [by left|].
  case_decide.
  - destruct l as [|p' l]; simpl; [by left|right; by left].
  - destruct IH as [?|Hin]; [by left|right].
    destruct l; simpl in *; [by apply elem_of_nil in Hin|by right].
Qed.

Lemma succ_not_in (l : list (ptr K)) q x : x ∉ l → succ l q x = q.
Proof.
  induction l as [|p l IH]; simpl; [done|]. intros Hx.
  apply not_elem_of_cons in Hx as [? ?]. rewrite decide_False by done.
  by apply IH.
Qed.

Lemma succ_app_cons (a b : list (ptr K)) q x :
  x ∉ a → succ (a ++ x :: b) q x = hd q b.
Proof.
  induction a as [|p a IH]; simpl; intros Hx.
  - by rewrite decide_True.
  - apply not_elem_of_cons in Hx as [? ?]. rewrite decide_False by done.
    by apply IH.
Qed.

Lemma succ_inj (l : list (ptr K)) q x y :
  NoDup l → q ∉ tl l → x ∈ l → y ∈ l →
  succ l q x = succ l q y → x = y.
Proof.
  induction l as [|p l IH]; intros Hnd Hq Hx Hy Heq;
    [by apply elem_of_nil in Hx|].
  apply NoDup_cons in Hnd as [Hp Hnd]. simpl in Hq, Heq.
  assert (q ∉ tl l) as Hq'.
  { intros Hin. apply Hq. destruct l; [done|]. by right. }
  assert (∀ z, z ∈ l → succ l q z ≠ hd q l) as Hhd.
  { intros z Hz Hs. destruct l as [|p' l]; [by apply elem_of_nil in Hz|].
    simpl in Hs. apply NoDup_cons in Hnd as [Hp' _].
    destruct (succ_in_tl (p' :: l) q z) as [Hs'|Hs']; simpl in Hs'.
    - apply Hq. rewrite <-Hs', Hs. by left.
    - by rewrite Hs in Hs'. }
  apply elem_of_cons in Hx as [->|Hx]; apply elem_of_cons in Hy as [->|Hy].
  - done.
  - rewrite decide_True in Heq by done.
    destruct (decide (p = y)); [done|]. by edestruct Hhd.
  - rewrite (decide_True (P := p = p)) in Heq by done.
    destruct (decide (p = x)); [done|]. by edestruct Hhd.
  - destruct (decide (p = x)) as [->|]; [done|].
    destruct (decide (p = y)) as [->|]; [done|]. by apply IH.
Qed.

Lemma succ_remove (a b : list (ptr K)) q x y :
  NoDup (a ++ x :: b) → q ≠ x → y ≠ x →
  succ (a ++ b) q y =
    if decide (succ (a ++ x :: b) q y = x) then hd q b
    else succ (a ++ x :: b) q y.
Proof.
  induction a as [|p a IH]; simpl; intros Hnd Hq Hy.
  - destruct (decide (x = y)) as [->|_]; [done|].
    apply NoDup_cons in Hnd as [Hx _].
    rewrite decide_False; [done|]. intros Hs.
    destruct (succ_in_tl b q y) as [Hs'|Hs']; [congruence|].
    apply Hx. rewrite <-Hs. destruct b; [by apply elem_of_nil in Hs'|].
    by right.
  - apply NoDup_cons in Hnd as [Hp Hnd]. destruct (decide (p = y)) as [->|].
    + destruct a as [|p' a]; simpl.
      * by rewrite decide_True.
      * rewrite decide_False; [done|]. intros ->.
        apply NoDup_cons in Hnd as [Hp' _]. apply Hp'.
        apply elem_of_app. right. by left.
    + by apply IH.
Qed.

(** ** Reading after writing *)

Lemma deref_assign c p f c' :
  assign c p f = Some c' →
  ∀ q, deref c' q = if decide (q = p) then f <$> deref c p else deref c q.
Proof.
  intros Ha q. destruct (decide (q = p)) as [->|Hne].
  - destruct p as [|k]; simpl in *; [by simplify_eq|].
    destruct (map c !! k) as [n|] eqn:Hk; simplify_eq/=.
    by rewrite lookup_insert_eq.
  - destruct p as [|k]; simpl in *.
    + simplify_eq. by destruct q.
    + destruct (map c !! k) as [n|] eqn:Hk; simplify_eq/=.
      destruct q as [|k']; simpl; [done|].
      rewrite lookup_insert_ne; [done|congruence].
Qed.

Lemma assign_live c p f c' : assign c p f = Some c' → live c p.
Proof.
  unfold live. destruct p as [|k]; simpl; [by eauto|].
  destruct (map c !! k); simpl; by eauto.
Qed.

Lemma assign_total c p f : live c p → is_Some (assign c p f).
Proof.
  unfold live. destruct p as [|k]; simpl; [by eauto|].
  destruct (map c !! k); simpl; [by eauto|]. by intros [? ?].
Qed.

Lemma same_data_refl c : same_data c c.
Proof. by repeat split. Qed.

Lemma same_data_trans c1 c2 c3 :
  same_data c1 c2 → same_data c2 c3 → same_data c1 c3.
Proof.
  unfold same_data. intros (?&?&?&?&?&Hv) (?&?&?&?&?&Hv').
  repeat split; try congruence. all: intros k; by rewrite Hv', Hv.
Qed.

Lemma assign_same_data c p f c' :
  assign c p f = Some c' →
  frame c c'.
Proof.
  destruct p as [|k]; simpl; intros Ha.
  - simplify_eq. by repeat split.
  - destruct (map c !! k) as [n|] eqn:Hk; simplify_eq/=.
    repeat split; simpl; try done.
    intros k'. destruct (decide (k' = k)) as [->|].
    + by rewrite lookup_insert_eq, Hk.
    + by rewrite lookup_insert_ne.
Qed.

Lemma frame_refl c : frame c c.
Proof. split; [apply same_data_refl|done]. Qed.

Lemma same_data_live c c' p : same_data c c' → live c' p ↔ live c p.
Proof.
  intros (_&_&_&_&_&Hv). unfold live. destruct p as [|k]; simpl; [done|].
  rewrite !fmap_is_Some. specialize (Hv k).
  destruct (map c' !! k), (map c !! k); simplify_eq/=;
    split; intros [? ?]; by eauto.
Qed.

Lemma frame_live c c' p : frame c c' → live c' p ↔ live c p.
Proof. intros [? _]. by apply same_data_live. Qed.

Lemma frame_trans c1 c2 c3 : frame c1 c2 → frame c2 c3 → frame c1 c3.
Proof.
  intros (?&?&?&?) (?&?&?&?). split; [by eapply same_data_trans|].
  split_and!; congruence.
Qed.

Lemma live_get_state c p : live c p ↔ is_Some (get_state c p).
Proof. unfold live, get_state. by rewrite fmap_is_Some. Qed.

Lemma get_next_live c p q : get_next c p = Some q → live c p.
Proof. unfold live, get_next. intros Hq. by destruct (deref c p). Qed.

Lemma get_prev_live c p q : get_prev c p = Some q → live c p.
Proof. unfold live, get_prev. intros Hq. by destruct (deref c p). Qed.

Lemma get_state_live c p s : get_state c p = Some s → live c p.
Proof. unfold live, get_state. intros Hq. by destruct (deref c p). Qed.

Lemma live_get_next c p : live c p → is_Some (get_next c p).
Proof. unfold live, get_next. by rewrite fmap_is_Some. Qed.

Lemma live_get_prev c p : live c p → is_Some (get_prev c p).
Proof. unfold live, get_prev. by rewrite fmap_is_Some. Qed.

Lemma set_next_spec c p q c' :
  set_next c p q = Some c' →
  live c p ∧
  (∀ r, get_next c' r = if decide (r = p) then Some q else get_next c r) ∧
  (∀ r, get_prev c' r = get_prev c r) ∧
  (∀ r, get_state c' r = get_state c r) ∧
  frame c c'.
Proof.
  unfold set_next. intros Ha. pose proof (deref_assign _ _ _ _ Ha) as Hd.
  pose proof (assign_live _ _ _ _ Ha) as [b Hb].
  split; [by exists b|]. unfold get_next, get_prev, get_state.
  split_and!; try (by apply (assign_same_data _ _ _ _ Ha));
    intros r; rewrite Hd; case_decide; subst; rewrite ?Hb; done.
Qed.

Lemma set_prev_spec c p q c' :
  set_prev c p q = Some c' →
  live c p ∧
  (∀ r, get_next c' r = get_next c r) ∧
  (∀ r, get_prev c' r = if decide (r = p) then Some q else get_prev c r) ∧
  (∀ r, get_state c' r = get_state c r) ∧
  frame c c'.
Proof.
  unfold set_prev. intros Ha. pose proof (deref_assign _ _ _ _ Ha) as Hd.
  pose proof (assign_live _ _ _ _ Ha) as [b Hb].
  split; [by exists b|]. unfold get_next, get_prev, get_state.
  split_and!; try (by apply (assign_same_data _ _ _ _ Ha));
    intros r; rewrite Hd; case_decide; subst; rewrite ?Hb; done.
Qed.

Lemma set_state_spec c p s c' :
  set_state c p s = Some c' →
  live c p ∧
  (∀ r, get_next c' r = get_next c r) ∧
  (∀ r, get_prev c' r = get_prev c r) ∧
  (∀ r, get_state c' r = if decide (r = p) then Some s else get_state c r) ∧
  frame c c'.
Proof.
  unfold set_state. intros Ha. pose proof (deref_assign _ _ _ _ Ha) as Hd.
  pose proof (assign_live _ _ _ _ Ha) as [b Hb].
  split; [by exists b|]. unfold get_next, get_prev, get_state.
  split_and!; try (by apply (assign_same_data _ _ _ _ Ha));
    intros r; rewrite Hd; case_decide; subst; rewrite ?Hb; done.
Qed.

(** ** The list primitives as updates of [next] and [prev] *)

Lemma remove_spec c x c' :
  remove_ c x = Some c' →
  ∃ nn np,
    get_next c x = Some nn ∧ get_prev c x = Some np ∧
    live c nn ∧ live c np ∧
    (∀ r, get_next c' r = if decide (r = np) then Some nn else get_next c r) ∧
    (∀ r, get_prev c' r = if decide (r = nn) then Some np else get_prev c r) ∧
    (∀ r, get_state c' r = get_state c r) ∧
    frame c c'.
Proof.
  unfold remove_. intros Hr.
  destruct (get_next c x) as [nn|] eqn:Hnn; [|done].
  destruct (get_prev c x) as [np|] eqn:Hnp; [|done]. simpl in Hr.
  destruct (set_prev c nn np) as [c1|] eqn:H1; [|done]. simpl in Hr.
  destruct (set_prev_spec _ _ _ _ H1) as (Hl1 & Hn1 & Hp1 & Hs1 & Hf1).
  assert (get_prev c1 x = Some np) as Hx.
  { rewrite Hp1. by case_decide. }
  rewrite Hx, Hn1, Hnn in Hr. simpl in Hr.
  destruct (set_next_spec _ _ _ _ Hr) as (Hl2 & Hn2 & Hp2 & Hs2 & Hf2).
  exists nn, np. split_and!; try done.
  - apply live_get_state. rewrite <-Hs1. by apply live_get_state.
  - intros r. by rewrite Hn2, Hn1.
  - intros r. by rewrite Hp2, Hp1.
  - intros r. by rewrite Hs2, Hs1.
  - by eapply frame_trans.
Qed.

Lemma remove_total c x nn np :
  get_next c x = Some nn → get_prev c x = Some np →
  live c nn → live c np → is_Some (remove_ c x).
Proof.
  intros Hnn Hnp Hln Hlp. unfold remove_. rewrite Hnn, Hnp. simpl.
  destruct (assign_total c nn (λ b, mkBase (next b) np (state b)) Hln)
    as [c1 H1].
  change (set_prev c nn np = Some c1) in H1. rewrite H1. simpl.
  destruct (set_prev_spec _ _ _ _ H1) as (Hl1 & Hn1 & Hp1 & Hs1 & Hf1).
  assert (get_prev c1 x = Some np) as ->.
  { rewrite Hp1. by case_decide. }
  rewrite Hn1, Hnn. simpl. apply assign_total.
  apply live_get_state. rewrite Hs1. by apply live_get_state.
Qed.

Lemma insert_before_spec c a x c' :
  insert_before_ c a x = Some c' →
  ∃ ap,
    get_prev c a = Some ap ∧ live c x ∧ live c ap ∧
    (∀ r, get_next c' r = if decide (r = ap) then Some x
                          else if decide (r = x) then Some a
                          else get_next c r) ∧
    (∀ r, get_prev c' r = if decide (r = a) then Some x
                          else if decide (r = x) then Some ap
                          else get_prev c r) ∧
    (∀ r, get_state c' r = get_state c r) ∧
    frame c c'.
Proof.
  unfold insert_before_. intros Hi.
  destruct (set_next c x a) as [c1|] eqn:H1; [|done]. simpl in Hi.
  destruct (set_next_spec _ _ _ _ H1) as (Hl1 & Hn1 & Hp1 & Hs1 & Hf1).
  destruct (get_prev c1 a) as [ap|] eqn:Hap; [|done]. simpl in Hi.
  destruct (set_prev c1 x ap) as [c2|] eqn:H2; [|done]. simpl in Hi.
  destruct (set_prev_spec _ _ _ _ H2) as (Hl2 & Hn2 & Hp2 & Hs2 & Hf2).
  assert (get_prev c2 x = Some ap) as Hx.
  { rewrite Hp2. by case_decide. }
  rewrite Hx in Hi. simpl in Hi.
  destruct (set_next c2 ap x) as [c3|] eqn:H3; [|done]. simpl in Hi.
  destruct (set_next_spec _ _ _ _ H3) as (Hl3 & Hn3 & Hp3 & Hs3 & Hf3).
  destruct (set_prev_spec _ _ _ _ Hi) as (Hl4 & Hn4 & Hp4 & Hs4 & Hf4).
  exists ap. split_and!; try done.
  - by rewrite <-Hp1.
  - apply live_get_state. rewrite <-Hs1, <-Hs2. by apply live_get_state.
  - intros r. by rewrite Hn4, Hn3, Hn2, Hn1.
  - intros r. by rewrite Hp4, Hp3, Hp2, Hp1.
  - intros r. by rewrite Hs4, Hs3, Hs2, Hs1.
  - eapply frame_trans; [|done]. eapply frame_trans; [|done].
    by eapply frame_trans.
Qed.

Lemma insert_before_total c a x ap :
  get_prev c a = Some ap → live c x → live c ap →
  is_Some (insert_before_ c a x).
Proof.
  intros Hap Hlx Hlp. unfold insert_before_.
  destruct (assign_total c x (λ b, mkBase a (prev b) (state b)) Hlx)
    as [c1 H1].
  change (set_next c x a = Some c1) in H1. rewrite H1. simpl.
  destruct (set_next_spec _ _ _ _ H1) as (Hl1 & Hn1 & Hp1 & Hs1 & Hf1).
  rewrite Hp1, Hap. simpl.
  assert (∀ c2, (∀ r, get_state c2 r = get_state c r) → ∀ r,
            live c r → live c2 r) as Hlive.
  { intros c2 Hs r Hr. apply live_get_state. rewrite Hs.
    by apply live_get_state. }
  destruct (assign_total c1 x (λ b, mkBase (next b) ap (state b)))
    as [c2 H2]; [by apply Hlive|].
  change (set_prev c1 x ap = Some c2) in H2. rewrite H2. simpl.
  destruct (set_prev_spec _ _ _ _ H2) as (Hl2 & Hn2 & Hp2 & Hs2 & Hf2).
  assert (get_prev c2 x = Some ap) as ->.
  { rewrite Hp2. by case_decide. }
  simpl.
  destruct (assign_total c2 ap (λ b, mkBase x (prev b) (state b)))
    as [c3 H3].
  { apply Hlive; [|done]. intros r. by rewrite Hs2, Hs1. }
  change (set_next c2 ap x = Some c3) in H3. rewrite H3. simpl.
  destruct (set_next_spec _ _ _ _ H3) as (Hl3 & Hn3 & Hp3 & Hs3 & Hf3).
  apply assign_total. apply Hlive; [|by eapply get_prev_live].
  intros r. by rewrite Hs3, Hs2, Hs1.
Qed.

(** ** The links stay inverse to each other *)

Lemma linked_iff c P Q : (∀ p, P p ↔ Q p) → linked c P → linked c Q.
Proof.
  intros HPQ Hl p Hp Hlp.
  destruct (Hl p) as (q & r & ? & ? & ? & ? & ? & ?); [by rewrite HPQ|done|].
  exists q, r. rewrite <-!HPQ. done.
Qed.

Lemma linked_same_links c c' P :
  (∀ r, get_next c' r = get_next c r) →
  (∀ r, get_prev c' r = get_prev c r) →
  (∀ r, live c' r ↔ live c r) →
  linked c P → linked c' P.
Proof.
  intros Hn Hp Hs Hl p HP Hlp.
  destruct (Hl p) as (q & r & ? & ? & ? & ? & ? & ?); [done|by apply Hs|].
  exists q, r. by rewrite !Hn, !Hp.
Qed.

Lemma set_state_linked c p s c' P :
  set_state c p s = Some c' → linked c P → linked c' P.
Proof.
  intros Hs. destruct (set_state_spec _ _ _ _ Hs) as (_ & Hn & Hp & _ & Hf).
  apply linked_same_links; [done..|]. intros r. by apply frame_live.
Qed.

Lemma remove_linked c x c' P :
  linked c P → ¬ P x → remove_ c x = Some c' →
  linked c' (λ p, P p ∨ p = x).
Proof.
  intros Hl HPx Hr.
  destruct (remove_spec _ _ _ Hr)
    as (nn & np & Hnn & Hnp & Hln & Hlp & Hn & Hp & Hs & Hf).
  destruct (Hl x HPx) as (q & r & Hq & Hr' & HPq & HPr & Hqx & Hrx).
  { by eapply get_next_live. }
  simplify_eq. intros p HPp Hlive.
  assert (¬ P p ∧ p ≠ x) as [HPp' Hpx] by tauto.
  destruct (Hl p HPp') as (q' & r' & Hq' & Hr'' & HPq' & HPr' & Hqp & Hrp).
  { apply live_get_state. rewrite <-Hs. by apply live_get_state. }
  rewrite Hn, Hp.
  destruct (decide (p = np)), (decide (p = nn));
    eexists _, _;
    (split; [first [eassumption|reflexivity]|]);
    (split; [first [eassumption|reflexivity]|]);
    rewrite ?Hn, ?Hp; by_cases.
Qed.

Lemma insert_before_linked c a x c' P :
  linked c P → P x → ¬ P a → insert_before_ c a x = Some c' →
  linked c' (λ p, P p ∧ p ≠ x).
Proof.
  intros Hl HPx HPa Hi.
  destruct (insert_before_spec _ _ _ _ Hi)
    as (ap & Hap & Hlx & Hlap & Hn & Hp & Hs & Hf).
  destruct (Hl a HPa) as (q & r & Hq & Hr & HPq & HPr & Hqa & Hra).
  { by eapply get_prev_live. }
  simplify_eq. intros p HPp Hlive.
  assert (live c p) as Hlp.
  { apply live_get_state. rewrite <-Hs. by apply live_get_state. }
  rewrite Hn, Hp. destruct (decide (p = x)) as [->|Hpx].
  - destruct (decide (x = ap)) as [->|]; [done|].
    destruct (decide (x = a)) as [->|]; [done|].
    eexists _, _. split; [reflexivity|]. split; [reflexivity|].
    rewrite Hn, Hp. by_cases.
  - assert (¬ P p) as HPp' by tauto.
    destruct (Hl p HPp' Hlp)
      as (q' & r' & Hq' & Hr' & HPq' & HPr' & Hqp & Hrp).
    destruct (decide (p = ap)), (decide (p = a));
      eexists _, _;
      (split; [first [eassumption|reflexivity]|]);
      (split; [first [eassumption|reflexivity]|]);
      rewrite ?Hn, ?Hp; by_cases.
Qed.

(** A node [map.insert] has just stored is off the list. *)
Lemma fresh_linked c key v P :
  linked c P → map c !! key = None →
  linked (set_map c (<[key := fresh_node key v]> (map c)))
         (λ p, P p ∨ p = Node key).
Proof.
  intros Hl Hkey p HPp Hlive.
  assert (¬ P p ∧ p ≠ Node key) as [HPp' Hpk] by tauto.
  assert (∀ r, r ≠ Node key →
    deref (set_map c (<[key := fresh_node key v]> (map c))) r = deref c r)
    as Hd.
  { intros [|k'] Hr; simpl; [done|].
    rewrite lookup_insert_ne; [done|congruence]. }
  assert (∀ r, live c r → r ≠ Node key) as Hne.
  { intros r [b Hb] ->. simpl in Hb. by rewrite Hkey in Hb. }
  destruct (Hl p HPp') as (q & r & Hq & Hr & HPq & HPr & Hqp & Hrp).
  { unfold live. by rewrite <-Hd. }
  assert (q ≠ Node key) as Hqk by (by eapply Hne, get_prev_live).
  assert (r ≠ Node key) as Hrk by (by eapply Hne, get_next_live).
  exists q, r. unfold get_next, get_prev in *.
  rewrite !Hd by done. split_and!; try done; tauto.
Qed.

(** [map.erase] of a node that is off the list. *)
Lemma erase_linked c k P :
  linked c P → P (Node k) →
  linked (set_map c (delete k (map c))) (λ p, P p ∧ p ≠ Node k).
Proof.
  intros Hl HPk p HPp Hlive.
  assert (∀ r, r ≠ Node k →
    deref (set_map c (delete k (map c))) r = deref c r) as Hd.
  { intros [|k'] Hr; simpl; [done|].
    rewrite lookup_delete_ne; [done|congruence]. }
  assert (p ≠ Node k) as Hpk.
  { intros ->. destruct Hlive as [b Hb]. simpl in Hb.
    by rewrite lookup_delete_eq in Hb. }
  assert (¬ P p) as HPp' by tauto.
  destruct (Hl p HPp') as (q & r & Hq & Hr & HPq & HPr & Hqp & Hrp).
  { unfold live. by rewrite <-Hd. }
  exists q, r. unfold get_next, get_prev in *.
  rewrite !Hd by congruence. split_and!; try done; tauto.
Qed.

(** ** The list as a sequence *)

Lemma NoDup_remove_mid (a b : list (ptr K)) x :
  NoDup (a ++ x :: b) → NoDup (a ++ b) ∧ x ∉ a ++ b.
Proof.
  intros (Ha & Hab & Hxb)%NoDup_app. apply NoDup_cons in Hxb as [Hx Hb].
  split.
  - apply NoDup_app. split_and!; [done| |done].
    intros p Hp Hpb. apply (Hab p Hp). by right.
  - intros [Hxa|?]%elem_of_app; [|done]. apply (Hab x Hxa). by left.
Qed.

Lemma NoDup_insert_mid (a b : list (ptr K)) x :
  NoDup (a ++ b) → x ∉ a ++ b → NoDup (a ++ x :: b).
Proof.
  intros (Ha & Hab & Hb)%NoDup_app Hx. apply NoDup_app. split_and!.
  - done.
  - intros p Hp [->|Hpb]%elem_of_cons.
    + apply Hx, elem_of_app. by left.
    + by apply (Hab p).
  - apply NoDup_cons. split; [|done]. intros ?. apply Hx, elem_of_app.
    by right.
Qed.

Lemma ring_iff c P Q l : (∀ p, P p ↔ Q p) → ring c P l → ring c Q l.
Proof.
  intros HPQ (Hnd & Hmem & Hnx). split_and!; [done| |done].
  intros p. by rewrite Hmem, HPQ.
Qed.

Lemma ring_same_links c c' P l :
  (∀ r, get_next c' r = get_next c r) →
  (∀ r, live c' r ↔ live c r) →
  ring c P l → ring c' P l.
Proof.
  intros Hn Hlive (Hnd & Hmem & Hnx). split_and!; [done| |].
  - intros p. by rewrite Hmem, Hlive.
  - intros p Hp. rewrite Hn. by apply Hnx.
Qed.

Lemma ring_next_Dummy c P l :
  ring c P l → get_next c Dummy = Some (hd Dummy l).
Proof.
  intros (_ & _ & Hnx). rewrite Hnx by by left. done.
Qed.

Lemma ring_next c P a x b :
  ring c P (a ++ x :: b) → get_next c x = Some (hd Dummy b).
Proof.
  intros (Hnd & _ & Hnx). rewrite Hnx.
  - rewrite (app_comm_cons a (x :: b) Dummy).
    rewrite succ_app_cons; [done|].
    rewrite (app_comm_cons a (x :: b) Dummy) in Hnd.
    apply NoDup_remove_mid in Hnd as [_ Hx]. intros ?. apply Hx.
    apply elem_of_app. by left.
  - right. apply elem_of_app. right. by left.
Qed.

Lemma ring_elem c P l p :
  ring c P l → p ∈ l → p ≠ Dummy ∧ live c p ∧ ¬ P p.
Proof.
  intros (Hnd & Hmem & _) Hp. apply NoDup_cons in Hnd as [Hd _].
  split; [by intros ->|]. apply Hmem. by right.
Qed.

Lemma ring_prev c P l p :
  ring c P l → linked c P → p ∈ Dummy :: l →
  get_prev c (succ (Dummy :: l) Dummy p) = Some p.
Proof.
  intros (Hnd & Hmem & Hnx) Hl Hp. destruct (proj1 (Hmem p) Hp) as [Hlp HP].
  destruct (Hl p HP Hlp) as (q & _ & Hq & _ & _ & _ & Hqp & _).
  rewrite Hnx in Hq by done. by simplify_eq.
Qed.

Lemma ring_remove c P a x b c' :
  ring c P (a ++ x :: b) → linked c P → remove_ c x = Some c' →
  ring c' (λ p, P p ∨ p = x) (a ++ b).
Proof.
  intros Hring Hl Hr. pose proof Hring as (Hnd & Hmem & Hnx).
  destruct (remove_spec _ _ _ Hr)
    as (nn & np & Hnn & Hnp & Hln & Hlp & Hn' & _ & _ & Hf).
  rewrite (ring_next _ _ _ _ _ Hring) in Hnn. simplify_eq.
  rewrite (app_comm_cons a (x :: b) Dummy) in Hnd, Hmem, Hnx.
  destruct (NoDup_remove_mid _ _ _ Hnd) as [Hnd' Hx].
  assert (x ∈ (Dummy :: a) ++ x :: b) as Hxin.
  { apply elem_of_app. right. by left. }
  destruct (proj1 (Hmem x) Hxin) as [Hlx HPx].
  destruct (Hl x HPx Hlx) as (? & r & _ & Hr' & _ & HPr & _ & Hrx).
  simplify_eq.
  assert (∀ p, p ∈ (Dummy :: a) ++ b ↔
               p ∈ (Dummy :: a) ++ x :: b ∧ p ≠ x) as Hin.
  { intros p. rewrite !elem_of_app, !elem_of_cons. split.
    - intros Hp. split; [tauto|]. intros ->. apply Hx.
      rewrite elem_of_app, elem_of_cons. tauto.
    - tauto. }
  unfold ring. rewrite (app_comm_cons a b Dummy). split_and!.
  - done.
  - intros p. rewrite Hin, Hmem, (frame_live c c') by done. tauto.
  - intros p Hp. apply Hin in Hp as [Hp Hpx]. rewrite Hn'.
    rewrite (Hnx p Hp).
    rewrite (succ_remove (Dummy :: a) b Dummy x p); [|done| |done].
    2:{ intros <-. apply Hx. by left. }
    destruct (proj1 (Hmem p) Hp) as [Hlp' HPp].
    destruct (Hl p HPp Hlp') as (q & _ & Hq & _ & _ & _ & Hqp & _).
    rewrite (Hnx p Hp) in Hq. simplify_eq.
    destruct (decide (p = np)) as [->|Hne].
    + rewrite (Hnx np Hp) in Hrx. simplify_eq. by rewrite decide_True.
    + rewrite decide_False; [done|]. intros Heq. rewrite Heq in Hqp.
      congruence.
Qed.

Lemma ring_insert c P a b x c' :
  ring c P (a ++ b) → linked c P → P x →
  insert_before_ c (hd Dummy b) x = Some c' →
  ring c' (λ p, P p ∧ p ≠ x) (a ++ x :: b).
Proof.
  intros Hring Hl HPx Hi. pose proof Hring as (Hnd & Hmem & Hnx).
  destruct (insert_before_spec _ _ _ _ Hi)
    as (ap & Hap & Hlx & Hlap & Hn' & _ & _ & Hf).
  rewrite (app_comm_cons a b Dummy) in Hnd, Hmem, Hnx.
  assert (x ∉ (Dummy :: a) ++ b) as Hx.
  { intros Hin. by apply Hmem in Hin as [_ ?]. }
  pose proof (NoDup_insert_mid _ _ _ Hnd Hx) as Hnd'.
  assert (hd Dummy b ∈ (Dummy :: a) ++ b) as Hat.
  { apply elem_of_app. destruct b; simpl; [left|right]; by left. }
  destruct (proj1 (Hmem _) Hat) as [Hlat HPat].
  destruct (Hl _ HPat Hlat) as (_ & r & _ & Hr' & _ & HPr & _ & Hrx).
  simplify_eq.
  assert (ap ∈ (Dummy :: a) ++ b) as Hapin.
  { apply Hmem. split; [by eapply get_next_live|done]. }
  assert (∀ p, p ∈ (Dummy :: a) ++ x :: b ↔
               p = x ∨ p ∈ (Dummy :: a) ++ b) as Hin.
  { intros p. rewrite !elem_of_app, !elem_of_cons. tauto. }
  assert (Dummy ≠ x) as Hdx.
  { intros <-. apply Hx. by left. }
  assert (Dummy ∉ tl ((Dummy :: a) ++ x :: b)) as Hdtl.
  { simpl. by apply NoDup_cons in Hnd' as [? _]. }
  unfold ring. rewrite (app_comm_cons a (x :: b) Dummy). split_and!.
  - done.
  - intros p. rewrite Hin, Hmem, (frame_live c c') by done. split.
    + intros [->|[? ?]]; [split; [done|tauto]|tauto].
    + intros [? HP]. destruct (decide (p = x)); [by left|right; tauto].
  - intros p Hp. rewrite Hn'. apply Hin in Hp as [->|Hp].
    + rewrite decide_False by (by intros <-). rewrite decide_True by done.
      by rewrite succ_app_cons by (intros ?; apply Hx, elem_of_app; tauto).
    + assert (p ≠ x) as Hpx by (by intros ->).
      pose proof (succ_remove (Dummy :: a) b Dummy x p Hnd' Hdx Hpx) as Hs.
      rewrite (decide_False (P := p = x)) by done.
      destruct (decide (p = ap)) as [->|Hne].
      * f_equal. rewrite (Hnx ap Hp) in Hrx. simplify_eq.
        destruct (decide (succ ((Dummy :: a) ++ x :: b) Dummy ap = x))
          as [?|Hne]; [done|].
        exfalso. apply Hpx.
        apply (succ_inj ((Dummy :: a) ++ x :: b) Dummy); try done.
        -- apply Hin. by right.
        -- apply Hin. by left.
        -- rewrite <-Hs, Hrx.
           by rewrite succ_app_cons
             by (intros ?; apply Hx, elem_of_app; tauto).
      * rewrite (Hnx p Hp). f_equal. rewrite Hs.
        rewrite decide_False; [done|]. intros Heq.
        rewrite Heq in Hs. apply Hne.
        destruct (proj1 (Hmem p) Hp) as [Hlp' HPp].
        destruct (Hl p HPp Hlp') as (q & _ & Hq & _ & _ & _ & Hqp & _).
        rewrite (Hnx p Hp), Hs in Hq. rewrite decide_True in Hq by done.
        by simplify_eq.
Qed.

Lemma ring_deref_same c c' P l :
  (∀ r, deref c' r = deref c r) → ring c P l → ring c' P l.
Proof.
  intros Hd. apply ring_same_links; intros r.
  - unfold get_next. by rewrite Hd.
  - unfold live. by rewrite Hd.
Qed.

Lemma linked_deref_same c c' P :
  (∀ r, deref c' r = deref c r) → linked c P → linked c' P.
Proof.
  intros Hd. apply linked_same_links; intros r.
  - unfold get_next. by rewrite Hd.
  - unfold get_prev. by rewrite Hd.
  - unfold live. by rewrite Hd.
Qed.

Lemma ring_set_state c p st c' P l :
  set_state c p st = Some c' → ring c P l → ring c' P l.
Proof.
  intros Hs. destruct (set_state_spec _ _ _ _ Hs) as (_ & Hn & _ & _ & Hf).
  apply ring_same_links; [done|]. intros r. by apply frame_live.
Qed.

Lemma ring_fresh c key v P l :
  ring c P l → map c !! key = None →
  ring (set_map c (<[key := fresh_node key v]> (map c)))
       (λ p, P p ∨ p = Node key) l.
Proof.
  intros (Hnd & Hmem & Hnx) Hkey.
  set (c0 := set_map c (<[key := fresh_node key v]> (map c))).
  assert (∀ r, r ≠ Node key → deref c0 r = deref c r) as Hd.
  { intros [|k'] Hr; simpl; [done|].
    rewrite lookup_insert_ne; [done|congruence]. }
  assert (¬ live c (Node key)) as Hnl.
  { intros [b Hb]. simpl in Hb. by rewrite Hkey in Hb. }
  split_and!; [done| |].
  - intros p. rewrite Hmem. split.
    + intros [Hlp HP]. assert (p ≠ Node key) by (by intros ->).
      split; [|tauto]. unfold live. by rewrite Hd.
    + intros [Hlp HP]. assert (p ≠ Node key) by tauto.
      split; [|tauto]. unfold live in *. by rewrite <-Hd.
  - intros p Hp. rewrite <-(Hnx p Hp). unfold get_next. rewrite Hd; [done|].
    intros ->. by apply Hmem in Hp as [? _].
Qed.

Lemma ring_erase c k P l :
  ring c P l → P (Node k) →
  ring (set_map c (delete k (map c))) (λ p, P p ∧ p ≠ Node k) l.
Proof.
  intros (Hnd & Hmem & Hnx) HPk.
  set (c2 := set_map c (delete k (map c))).
  assert (∀ r, r ≠ Node k → deref c2 r = deref c r) as Hd.
  { intros [|k'] Hr; simpl; [done|].
    rewrite lookup_delete_ne; [done|congruence]. }
  assert (¬ live c2 (Node k)) as Hnl.
  { intros [b Hb]. simpl in Hb. by rewrite lookup_delete_eq in Hb. }
  split_and!; [done| |].
  - intros p. rewrite Hmem. split.
    + intros [Hlp HP]. assert (p ≠ Node k) by (by intros ->).
      split; [|tauto]. unfold live. by rewrite Hd.
    + intros [Hlp HP]. assert (p ≠ Node k) by (by intros ->).
      split; [|tauto]. unfold live in *. by rewrite <-Hd.
  - intros p Hp. rewrite <-(Hnx p Hp). unfold get_next. rewrite Hd; [done|].
    intros ->. by apply Hmem in Hp as [_ ?].
Qed.

(** ** The boundary cascades *)

Lemma deref_same c c' :
  dummy c' = dummy c → map c' = map c → ∀ r, deref c' r = deref c r.
Proof. intros Hd Hm [|k]; simpl; congruence. Qed.

Lemma set_state_total c p s : live c p → is_Some (set_state c p s).
Proof. apply assign_total. Qed.

Lemma use_cascade_spec c c' :
  use_cascade c = Some c' →
  (∀ r, get_next c' r = get_next c r) ∧
  (∀ r, get_prev c' r = get_prev c r) ∧
  same_data c c' ∧ cache_size c' = cache_size c ∧
  (inlet c' = inlet c ∨ get_next c (inlet c) = Some (inlet c')) ∧
  (nomination c' = nomination c ∨
   get_next c (nomination c) = Some (nomination c')) ∧
  (∀ r, get_state c' r = Some NOMINATED ↔
        get_state c r = Some NOMINATED ∨
        (r = nomination c ∧ get_state c r = Some ADDED)) ∧
  (∀ r, r ≠ inlet c → get_state c r ≠ Some ADDED →
        get_state c' r = get_state c r).
Proof.
  unfold use_cascade. intros Hu.
  destruct (get_state c (nomination c)) as [ns|] eqn:Hns; [|done].
  simpl in Hu. destruct (decide (ns = ADDED)) as [->|Hna]; cycle 1.
  { simplify_eq.
    split_and!; [done|done|apply same_data_refl|done|by left|by left| |done].
    intros r. split; [by eauto|]. intros [?|[-> ?]]; [done|congruence]. }
  destruct (set_state c (nomination c) NOMINATED) as [c1|] eqn:H1; [|done].
  simpl in Hu.
  destruct (set_state_spec _ _ _ _ H1)
    as (Hl1 & Hn1 & Hp1 & Hs1 & Hd1 & Hz1 & Hi1 & Hm1).
  destruct (get_next c1 (nomination c1)) as [nn|] eqn:Hnn; [|done].
  simpl in Hu. rewrite Hn1, Hm1 in Hnn.
  set (c2 := set_nomination c1 nn) in *.
  assert (∀ r, deref c2 r = deref c1 r) as Hd2 by by apply deref_same.
  assert (get_state c2 (inlet c) = get_state c1 (inlet c)) as Hi2.
  { unfold get_state. by rewrite Hd2. }
  rewrite Hi1, Hi2 in Hu.
  destruct (get_state c1 (inlet c)) as [ist|] eqn:Hist; [|done].
  simpl in Hu. destruct (decide (ist = REUSED)) as [->|Hnr]; cycle 1.
  { simplify_eq. unfold get_next, get_prev, get_state in *.
    split_and!; [intros r; by rewrite Hd2, Hn1|intros r; by rewrite Hd2, Hp1|
                 done|done|by left|by right| |].
    - intros r. rewrite Hd2, Hs1. by_cases.
    - intros r ? ?. rewrite Hd2, Hs1. by_cases. }
  destruct (set_state c2 (inlet c) ADDED) as [c3|] eqn:H3; [|done].
  simpl in Hu.
  destruct (set_state_spec _ _ _ _ H3)
    as (Hl3 & Hn3 & Hp3 & Hs3 & Hd3 & Hz3 & Hi3 & Hm3).
  destruct (get_next c3 (inlet c3)) as [inn|] eqn:Hinn; [|done].
  simpl in Hu. simplify_eq.
  assert (∀ r, deref (set_inlet c3 inn) r = deref c3 r) as Hd4
    by by apply deref_same.
  rewrite Hn3, Hi3 in Hinn. simpl in Hinn. rewrite Hi1 in Hinn.
  unfold get_next, get_prev, get_state in *.
  rewrite Hd2, Hn1 in Hinn. rewrite Hs1 in Hist.
  split_and!.
  - intros r. by rewrite Hd4, Hn3, Hd2, Hn1.
  - intros r. by rewrite Hd4, Hp3, Hd2, Hp1.
  - eapply same_data_trans; [exact Hd1|]. exact Hd3.
  - simpl. rewrite Hz3. simpl. done.
  - simpl. by right.
  - simpl. rewrite Hm3. simpl. by right.
  - intros r. rewrite Hd4, Hs3, Hd2, Hs1. by_cases.
  - intros r ? ?. rewrite Hd4, Hs3, Hd2, Hs1. by_cases.
Qed.

Lemma use_cascade_total c :
  live c (nomination c) → live c (inlet c) → is_Some (use_cascade c).
Proof.
  intros Hln Hli. unfold use_cascade.
  destruct (proj1 (live_get_state _ _) Hln) as [ns ->]. simpl.
  destruct (decide (ns = ADDED)) as [->|]; [|by eauto].
  destruct (set_state_total c (nomination c) NOMINATED Hln) as [c1 H1].
  rewrite H1. simpl.
  destruct (set_state_spec _ _ _ _ H1)
    as (Hl1 & Hn1 & Hp1 & Hs1 & Hd1 & Hz1 & Hi1 & Hm1).
  destruct (live_get_next c (nomination c) Hln) as [nn Hnn].
  rewrite Hn1, Hm1, Hnn. simpl.
  set (c2 := set_nomination c1 nn).
  assert (∀ r, deref c2 r = deref c1 r) as Hd2 by by apply deref_same.
  assert (live c2 (inlet c)) as Hl2.
  { unfold live. rewrite Hd2. by apply (same_data_live c c1). }
  rewrite Hi1.
  destruct (proj1 (live_get_state _ _) Hl2) as [ist ->]. simpl.
  destruct (decide (ist = REUSED)) as [->|]; [|by eauto].
  destruct (set_state_total c2 (inlet c) ADDED Hl2) as [c3 H3].
  rewrite H3. simpl.
  destruct (set_state_spec _ _ _ _ H3)
    as (Hl3 & Hn3 & Hp3 & Hs3 & Hd3 & Hz3 & Hi3 & Hm3).
  destruct (live_get_next c3 (inlet c3)) as [inn ->]; [|by eauto].
  rewrite Hi3. simpl. rewrite Hi1.
  by apply (same_data_live c2 c3).
Qed.

Lemma add_cascade_spec c c' :
  add_cascade c = Some c' →
  (∀ r, get_next c' r = get_next c r) ∧
  (∀ r, get_prev c' r = get_prev c r) ∧
  (∀ r, get_state c' r = if decide (r = nomination c) then Some NOMINATED
                         else get_state c r) ∧
  same_data c c' ∧ cache_size c' = cache_size c ∧
  inlet c' = inlet c ∧
  get_next c (nomination c) = Some (nomination c').
Proof.
  unfold add_cascade. intros Ha.
  destruct (set_state c (nomination c) NOMINATED) as [c1|] eqn:H1; [|done].
  simpl in Ha.
  destruct (set_state_spec _ _ _ _ H1)
    as (Hl1 & Hn1 & Hp1 & Hs1 & Hd1 & Hz1 & Hi1 & Hm1).
  destruct (get_next c1 (nomination c1)) as [nn|] eqn:Hnn; [|done].
  simpl in Ha. simplify_eq. rewrite Hn1, Hm1 in Hnn.
  assert (∀ r, deref (set_nomination c1 nn) r = deref c1 r) as Hd2
    by by apply deref_same.
  unfold get_next, get_prev, get_state in *.
  split_and!; try done; intros r; by rewrite Hd2.
Qed.

Lemma add_warmup_spec c n c' :
  add_warmup c n = Some c' →
  (∀ r, get_next c' r = get_next c r) ∧
  (∀ r, get_prev c' r = get_prev c r) ∧
  same_data c c' ∧ cache_size c' = cache_size c ∧
  (inlet c' = inlet c ∨
   get_prev c (inlet c) = Some (inlet c') ∧ live c (inlet c')) ∧
  (nomination c' = nomination c ∨ nomination c' = n).
Proof.
  unfold add_warmup. intros Ha.
  destruct (decide (cache_size c < nominated_limit c)).
  { destruct (set_state_spec _ _ _ _ Ha)
      as (Hl1 & Hn1 & Hp1 & Hs1 & Hd1 & Hz1 & Hi1 & Hm1).
    split_and!; try done; by left. }
  destruct (decide (cache_size c = nominated_limit c)).
  { simplify_eq.
    assert (∀ r, deref (set_nomination c n) r = deref c r) as Hd
      by by apply deref_same.
    unfold get_next, get_prev.
    split_and!; [intros r; by rewrite Hd|intros r; by rewrite Hd|
                 by repeat split|done|by left|by right]. }
  destruct (get_prev c (inlet c)) as [ip|] eqn:Hip; [|done]. simpl in Ha.
  set (c2 := if decide (nomination c = ip)
             then set_nomination (set_inlet c ip) n
             else set_inlet c ip) in *.
  assert (∀ r, deref c2 r = deref c r) as Hd.
  { unfold c2. case_decide; by apply deref_same. }
  assert (inlet c2 = ip) as Hi2 by (unfold c2; by case_decide).
  assert (same_data c c2) as Hd2.
  { unfold c2. case_decide; by repeat split. }
  assert (cache_size c2 = cache_size c) as Hz2.
  { unfold c2. by case_decide. }
  assert (nomination c2 = nomination c ∨ nomination c2 = n) as Hm2.
  { unfold c2. case_decide; [by right|by left]. }
  rewrite Hi2 in Ha.
  destruct (set_state_spec _ _ _ _ Ha)
    as (Hl1 & Hn1 & Hp1 & Hs1 & Hd1 & Hz1 & Hi1 & Hm1).
  unfold get_next, get_prev in *.
  split_and!.
  - intros r. by rewrite Hn1, Hd.
  - intros r. by rewrite Hp1, Hd.
  - by eapply same_data_trans.
  - congruence.
  - right. rewrite Hi1, Hi2. split; [done|].
    unfold live in *. by rewrite <-Hd.
  - rewrite Hm1. done.
Qed.

Lemma add_warmup_total c n ip :
  live c n → get_prev c (inlet c) = Some ip → live c ip →
  is_Some (add_warmup c n).
Proof.
  intros Hln Hip Hlip. unfold add_warmup.
  destruct (decide (cache_size c < nominated_limit c));
    [by apply set_state_total|].
  destruct (decide (cache_size c = nominated_limit c)); [by eauto|].
  rewrite Hip. simpl. apply set_state_total.
  unfold live in *.
  case_decide; simpl; (rewrite deref_same with (c := c); [done..]).
Qed.

(** The cascade of [use_], case by case. *)
Lemma use_cascade_cases c c' :
  use_cascade c = Some c' →
  (get_state c (nomination c) ≠ Some ADDED ∧ c' = c) ∨
  (get_state c (nomination c) = Some ADDED ∧
   (∀ r, get_next c' r = get_next c r) ∧
   same_data c c' ∧ cache_size c' = cache_size c ∧
   get_next c (nomination c) = Some (nomination c') ∧
   ((inlet c' = inlet c ∧
     (inlet c = nomination c ∨ get_state c (inlet c) ≠ Some REUSED) ∧
     ∀ r, get_state c' r = if decide (r = nomination c) then Some NOMINATED
                           else get_state c r) ∨
    (inlet c ≠ nomination c ∧ get_state c (inlet c) = Some REUSED ∧
     get_next c (inlet c) = Some (inlet c') ∧
     ∀ r, get_state c' r = if decide (r = inlet c) then Some ADDED
                           else if decide (r = nomination c)
                                then Some NOMINATED
                                else get_state c r))).
Proof.
  unfold use_cascade. intros Hu.
  destruct (get_state c (nomination c)) as [ns|] eqn:Hns; [|done].
  simpl in Hu. destruct (decide (ns = ADDED)) as [->|Hna]; cycle 1.
  { left. simplify_eq. split; [congruence|done]. }
  right. split; [done|].
  destruct (set_state c (nomination c) NOMINATED) as [c1|] eqn:H1; [|done].
  simpl in Hu.
  destruct (set_state_spec _ _ _ _ H1)
    as (Hl1 & Hn1 & Hp1 & Hs1 & Hd1 & Hz1 & Hi1 & Hm1).
  destruct (get_next c1 (nomination c1)) as [nn|] eqn:Hnn; [|done].
  simpl in Hu. rewrite Hn1, Hm1 in Hnn.
  set (c2 := set_nomination c1 nn) in *.
  assert (∀ r, deref c2 r = deref c1 r) as Hd2 by by apply deref_same.
  assert (get_state c2 (inlet c) = get_state c1 (inlet c)) as Hi2.
  { unfold get_state. by rewrite Hd2. }
  rewrite Hi1, Hi2 in Hu.
  destruct (get_state c1 (inlet c)) as [ist|] eqn:Hist; [|done].
  simpl in Hu. rewrite Hs1 in Hist.
  destruct (decide (ist = REUSED)) as [->|Hnr]; cycle 1.
  { simplify_eq. unfold get_next, get_state in *.
    split_and!; [intros r; by rewrite Hd2, Hn1|done|done|done|].
    left. split_and!; [done| |intros r; by rewrite Hd2, Hs1].
    destruct (decide (inlet c = nomination c)); [by left|right; congruence]. }
  destruct (set_state c2 (inlet c) ADDED) as [c3|] eqn:H3; [|done].
  simpl in Hu.
  destruct (set_state_spec _ _ _ _ H3)
    as (Hl3 & Hn3 & Hp3 & Hs3 & Hd3 & Hz3 & Hi3 & Hm3).
  destruct (get_next c3 (inlet c3)) as [inn|] eqn:Hinn; [|done].
  simpl in Hu. simplify_eq.
  assert (∀ r, deref (set_inlet c3 inn) r = deref c3 r) as Hd4
    by by apply deref_same.
  rewrite Hn3, Hi3 in Hinn. simpl in Hinn. rewrite Hi1 in Hinn.
  unfold get_next, get_state in *. rewrite Hd2, Hn1 in Hinn.
  destruct (decide (inlet c = nomination c)) as [|Hne]; [done|].
  split_and!.
  - intros r. by rewrite Hd4, Hn3, Hd2, Hn1.
  - eapply same_data_trans; [exact Hd1|]. exact Hd3.
  - simpl. rewrite Hz3. simpl. done.
  - simpl. rewrite Hm3. simpl. done.
  - right. split_and!; [done..|].
    intros r. by rewrite Hd4, Hs3, Hd2, Hs1.
Qed.

(** ** What the markers keep of the layout *)

Lemma ring_NoDup c P l : ring c P l → NoDup l ∧ Dummy ∉ l.
Proof. intros (Hnd & _). apply NoDup_cons in Hnd. tauto. Qed.

Lemma hd_app_cons (a : list (ptr K)) x b q :
  hd q ((a ++ [x]) ++ b) = hd q (a ++ x :: b).
Proof. by rewrite <-app_assoc. Qed.

Lemma use_cascade_zoned c l1 l2 l3 c' :
  zoned_by c (λ _, False) l1 l2 l3 → (l3 = [] → length l2 ≠ 1%nat) →
  use_cascade c = Some c' → zoned c'.
Proof.
  intros (Hring & Hnom & Hin & H3 & H2 & Hd & Hle & Hgt & Hcfg) Hlen Hu.
  destruct (use_cascade_cases _ _ Hu)
    as [[_ ->]|(Hst & Hn & Hdat & Hz & Hnn & Hcase)].
  { by exists l1, l2, l3. }
  destruct l2 as [|y m].
  { exfalso. simpl in Hnom. rewrite Hnom in Hst.
    destruct l3 as [|z t]; simpl in Hst; [congruence|].
    rewrite H3 in Hst by by left. done. }
  simpl in Hnom. rewrite Hnom in *.
  pose proof (ring_next _ _ l1 y (m ++ l3) Hring) as Hny.
  assert (nomination c' = hd Dummy (m ++ l3)) as Hnom' by congruence.
  destruct (ring_NoDup _ _ _ Hring) as [Hnd Hdl].
  assert (∀ r, live c' r ↔ live c r) as Hlive.
  { intros r. by apply same_data_live. }
  pose proof (ring_same_links c c' _ _ Hn Hlive Hring) as Hring'.
  pose proof Hdat as (Hcl & Hnl & _).
  destruct Hcase as [(Hi' & Hnr & Hs')|(Hne & Hr & Hinn & Hs')].
  - destruct l3 as [|z t];
      repeat (rewrite NoDup_app in Hnd || rewrite NoDup_cons in Hnd).
    2:{ exfalso. simpl in Hin. rewrite Hin in Hnr.
        destruct Hnr as [->|Hnr]; [set_solver|].
        apply Hnr, H3. by left. }
    exists (l1 ++ [y]), m, []. split_and!.
    + by rewrite <-app_assoc.
    + done.
    + by rewrite Hi'.
    + intros p Hp. by apply elem_of_nil in Hp.
    + intros p Hp. rewrite Hs'. rewrite decide_False by set_solver.
      apply H2. by right.
    + rewrite Hs'. rewrite decide_False; [done|].
      intros Heq. rewrite Heq in Hdl. set_solver.
    + intros Hsz. rewrite Hz, Hnl in Hsz. by destruct (Hle Hsz).
    + intros _ ->. by apply Hlen.
    + by rewrite Hnl, Hcl.
  - destruct l3 as [|z t];
      repeat (rewrite NoDup_app in Hnd || rewrite NoDup_cons in Hnd).
    { exfalso. simpl in Hin. rewrite Hin in Hr. congruence. }
    simpl in Hin. rewrite Hin in *.
    pose proof (ring_next c (λ _, False) (l1 ++ y :: m) z t) as Hnz.
    rewrite <-app_assoc in Hnz. specialize (Hnz Hring).
    assert (inlet c' = hd Dummy t) as Hin' by congruence.
    exists (l1 ++ [y]), (m ++ [z]), t. split_and!.
    + rewrite <-!app_assoc. done.
    + by rewrite hd_app_cons.
    + done.
    + intros p Hp. rewrite Hs'. rewrite !decide_False by set_solver.
      apply H3. by right.
    + intros p [Hp| ->%list_elem_of_singleton]%elem_of_app.
      * rewrite Hs'. rewrite !decide_False by set_solver.
        apply H2. by right.
      * rewrite Hs'. by rewrite decide_True.
    + rewrite Hs'. rewrite !decide_False; [done|..];
        intros Heq; rewrite Heq in Hdl; set_solver.
    + intros Hsz. rewrite Hz, Hnl in Hsz. by destruct (Hle Hsz).
    + intros _ Hnil. by apply app_eq_nil in Hnil as [_ ?].
    + by rewrite Hnl, Hcl.
Qed.

(** ** Promotion *)

Lemma use_move_spec c x c' :
  linked c (λ _, False) → x ≠ Dummy → use_move c x = Some c' →
  linked c' (λ _, False) ∧ frame c c' ∧
  get_prev c' Dummy = Some x ∧ get_next c' x = Some Dummy ∧
  (∀ r, get_state c' r = if decide (r = x) then Some REUSED
                         else get_state c r).
Proof.
  intros Hl Hx Hu. unfold use_move in Hu.
  destruct (remove_ c x) as [c1|] eqn:H1; [|done]. simpl in Hu.
  destruct (insert_before_ c1 Dummy x) as [c2|] eqn:H2; [|done].
  simpl in Hu.
  pose proof (remove_linked _ _ _ _ Hl (λ F, F) H1) as Hl1.
  assert (linked c2 (λ _, False)) as Hl2.
  { eapply linked_iff;
      [|eapply (insert_before_linked _ _ _ _ _ Hl1); [by right| |done]].
    - simpl. intuition.
    - simpl. intuition. }
  destruct (remove_spec _ _ _ H1)
    as (nn & np & _ & _ & _ & _ & _ & _ & Hs1 & Hf1).
  destruct (insert_before_spec _ _ _ _ H2)
    as (ap & _ & _ & _ & _ & Hp2 & Hs2 & Hf2).
  destruct (set_state_spec _ _ _ _ Hu) as (_ & Hn3 & Hp3 & Hs3 & Hf3).
  assert (get_prev c2 Dummy = Some x) as Hpd.
  { rewrite Hp2. by rewrite decide_True. }
  split_and!.
  - by eapply set_state_linked.
  - eapply frame_trans; [|done]. by eapply frame_trans.
  - by rewrite Hp3.
  - rewrite Hn3.
    destruct (Hl2 Dummy) as (q & r & _ & Hr & _ & _ & _ & Hrd);
      [tauto|by eexists|]. congruence.
  - intros r. rewrite Hs3. case_decide; [done|]. by rewrite Hs2, Hs1.
Qed.

Lemma use_move_total c x :
  linked c (λ _, False) → live c x → x ≠ Dummy → is_Some (use_move c x).
Proof.
  intros Hl Hlx Hx. unfold use_move.
  destruct (Hl x) as (nn & np & Hnn & Hnp & _ & _ & Hq & Hr);
    [tauto|done|].
  destruct (remove_total c x nn np) as [c1 H1];
    [done|done|by eapply get_prev_live|by eapply get_next_live|].
  rewrite H1. simpl.
  destruct (remove_spec _ _ _ H1)
    as (? & ? & ? & ? & _ & _ & _ & Hp1 & Hs1 & Hf1). simplify_eq.
  pose proof (remove_linked _ _ _ _ Hl (λ F, F) H1) as Hl1.
  destruct (Hl1 Dummy) as (? & r & _ & Hr' & _ & _ & _ & Hrd);
    [intuition|by eexists|].
  destruct (insert_before_total c1 Dummy x r) as [c2 H2];
    [done|by apply (frame_live c c1)|by eapply get_next_live|].
  rewrite H2. simpl. apply set_state_total.
  destruct (insert_before_spec _ _ _ _ H2)
    as (? & _ & _ & _ & _ & _ & _ & Hf2).
  apply (frame_live c1 c2); [done|]. by apply (frame_live c c1).
Qed.

Lemma use_spec c x c' :
  wf c → x ≠ Dummy → use_ c x = Some c' →
  wf c' ∧ same_data c c' ∧ cache_size c' = cache_size c.
Proof.
  intros (Hl & Hli & Hln) Hx Hu. unfold use_ in Hu.
  destruct (get_state c x) as [st|] eqn:Hst; [|done]. simpl in Hu.
  destruct (decide (st ≠ NOMINATED)).
  { simplify_eq. split; [done|]. split; [apply same_data_refl|done]. }
  destruct (use_move c x) as [c3|] eqn:H3; [|done]. simpl in Hu.
  destruct (use_move_spec _ _ _ Hl Hx H3)
    as (Hl3 & (Hd3 & Hz3 & Hi3 & Hm3) & _).
  destruct (use_cascade_spec _ _ Hu)
    as (Hn & Hp & Hd & Hz & Hi & Hm & _ & _).
  assert (∀ r, live c' r ↔ live c3 r) as Hlive.
  { intros r. by apply same_data_live. }
  assert (linked c' (λ _, False)) as Hl'.
  { by eapply linked_same_links. }
  assert (live c3 (inlet c3)) as Hli3.
  { rewrite Hi3. by apply (same_data_live c c3). }
  assert (live c3 (nomination c3)) as Hln3.
  { rewrite Hm3. by apply (same_data_live c c3). }
  split; [|split; [by eapply same_data_trans|congruence]].
  split; [exact Hl'|]. split.
  - apply Hlive. destruct Hi as [->|Hi]; [done|].
    destruct (Hl3 (inlet c3)) as (q & r & ? & _ & _ & _ & ? & _);
      [tauto|done|]. simplify_eq. by eapply get_prev_live.
  - apply Hlive. destruct Hm as [->|Hm]; [done|].
    destruct (Hl3 (nomination c3)) as (q & r & ? & _ & _ & _ & ? & _);
      [tauto|done|]. simplify_eq. by eapply get_prev_live.
Qed.

Lemma use_zoned c x c' :
  linked c (λ _, False) → zoned c → x ≠ Dummy →
  use_ c x = Some c' → zoned c'.
Proof.
  intros Hl (l1 & l2 & l3 & Hzb) Hx Hu. unfold use_ in Hu.
  destruct (get_state c x) as [st|] eqn:Hst; [|done]. simpl in Hu.
  destruct (decide (st ≠ NOMINATED)) as [|Hn%dec_stable].
  { simplify_eq. by exists l1, l2, l3. }
  subst st. destruct (use_move c x) as [c3|] eqn:H3; [|done]. simpl in Hu.
  destruct (use_move_spec _ _ _ Hl Hx H3)
    as (Hl3 & ((Hcl & Hnl & _) & Hsz & Hi3 & Hm3) & _ & _ & Hs3).
  destruct Hzb as (Hring & Hnom & Hin & HR & HA & Hd & Hle & Hgt & Hcfg).
  assert (x ∈ l1) as Hx1.
  { destruct Hring as (_ & Hmem & _).
    assert (x ∈ Dummy :: l1 ++ l2 ++ l3) as Hxl.
    { apply Hmem. split; [by eapply get_state_live|tauto]. }
    apply elem_of_cons in Hxl as [?|Hxl]; [done|].
    apply elem_of_app in Hxl as [?|Hxl]; [done|]. exfalso.
    apply elem_of_app in Hxl as [Hxl|Hxl].
    - by apply (HA x).
    - rewrite (HR x Hxl) in Hst. done. }
  apply list_elem_of_split in Hx1 as (a & b & ->).
  assert (ring c3 (λ _, False) ((a ++ b ++ l2 ++ l3) ++ [x])) as Hring3.
  { unfold use_move in H3.
    destruct (remove_ c x) as [c1|] eqn:H1; [|done]. simpl in H3.
    destruct (insert_before_ c1 Dummy x) as [c2|] eqn:H2; [|done].
    simpl in H3. rewrite <-app_assoc in Hring. simpl in Hring.
    pose proof (ring_remove _ _ _ _ _ _ Hring Hl H1) as Hr1.
    pose proof (remove_linked _ _ _ _ Hl (λ F, F) H1) as Hl1.
    rewrite <-(app_nil_r (a ++ b ++ l2 ++ l3)) in Hr1.
    pose proof (ring_insert _ _ _ [] x _ Hr1 Hl1 (or_intror eq_refl) H2)
      as Hr2.
    eapply ring_set_state; [done|]. eapply ring_iff; [|done].
    simpl. intuition. }
  assert (∀ p, get_state c p = Some REUSED → get_state c3 p = Some REUSED)
    as HR3.
  { intros p Hp. rewrite Hs3. by case_decide. }
  assert (∀ p, get_state c p ≠ Some NOMINATED →
               get_state c3 p ≠ Some NOMINATED) as HA3.
  { intros p Hp. rewrite Hs3. by case_decide. }
  assert (get_state c3 x = Some REUSED) as Hx3.
  { rewrite Hs3. by rewrite decide_True. }
  assert (get_state c3 Dummy = Some DETACHED) as Hd3.
  { rewrite Hs3. by rewrite decide_False. }
  assert (nominated_limit c3 < cache_limit c3) as Hcfg3 by congruence.
  destruct l3 as [|z t]; [destruct l2 as [|y m]|].
  - apply (use_cascade_zoned c3 (a ++ b ++ [x]) [] []); [|done..].
    split_and!.
    + eapply eq_rect; [exact Hring3|]. by simplify_list_eq.
    + by rewrite Hm3, Hnom.
    + by rewrite Hi3, Hin.
    + intros p Hp. by apply elem_of_nil in Hp.
    + intros p Hp. by apply elem_of_nil in Hp.
    + done.
    + done.
    + intros ?. exfalso. apply Hgt; [lia|done].
    + done.
  - apply (use_cascade_zoned c3 (a ++ b) ((y :: m) ++ [x]) []); [| |done].
    + split_and!.
      * eapply eq_rect; [exact Hring3|]. by simplify_list_eq.
      * by rewrite Hm3, Hnom.
      * by rewrite Hi3, Hin.
      * intros p Hp. by apply elem_of_nil in Hp.
      * intros p [Hp| ->%list_elem_of_singleton]%elem_of_app.
        -- by apply HA3, HA.
        -- by rewrite Hx3.
      * done.
      * intros ?. exfalso. destruct Hle as [? _]; [lia|done].
      * done.
      * done.
    + intros _. simpl. rewrite length_app. simpl. lia.
  - apply (use_cascade_zoned c3 (a ++ b) l2 ((z :: t) ++ [x])); [|done..].
    split_and!.
    + eapply eq_rect; [exact Hring3|]. by simplify_list_eq.
    + rewrite Hm3, Hnom. by destruct l2.
    + by rewrite Hi3, Hin.
    + intros p [Hp| ->%list_elem_of_singleton]%elem_of_app.
      * by apply HR3, HR.
      * done.
    + intros p Hp. by apply HA3, HA.
    + done.
    + intros ?. exfalso. destruct Hle as [_ ?]; [lia|done].
    + intros ?. apply Hgt. lia.
    + done.
Qed.

Lemma use_total c x : wf c → live c x → x ≠ Dummy → is_Some (use_ c x).
Proof.
  intros (Hl & Hli & Hln) Hlx Hx. unfold use_.
  destruct (proj1 (live_get_state _ _) Hlx) as [st ->]. simpl.
  destruct (decide (st ≠ NOMINATED)); [by eauto|].
  destruct (use_move_total c x) as [c3 H3]; [done..|].
  rewrite H3. simpl.
  destruct (use_move_spec _ _ _ Hl Hx H3)
    as (Hl3 & (Hd3 & Hz3 & Hi3 & Hm3) & _).
  apply use_cascade_total.
  - rewrite Hm3. by apply (same_data_live c c3).
  - rewrite Hi3. by apply (same_data_live c c3).
Qed.

(** ** Insertion and eviction *)

Lemma add_spec c0 n c' ev :
  linked c0 (λ p, p = n) → n ≠ Dummy →
  get_state c0 n = Some DETACHED →
  live c0 (inlet c0) → inlet c0 ≠ n →
  live c0 (nomination c0) →
  add_ c0 n = Some (c', ev) →
  wf c' ∧
  cache_limit c' = cache_limit c0 ∧
  nominated_limit c' = nominated_limit c0 ∧
  added_limit c' = added_limit c0 ∧
  on_create c' = on_create c0 ∧
  on_evict c' = on_evict c0 ∧
  ((cache_size c0 < cache_limit c0 ∧ ev = [] ∧
    cache_size c' = cache_size c0 + 1 ∧
    ∀ k, value <$> map c' !! k = value <$> map c0 !! k) ∨
   (cache_size c0 >= cache_limit c0 ∧
    ∃ kr nr,
      next (dummy c0) = Node kr ∧ Node kr ≠ n ∧ map c0 !! kr = Some nr ∧
      ev = Erased kr ::
             (if on_evict c0 then [Evicted kr (value nr)] else []) ∧
      cache_size c' = cache_size c0 ∧
      ∀ k, value <$> map c' !! k = value <$> delete kr (map c0) !! k)).
Proof.
  intros Hl Hn Hst Hli Hin Hlm Ha. unfold add_ in Ha.
  rewrite Hst in Ha. simpl in Ha.
  destruct (decide (DETACHED ≠ DETACHED)); [done|].
  destruct (set_state c0 n ADDED) as [ca|] eqn:Hca; [|done]. simpl in Ha.
  destruct (set_state_spec _ _ _ _ Hca)
    as (Hlna & Hna & Hpa & Hsa & Hda & Hza & Hia & Hma).
  pose proof (set_state_linked _ _ _ _ _ Hca Hl) as Hla.
  assert (∀ r, live ca r ↔ live c0 r) as Hlivea.
  { intros r. by apply same_data_live. }
  destruct (decide (cache_size ca >= cache_limit ca)) as [Hfull|Hroom].
  - (* at capacity *)
    destruct (next (dummy ca)) as [|kr] eqn:Hkr; [done|].
    destruct (remove_ ca (Node kr)) as [c1|] eqn:H1; [|done]. simpl in Ha.
    destruct (map c1 !! kr) as [nr1|] eqn:Hnr1; [|done]. simpl in Ha.
    set (c2 := set_map c1 (delete kr (map c1))) in *.
    destruct (insert_before_ c2 (inlet c1) n) as [c3|] eqn:H3; [|done].
    simpl in Ha.
    destruct (add_cascade c3) as [c4|] eqn:H4; [|done]. simpl in Ha.
    simplify_eq.
    destruct (Hla Dummy) as (q & _ & Hq & _ & HPq & _);
      [done|by eexists|].
    assert (q = Node kr) as -> by (unfold get_next in Hq; simpl in Hq; congruence).
    pose proof (remove_linked _ _ _ _ Hla HPq H1) as Hl1.
    destruct (remove_spec _ _ _ H1)
      as (nn & np & _ & _ & _ & _ & _ & _ & _ & Hd1 & Hz1 & Hi1 & Hm1).
    pose proof (erase_linked c1 kr _ Hl1 (or_intror eq_refl)) as Hl2.
    fold c2 in Hl2.
    assert (linked c3 (λ _, False)) as Hl3.
    { eapply linked_iff;
        [|eapply (insert_before_linked _ _ _ _ _ Hl2); [| |done]].
      - simpl. intuition congruence.
      - simpl. split; [by left|congruence].
      - simpl. intros [[?|?] ?]; congruence. }
    destruct (insert_before_spec _ _ _ _ H3)
      as (ap & Hap & _ & _ & _ & _ & _ & Hd3 & Hz3 & Hi3 & Hm3).
    destruct (add_cascade_spec _ _ H4)
      as (Hn4 & Hp4 & _ & Hd4 & Hz4 & Hi4 & Hm4).
    assert (∀ r, live c' r ↔ live c3 r) as Hlive4.
    { intros r. by apply same_data_live. }
    assert (linked c' (λ _, False)) as Hl4.
    { by eapply linked_same_links. }
    destruct Hda as (?&?&?&?&?&Hva). destruct Hd1 as (?&?&?&?&?&Hv1).
    destruct Hd3 as (?&?&?&?&?&Hv3). destruct Hd4 as (?&?&?&?&?&Hv4).
    simpl in *.
    split_and!; try congruence.
    + split; [done|]. split.
      * apply Hlive4. rewrite Hi4, Hi3. simpl.
        apply (same_data_live c2 c3); [by repeat split|].
        by eapply get_prev_live.
      * apply Hlive4.
        destruct (Hl3 (nomination c3)) as (q & _ & Hq' & _ & _ & _ & ? & _);
          [tauto|by eapply get_next_live|].
        simplify_eq. by eapply get_prev_live.
    + right. split; [lia|].
      assert (value <$> map c0 !! kr = Some (value nr1)) as Hv.
      { by rewrite <-Hva, <-Hv1, Hnr1. }
      destruct (map c0 !! kr) as [nr|] eqn:Hnr; [|done].
      exists kr, nr. simplify_eq/=.
      split_and!; try done; try congruence.
      * replace (dummy c0) with (dummy ca); [done|].
        clear -Hca Hn. destruct n; [done|]. unfold set_state in Hca.
        simpl in Hca. destruct (map c0 !! k); by simplify_eq/=.
      * rewrite Hv. by replace (on_evict c') with (on_evict c0) by congruence.
      * intros k. rewrite Hv4, Hv3. simpl.
        destruct (decide (k = kr)) as [->|].
        -- by rewrite !lookup_delete_eq.
        -- rewrite !lookup_delete_ne by done. by rewrite Hv1, Hva.
  - (* warm-up *)
    destruct (add_warmup ca n) as [c1|] eqn:H1; [|done]. simpl in Ha.
    set (c2 := set_cache_size c1 (cache_size c1 + 1)) in *.
    destruct (insert_before_ c2 (inlet c1) n) as [c3|] eqn:H3; [|done].
    simpl in Ha. simplify_eq.
    destruct (add_warmup_spec _ _ _ H1)
      as (Hn1 & Hp1 & Hd1 & Hz1 & Hi1 & Hm1).
    assert (∀ r, live c1 r ↔ live ca r) as Hlive1.
    { intros r. by apply same_data_live. }
    assert (∀ r, deref c2 r = deref c1 r) as Hd2 by by apply deref_same.
    assert (linked c2 (λ p, p = n)) as Hl2.
    { eapply (linked_same_links c1); [by unfold get_next; intros; rewrite Hd2|
        by unfold get_prev; intros; rewrite Hd2|
        by unfold live; intros; rewrite Hd2|].
      by eapply linked_same_links. }
    assert (inlet c1 ≠ n) as Hin1.
    { destruct Hi1 as [->|[Hi1 _]]; [congruence|].
      destruct (Hla (inlet ca)) as (_ & r & _ & Hr & _ & HPr & _);
        [congruence|apply Hlivea; congruence|]. congruence. }
    assert (linked c' (λ _, False)) as Hl3.
    { eapply linked_iff;
        [|eapply (insert_before_linked _ _ _ _ _ Hl2); [| |done]];
        simpl; intuition congruence. }
    destruct (insert_before_spec _ _ _ _ H3)
      as (ap & Hap & Hlx & _ & _ & _ & _ & Hd3 & Hz3 & Hi3 & Hm3).
    assert (∀ r, live c' r ↔ live c1 r) as Hlive3.
    { intros r. rewrite (same_data_live c2 c') by done.
      unfold live. by rewrite Hd2. }
    destruct Hda as (?&?&?&?&?&Hva). destruct Hd1 as (?&?&?&?&?&Hv1).
    destruct Hd3 as (?&?&?&?&?&Hv3). simpl in *.
    split_and!; try congruence.
    + split; [done|]. split.
      * apply Hlive3. rewrite Hi3. simpl.
        unfold live. rewrite <-Hd2. by eapply get_prev_live.
      * apply Hlive3. rewrite Hm3. simpl.
        destruct Hm1 as [->| ->].
        -- apply Hlive1. apply Hlivea. congruence.
        -- apply Hlive1. by apply Hlivea.
    + left. split_and!; [lia|done|lia|].
      intros k. by rewrite Hv3, Hv1, Hva.
Qed.

Lemma get_state_erase c k p :
  p ≠ Node k →
  get_state (set_map c (delete k (map c))) p = get_state c p.
Proof.
  intros Hp. unfold get_state. destruct p as [|k']; simpl; [done|].
  rewrite lookup_delete_ne; [done|congruence].
Qed.

Lemma add_zoned c0 n c' ev l1 l2 l3 :
  linked c0 (λ p, p = n) → zoned_by c0 (λ p, p = n) l1 l2 l3 →
  n ≠ Dummy → get_state c0 n = Some DETACHED →
  add_ c0 n = Some (c', ev) → zoned c'.
Proof.
  intros Hl (Hring & Hnom & Hin & HR & HA & Hd & Hle & Hgt & Hcfg) Hn Hst Ha.
  unfold add_ in Ha. rewrite Hst in Ha. simpl in Ha.
  destruct (decide (DETACHED ≠ DETACHED)); [done|].
  destruct (set_state c0 n ADDED) as [ca|] eqn:Hca; [|done]. simpl in Ha.
  destruct (set_state_spec _ _ _ _ Hca)
    as (Hlna & Hna & Hpa & Hsa & (Hcl & Hnl & _) & Hza & Hia & Hma).
  pose proof (set_state_linked _ _ _ _ _ Hca Hl) as Hla.
  pose proof (ring_set_state _ _ _ _ _ _ Hca Hring) as Hringa.
  destruct (ring_NoDup _ _ _ Hring) as [Hnd Hdl].
  assert (∀ p, p ∈ l1 ++ l2 ++ l3 → p ≠ n ∧ p ≠ Dummy) as Hmem.
  { intros p Hp. destruct (ring_elem _ _ _ _ Hring Hp) as (? & _ & ?).
    done. }
  destruct (decide (cache_size ca >= cache_limit ca)) as [Hfull|Hroom].
  - (* at capacity *)
    destruct l2 as [|y m]; [exfalso; apply Hgt; [lia|done]|].
    pose proof (ring_next_Dummy _ _ _ Hringa) as Hnd0.
    unfold get_next in Hnd0. simpl in Hnd0.
    destruct (next (dummy ca)) as [|kr] eqn:Hkr; [done|].
    destruct (remove_ ca (Node kr)) as [c1|] eqn:H1; [|done]. simpl in Ha.
    destruct (map c1 !! kr) as [nr1|] eqn:Hnr1; [|done]. simpl in Ha.
    set (c2 := set_map c1 (delete kr (map c1))) in *.
    destruct (insert_before_ c2 (inlet c1) n) as [c3|] eqn:H3; [|done].
    simpl in Ha.
    destruct (add_cascade c3) as [c4|] eqn:H4; [|done]. simpl in Ha.
    injection Ha as <- _.
    destruct (remove_spec _ _ _ H1)
      as (nn & np & _ & _ & _ & _ & _ & _ & Hs1 & (Hd1 & Hz1 & Hi1 & Hm1)).
    destruct (insert_before_spec _ _ _ _ H3)
      as (ap & Hap & _ & _ & _ & _ & Hs3 & (Hd3 & Hz3 & Hi3 & Hm3)).
    destruct (add_cascade_spec _ _ H4)
      as (Hn4 & _ & Hs4 & Hd4 & Hz4 & Hi4 & Hm4).
    assert (nomination c3 = y) as Hnom3.
    { rewrite Hm3. simpl. by rewrite Hm1, Hma, Hnom. }
    destruct l1 as [|t1 l1'].
    { exfalso. simpl in Hnd0.
      assert (live c3 (Node kr)) as Hlive.
      { replace (Node kr) with (nomination c3) by congruence.
        by eapply get_next_live. }
      apply (same_data_live c2 c3) in Hlive; [|done].
      destruct Hlive as [b Hb]. simpl in Hb.
      by rewrite lookup_delete_eq in Hb. }
    simpl in Hnd0. assert (t1 = Node kr) as -> by congruence.
    assert (Node kr ≠ n) as Hkn by (apply Hmem; by left).
    pose proof (ring_remove ca _ [] (Node kr) (l1' ++ (y :: m) ++ l3) c1
                  Hringa Hla H1) as Hr1.
    pose proof (remove_linked _ _ _ _ Hla Hkn H1) as Hl1.
    pose proof (ring_erase c1 kr _ _ Hr1 (or_intror eq_refl)) as Hr2.
    pose proof (erase_linked c1 kr _ Hl1 (or_intror eq_refl)) as Hl2.
    fold c2 in Hr2, Hl2. simpl in Hr2.
    assert (inlet c1 = hd Dummy l3) as Hin1 by congruence.
    rewrite Hin1 in H3.
    replace (l1' ++ y :: m ++ l3) with ((l1' ++ y :: m) ++ l3) in Hr2
      by (by rewrite <-app_assoc).
    assert ((n = n ∨ n = Node kr) ∧ n ≠ Node kr) as HPn.
    { split; [by left|congruence]. }
    pose proof (ring_insert c2 _ (l1' ++ y :: m) l3 n c3 Hr2 Hl2 HPn H3)
      as Hr3.
    assert (ring c4 (λ _, False) ((l1' ++ y :: m) ++ n :: l3)) as Hr4.
    { eapply ring_same_links;
        [exact Hn4|intros r; by apply same_data_live|].
      eapply ring_iff; [|exact Hr3]. simpl. intros p. split; [|done].
      intros [[[?|?] ?] ?]; done. }
    assert (∀ p, p ≠ n → p ≠ Node kr → get_state c3 p = get_state c0 p)
      as Hst3.
    { intros p Hpn Hpk. rewrite Hs3. unfold c2.
      rewrite get_state_erase by done. rewrite Hs1, Hsa.
      by rewrite decide_False. }
    assert (get_state c3 n = Some ADDED) as Hn3.
    { rewrite Hs3. unfold c2. rewrite get_state_erase by done.
      rewrite Hs1, Hsa. by rewrite decide_True. }
    destruct Hd1 as (Hcl1 & Hnl1 & _). destruct Hd3 as (Hcl3 & Hnl3 & _).
    destruct Hd4 as (Hcl4 & Hnl4 & _). simpl in *.
    repeat (rewrite NoDup_app in Hnd || rewrite NoDup_cons in Hnd).
    exists (l1' ++ [y]), (m ++ [n]), l3. split_and!.
    + eapply eq_rect; [exact Hr4|]. by simplify_list_eq.
    + rewrite hd_app_cons.
      pose proof (ring_next c4 (λ _, False) l1' y (m ++ n :: l3)) as Hny.
      rewrite Hn4 in Hny. rewrite Hnom3 in Hm4.
      assert (Some (nomination c4) = Some (hd Dummy (m ++ n :: l3)));
        [|congruence].
      rewrite <-Hm4. apply Hny.
      eapply eq_rect; [exact Hr4|]. by simplify_list_eq.
    + congruence.
    + intros p Hp. rewrite Hs4, Hnom3. rewrite decide_False by set_solver.
      rewrite Hst3; [by apply HR| |].
      * apply Hmem. set_solver.
      * set_solver.
    + intros p [Hp| ->%list_elem_of_singleton]%elem_of_app.
      * rewrite Hs4, Hnom3. rewrite decide_False by set_solver.
        rewrite Hst3; [apply HA; by right| |].
        -- apply Hmem. set_solver.
        -- set_solver.
      * rewrite Hs4, Hnom3. rewrite decide_False.
        -- by rewrite Hn3.
        -- intros ->. destruct (Hmem y); [set_solver|done].
    + rewrite Hs4, Hnom3. rewrite decide_False.
      * by rewrite Hst3.
      * intros <-. apply Hdl. set_solver.
    + intros ?. lia.
    + intros _ Hnil. by apply app_eq_nil in Hnil as [_ ?].
    + congruence.
  - (* warm-up *)
    destruct (add_warmup ca n) as [c1|] eqn:H1; [|done]. simpl in Ha.
    set (c2 := set_cache_size c1 (cache_size c1 + 1)) in *.
    destruct (insert_before_ c2 (inlet c1) n) as [c3|] eqn:H3; [|done].
    simpl in Ha. injection Ha as <- _.
    assert (∀ r, deref c2 r = deref c1 r) as Hd2 by by apply deref_same.
    destruct (insert_before_spec _ _ _ _ H3)
      as (ap & Hap & _ & _ & _ & _ & Hs3 & ((Hcl3 & Hnl3 & _) & Hz3 & Hi3 & Hm3)).
    assert (∀ r, get_state c3 r = get_state c1 r) as Hs31.
    { intros r. rewrite Hs3. unfold get_state. by rewrite Hd2. }
    assert (∀ p : ptr K, (p = n ∧ p ≠ n) ↔ False) as HPF by tauto.
    unfold add_warmup in H1.
    destruct (decide (cache_size ca < nominated_limit ca)) as [Hlt|Hge];
      [|destruct (decide (cache_size ca = nominated_limit ca)) as [Heq|Hne]].
    + destruct Hle as [-> ->]; [lia|]. simpl in Hnom, Hin.
      destruct (set_state_spec _ _ _ _ H1)
        as (_ & Hn1 & _ & Hs1 & (Hcl1 & Hnl1 & _) & Hz1 & Hi1 & Hm1).
      pose proof (ring_deref_same _ _ _ _ Hd2
                    (ring_set_state _ _ _ _ _ _ H1 Hringa)) as Hr2.
      pose proof (linked_deref_same _ _ _ Hd2
                    (set_state_linked _ _ _ _ _ H1 Hla)) as Hl2.
      assert (inlet c1 = hd Dummy []) as Hin1 by (simpl; congruence).
      rewrite Hin1 in H3. simpl in Hr2.
      pose proof (ring_insert c2 _ l1 [] n c3 Hr2 Hl2 eq_refl H3) as Hr3.
      apply (ring_iff _ _ _ _ HPF) in Hr3.
      simpl in *. exists (l1 ++ [n]), [], []. split_and!.
      * eapply eq_rect; [exact Hr3|]. by simplify_list_eq.
      * simpl. congruence.
      * simpl. congruence.
      * intros p Hp. by apply elem_of_nil in Hp.
      * intros p Hp. by apply elem_of_nil in Hp.
      * rewrite Hs31, Hs1, decide_False by done.
        by rewrite Hsa, decide_False by done.
      * done.
      * intros ?. lia.
      * congruence.
    + destruct Hle as [-> ->]; [lia|]. simpl in Hnom, Hin.
      injection H1 as <-.
      assert (∀ r, deref (set_nomination ca n) r = deref ca r) as Hd1
        by by apply deref_same.
      pose proof (ring_deref_same _ _ _ _ Hd2
                    (ring_deref_same _ _ _ _ Hd1 Hringa)) as Hr2.
      pose proof (linked_deref_same _ _ _ Hd2
                    (linked_deref_same _ _ _ Hd1 Hla)) as Hl2.
      assert (inlet (set_nomination ca n) = hd Dummy []) as Hin1
        by (simpl; congruence).
      rewrite Hin1 in H3. simpl in Hr2.
      pose proof (ring_insert c2 _ l1 [] n c3 Hr2 Hl2 eq_refl H3) as Hr3.
      apply (ring_iff _ _ _ _ HPF) in Hr3.
      assert (∀ r, get_state c3 r = get_state ca r) as Hs3a.
      { intros r. rewrite Hs31. unfold get_state. by rewrite Hd1. }
      simpl in *. exists l1, [n], []. split_and!.
      * eapply eq_rect; [exact Hr3|]. by simplify_list_eq.
      * simpl. congruence.
      * simpl. congruence.
      * intros p Hp. by apply elem_of_nil in Hp.
      * intros p ->%list_elem_of_singleton.
        rewrite Hs3a, Hsa. by rewrite decide_True.
      * rewrite Hs3a, Hsa. by rewrite decide_False.
      * intros ?. lia.
      * done.
      * congruence.
    + destruct (get_prev ca (inlet ca)) as [ip|] eqn:Hip; [|done].
      simpl in H1.
      destruct (decide (l2 = [])) as [->|Hl2ne]; [exfalso; apply Hgt; [lia|done]|].
      destruct (exists_last Hl2ne) as (m & z & ->).
      repeat (rewrite NoDup_app in Hnd || rewrite NoDup_cons in Hnd).
      assert (z ≠ n ∧ z ≠ Dummy) as [Hzn Hzd] by (apply Hmem; set_solver).
      assert (succ (Dummy :: l1 ++ (m ++ [z]) ++ l3) Dummy z = hd Dummy l3)
        as Hsz.
      { replace (Dummy :: l1 ++ (m ++ [z]) ++ l3)
          with ((Dummy :: l1 ++ m) ++ z :: l3) by (by simplify_list_eq).
        apply succ_app_cons. set_solver. }
      assert (ip = z) as ->.
      { pose proof (ring_prev ca _ _ z Hringa Hla) as Hpz.
        rewrite Hsz, <-Hin, <-Hia, Hip in Hpz.
        assert (Some ip = Some z); [|congruence]. apply Hpz. set_solver. }
      set (cb := if decide (nomination ca = z)
                 then set_nomination (set_inlet ca z) n
                 else set_inlet ca z) in *.
      assert (∀ r, deref cb r = deref ca r) as Hdb.
      { unfold cb. case_decide; by apply deref_same. }
      assert (inlet cb = z) as Hib by (unfold cb; by case_decide).
      assert (cache_size cb = cache_size ca ∧
              nominated_limit cb = nominated_limit ca ∧
              cache_limit cb = cache_limit ca) as (Hzb & Hnlb & Hclb).
      { unfold cb. by case_decide. }
      assert (nomination cb = hd Dummy ((m ++ [n]) ++ z :: l3)) as Hmb.
      { assert (nomination ca = hd Dummy ((m ++ [z]) ++ l3)) as Hma'
          by congruence.
        unfold cb. case_decide as Hc; simpl; rewrite Hma' in *.
        - destruct m as [|m0 m']; simpl in *; [done|]. set_solver.
        - destruct m as [|m0 m']; simpl in *; done. }
      rewrite Hib in H1.
      destruct (set_state_spec _ _ _ _ H1)
        as (_ & Hn1 & _ & Hs1 & (Hcl1 & Hnl1 & _) & Hz1 & Hi1 & Hm1).
      pose proof (ring_deref_same _ _ _ _ Hd2
                    (ring_set_state _ _ _ _ _ _ H1
                       (ring_deref_same _ _ _ _ Hdb Hringa))) as Hr2.
      pose proof (linked_deref_same _ _ _ Hd2
                    (set_state_linked _ _ _ _ _ H1
                       (linked_deref_same _ _ _ Hdb Hla))) as Hl2.
      assert (inlet c1 = hd Dummy (z :: l3)) as Hin1 by (simpl; congruence).
      rewrite Hin1 in H3.
      replace (l1 ++ (m ++ [z]) ++ l3) with ((l1 ++ m) ++ z :: l3) in Hr2
        by (by simplify_list_eq).
      pose proof (ring_insert c2 _ (l1 ++ m) (z :: l3) n c3 Hr2 Hl2
                    eq_refl H3) as Hr3.
      apply (ring_iff _ _ _ _ HPF) in Hr3.
      assert (∀ r, get_state c3 r = if decide (r = z) then Some REUSED
                                    else get_state ca r) as Hs3a.
      { intros r. rewrite Hs31, Hs1. unfold get_state. by rewrite Hdb. }
      simpl in Hi3, Hm3, Hz3, Hcl3, Hnl3.
      exists l1, (m ++ [n]), (z :: l3). split_and!.
      * eapply eq_rect; [exact Hr3|]. by simplify_list_eq.
      * congruence.
      * simpl. congruence.
      * intros p [->|Hp]%elem_of_cons.
        -- rewrite Hs3a. by rewrite decide_True.
        -- rewrite Hs3a, Hsa. rewrite !decide_False; [by apply HR|..].
           ++ apply Hmem. set_solver.
           ++ set_solver.
      * intros p [Hp| ->%list_elem_of_singleton]%elem_of_app.
        -- rewrite Hs3a, Hsa. rewrite !decide_False; [apply HA|..].
           ++ set_solver.
           ++ apply Hmem. set_solver.
           ++ set_solver.
        -- rewrite Hs3a, Hsa. rewrite decide_False by done.
           by rewrite decide_True.
      * rewrite Hs3a, Hsa. by rewrite !decide_False.
      * intros ?. lia.
      * intros _ Hnil. by apply app_eq_nil in Hnil as [_ ?].
      * congruence.
Qed.

Lemma add_total c0 n :
  linked c0 (λ p, p = n) → n ≠ Dummy →
  get_state c0 n = Some DETACHED →
  live c0 (inlet c0) → inlet c0 ≠ n →
  cache_size c0 < cache_limit c0 →
  is_Some (add_ c0 n).
Proof.
  intros Hl Hn Hst Hli Hin Hroom. unfold add_. rewrite Hst. simpl.
  destruct (decide (DETACHED ≠ DETACHED)); [done|].
  destruct (set_state_total c0 n ADDED) as [ca Hca];
    [by eapply get_state_live|].
  rewrite Hca. simpl.
  destruct (set_state_spec _ _ _ _ Hca)
    as (Hlna & Hna & Hpa & Hsa & Hda & Hza & Hia & Hma).
  pose proof (set_state_linked _ _ _ _ _ Hca Hl) as Hla.
  assert (∀ r, live ca r ↔ live c0 r) as Hlivea.
  { intros r. by apply same_data_live. }
  destruct Hda as (Hlim & _).
  destruct (decide (cache_size ca >= cache_limit ca)); [lia|].
  destruct (Hla (inlet ca)) as (_ & ip & _ & Hip & _ & HPip & _ & Hipn);
    [congruence|apply Hlivea; congruence|].
  destruct (add_warmup_total ca n ip) as [c1 H1];
    [by apply Hlivea|done|by eapply get_next_live|].
  rewrite H1. simpl.
  destruct (add_warmup_spec _ _ _ H1)
    as (Hn1 & Hp1 & Hd1 & Hz1 & Hi1 & Hm1).
  assert (∀ r, live c1 r ↔ live ca r) as Hlive1.
  { intros r. by apply same_data_live. }
  assert (linked c1 (λ p, p = n)) as Hl1 by by eapply linked_same_links.
  assert (inlet c1 ≠ n ∧ live c1 (inlet c1)) as [Hin1 Hli1].
  { destruct Hi1 as [->|[Hi1 ?]].
    - split; [congruence|]. apply Hlive1, Hlivea. congruence.
    - split; [congruence|]. by apply Hlive1. }
  destruct (Hl1 (inlet c1)) as (_ & ap & _ & Hap & _ & _ & _ & Hapn);
    [done..|].
  set (c2 := set_cache_size c1 (cache_size c1 + 1)).
  assert (∀ r, deref c2 r = deref c1 r) as Hd2 by by apply deref_same.
  destruct (insert_before_total c2 (inlet c1) n ap) as [c3 H3].
  - unfold get_prev. by rewrite Hd2.
  - unfold live. rewrite Hd2. apply Hlive1. by apply Hlivea.
  - unfold live. rewrite Hd2. by eapply get_next_live.
  - rewrite H3. simpl. by eauto.
Qed.

(** ** The facade *)

Lemma values_size (m m' : gmap K (LruNode K V)) :
  (∀ k, value <$> m' !! k = value <$> m !! k) → size m' = size m.
Proof.
  intros Hv. rewrite <-(map_size_fmap value m'), <-(map_size_fmap value m).
  f_equal. apply map_eq. intros k. by rewrite !lookup_fmap.
Qed.

Lemma fetch_hit c key n0 :
  wf c → map c !! key = Some n0 →
  ∃ c', fetch V_of_K c key = Some (value n0, c', []) ∧
        wf c' ∧ same_data c c' ∧ cache_size c' = cache_size c.
Proof.
  intros Hwf Hkey. unfold fetch. rewrite Hkey.
  destruct (use_total c (Node key)) as [c' Hu];
    [done|by (unfold live; simpl; rewrite Hkey; eauto)|done|].
  destruct (use_spec _ _ _ Hwf (λ E, eq_ind (Node key)
    (λ p, match p with Dummy => False | Node _ => True end) I _ E) Hu)
    as (Hwf' & Hd & Hz).
  rewrite Hu. simpl. pose proof Hd as (_&_&_&_&_&Hv).
  specialize (Hv key). rewrite Hkey in Hv.
  destruct (map c' !! key) as [n'|]; [|done].
  simplify_eq/=. exists c'. by rewrite Hv.
Qed.

(** The cache right after [map.insert], before [add_]. *)
Lemma inserted_ready c key v :
  wf c → map c !! key = None →
  let c0 := set_map c (<[key := fresh_node key v]> (map c)) in
  linked c0 (λ p, p = Node key) ∧
  get_state c0 (Node key) = Some DETACHED ∧
  live c0 (inlet c0) ∧ inlet c0 ≠ Node key ∧ live c0 (nomination c0).
Proof.
  intros (Hl & Hli & Hln) Hkey c0.
  assert (∀ r, live c r → r ≠ Node key ∧ live c0 r) as Hlive.
  { intros r [b Hb]. assert (r ≠ Node key) as Hr.
    { intros ->. simpl in Hb. by rewrite Hkey in Hb. }
    split; [done|]. exists b. destruct r as [|k]; simpl in *; [done|].
    rewrite lookup_insert_ne; [done|congruence]. }
  split_and!.
  - eapply linked_iff; [|by apply fresh_linked]. simpl. intuition.
  - unfold get_state. simpl. by rewrite lookup_insert_eq.
  - by apply Hlive.
  - by apply Hlive.
  - by apply Hlive.
Qed.

Lemma fetch_miss c key v c' ev :
  wf c → map c !! key = None →
  fetch V_of_K c key = Some (v, c', ev) →
  let v0 := match on_create c with Some f => f key | None => V_of_K key end in
  let ev0 := match on_create c with
             | Some _ => [Created key] | None => [] end in
  v = v0 ∧ value <$> map c' !! key = Some v0 ∧
  wf c' ∧
  cache_limit c' = cache_limit c ∧
  nominated_limit c' = nominated_limit c ∧
  added_limit c' = added_limit c ∧
  on_create c' = on_create c ∧
  on_evict c' = on_evict c ∧
  ((cache_size c < cache_limit c ∧ ev = ev0 ∧
    cache_size c' = cache_size c + 1 ∧
    ∀ k, value <$> map c' !! k =
         if decide (k = key) then Some v0 else value <$> map c !! k) ∨
   (cache_size c >= cache_limit c ∧
    ∃ kr nr,
      next (dummy c) = Node kr ∧ kr ≠ key ∧ map c !! kr = Some nr ∧
      ev = ev0 ++ Erased kr ::
             (if on_evict c then [Evicted kr (value nr)] else []) ∧
      cache_size c' = cache_size c ∧
      ∀ k, value <$> map c' !! k =
           if decide (k = kr) then None
           else if decide (k = key) then Some v0
           else value <$> map c !! k)).
Proof.
  intros Hwf Hkey Hf v0 ev0. unfold fetch in Hf. rewrite Hkey in Hf.
  assert ((match on_create c with
           | Some f => (f key, [Created key])
           | None => (V_of_K key, [])
           end) = (v0, ev0)) as Hve.
  { unfold v0, ev0. by destruct (on_create c). }
  rewrite Hve in Hf. clear Hve.
  destruct (inserted_ready c key v0 Hwf Hkey) as (Hl0 & Hst & Hli & Hin & Hlm).
  destruct (add_ _ _) as [[c1 ev1]|] eqn:Ha; [|done]. simpl in Hf.
  destruct (map c1 !! key) as [n1|] eqn:Hn1; [|done]. simpl in Hf.
  simplify_eq.
  destruct (add_spec _ _ _ _ Hl0 (λ E, eq_ind (Node key)
    (λ p, match p with Dummy => False | Node _ => True end) I _ E)
    Hst Hli Hin Hlm Ha) as (Hwf' & ? & ? & ? & ? & ? & Hcase).
  simpl in *.
  assert (value n1 = v0 ∧
    ((cache_size c < cache_limit c ∧ ev1 = [] ∧
      cache_size c' = cache_size c + 1 ∧
      ∀ k, value <$> map c' !! k =
           if decide (k = key) then Some v0 else value <$> map c !! k) ∨
     (cache_size c >= cache_limit c ∧
      ∃ kr nr,
        next (dummy c) = Node kr ∧ kr ≠ key ∧ map c !! kr = Some nr ∧
        ev1 = Erased kr ::
               (if on_evict c then [Evicted kr (value nr)] else []) ∧
        cache_size c' = cache_size c ∧
        ∀ k, value <$> map c' !! k =
             if decide (k = kr) then None
             else if decide (k = key) then Some v0
             else value <$> map c !! k))) as [Hv Hcase'].
  { destruct Hcase as [(? & ? & ? & Hv)|(? & kr & nr & ? & ? & Hnr & ? & ? & Hv)].
    - assert (∀ k, value <$> map c' !! k =
           if decide (k = key) then Some v0 else value <$> map c !! k) as Hv'.
      { intros k. rewrite Hv. case_decide; subst.
        - by rewrite lookup_insert_eq.
        - by rewrite lookup_insert_ne. }
      split; [|by left].
      specialize (Hv' key). rewrite Hn1, decide_True in Hv' by done.
      by simplify_eq/=.
    - assert (kr ≠ key) as Hne by congruence.
      rewrite lookup_insert_ne in Hnr by done.
      assert (∀ k, value <$> map c' !! k =
           if decide (k = kr) then None
           else if decide (k = key) then Some v0
           else value <$> map c !! k) as Hv'.
      { intros k. rewrite Hv. case_decide; subst.
        - by rewrite lookup_delete_eq.
        - rewrite lookup_delete_ne by done. case_decide; subst.
          + by rewrite lookup_insert_eq.
          + by rewrite lookup_insert_ne. }
      split; [|right; split; [done|]; by exists kr, nr].
      specialize (Hv' key). rewrite Hn1 in Hv'.
      rewrite decide_False, decide_True in Hv' by done.
      by simplify_eq/=. }
  split_and!; try done.
  - by rewrite Hn1, <-Hv.
  - destruct Hcase' as [(? & -> & ? & ?)|(? & kr & nr & ? & ? & ? & -> & ? & ?)].
    + left. by rewrite app_nil_r.
    + right. split; [done|]. by exists kr, nr.
Qed.

Lemma fetch_miss_total c key :
  wf c → map c !! key = None → cache_size c < cache_limit c →
  is_Some (fetch V_of_K c key).
Proof.
  intros Hwf Hkey Hroom. unfold fetch. rewrite Hkey.
  destruct (match on_create c with
            | Some f => (f key, [Created key])
            | None => (V_of_K key, [])
            end) as [v0 ev0].
  destruct (inserted_ready c key v0 Hwf Hkey) as (Hl0 & Hst & Hli & Hin & Hlm).
  assert (Node key ≠ Dummy) as Hnd by done.
  destruct (add_total _ _ Hl0 Hnd Hst Hli Hin Hroom) as [[c1 ev1] Ha].
  rewrite Ha. simpl.
  destruct (add_spec _ _ _ _ Hl0 Hnd Hst Hli Hin Hlm Ha)
    as (_ & _ & _ & _ & _ & _ & [(_ & _ & _ & Hv)|(Hfull & _)]);
    [|simpl in Hfull; lia].
  specialize (Hv key). simpl in Hv. rewrite lookup_insert_eq in Hv.
  destruct (map c1 !! key); [by eauto|done].
Qed.

(** ** Reachable caches *)

Lemma new_wf size create evict nominated_size added_size c :
  LruCache_new size create evict nominated_size added_size = Some c →
  wf c ∧ map c = ∅ ∧ cache_size c = 0 ∧
  0 < nominated_limit c < added_limit c ∧ added_limit c < cache_limit c.
Proof.
  unfold LruCache_new. intros Hnew. case_decide as Hlim; [|done].
  simplify_eq. split; [|simpl; split_and!; try done; lia].
  split; [|split; by eexists].
  intros p _ [b Hb]. destruct p as [|k]; simpl in Hb; [|done].
  exists Dummy, Dummy. split_and!; try done; tauto.
Qed.

Lemma reachable_inv c :
  reachable V_of_K c →
  wf c ∧ Z.of_nat (size (map c)) = cache_size c ∧
  cache_size c <= cache_limit c.
Proof.
  induction 1 as [size create evict ns ads c Hnew|c key v c' ev _ IH Hf].
  - destruct (new_wf _ _ _ _ _ _ Hnew) as (Hwf & -> & -> & ? & ?).
    split; [done|]. rewrite map_size_empty. lia.
  - destruct IH as (Hwf & Hsz & Hle).
    destruct (map c !! key) as [n0|] eqn:Hkey.
    + destruct (fetch_hit c key n0 Hwf Hkey) as (c'' & Hf' & Hwf' & Hd & Hz).
      rewrite Hf in Hf'. simplify_eq. split; [done|].
      destruct Hd as (Hlim & _ & _ & _ & _ & Hv).
      rewrite (values_size _ _ Hv). lia.
    + destruct (fetch_miss c key v c' ev Hwf Hkey Hf)
        as (Hv0 & _ & Hwf' & Hlim & _ & _ & _ & _ & Hcase).
      simpl in Hv0, Hcase. rewrite <-Hv0 in Hcase.
      split; [done|].
      destruct Hcase as [(? & _ & ? & Hv)|(? & kr & nr & _ & ? & Hnr & _ & ? & Hv)].
      * assert (size (map c') = S (size (map c))) as ->; [|lia].
        rewrite <-(map_size_insert_None key (fresh_node key v) (map c))
          by done.
        apply values_size. intros k. rewrite Hv. case_decide; subst.
        -- by rewrite lookup_insert_eq.
        -- by rewrite lookup_insert_ne.
      * assert (size (map c') = size (map c)) as ->; [|lia].
        rewrite (values_size (<[key:=fresh_node key v]> (delete kr (map c)))
                   (map c')).
        -- rewrite map_size_insert_None by (by rewrite lookup_delete_ne).
           rewrite map_size_delete_Some by done.
           assert (size (map c) ≠ 0%nat); [|lia].
           apply map_size_ne_0_lookup_2 with kr. by eauto.
        -- intros k. rewrite Hv.
           destruct (decide (k = kr)) as [->|].
           ++ rewrite lookup_insert_ne by done. by rewrite lookup_delete_eq.
           ++ case_decide; subst.
              ** by rewrite lookup_insert_eq.
              ** rewrite lookup_insert_ne by done.
                 by rewrite lookup_delete_ne.
Qed.

Lemma fresh_zoned c key v l1 l2 l3 :
  zoned_by c (λ _, False) l1 l2 l3 → map c !! key = None →
  zoned_by (set_map c (<[key := fresh_node key v]> (map c)))
           (λ p, p = Node key) l1 l2 l3.
Proof.
  intros (Hring & Hnom & Hin & HR & HA & Hd & Hle & Hgt & Hcfg) Hkey.
  set (c0 := set_map c (<[key := fresh_node key v]> (map c))).
  assert (∀ r, r ≠ Node key → get_state c0 r = get_state c r) as Hs.
  { intros [|k'] Hr; unfold get_state; simpl; [done|].
    rewrite lookup_insert_ne; [done|congruence]. }
  assert (∀ p, p ∈ l1 ++ l2 ++ l3 → p ≠ Node key) as Hne.
  { intros p Hp ->. destruct (ring_elem _ _ _ _ Hring Hp) as (_ & [b Hb] & _).
    simpl in Hb. by rewrite Hkey in Hb. }
  split_and!; try done.
  - eapply ring_iff; [|by apply ring_fresh]. simpl. intuition.
  - intros p Hp. rewrite Hs; [by apply HR|]. apply Hne. set_solver.
  - intros p Hp. rewrite Hs; [by apply HA|]. apply Hne. set_solver.
Qed.

Lemma new_zoned size create evict nominated_size added_size c :
  LruCache_new size create evict nominated_size added_size = Some c →
  zoned c.
Proof.
  unfold LruCache_new. intros Hnew. case_decide as Hlim; [|done].
  simplify_eq. exists [], [], []. split_and!.
  - split_and!.
    + apply NoDup_singleton.
    + intros p. rewrite list_elem_of_singleton. split.
      * intros ->. split; [by eexists|tauto].
      * intros [[b Hb] _]. by destruct p.
    + by intros p ->%list_elem_of_singleton.
  - done.
  - done.
  - intros p Hp. by apply elem_of_nil in Hp.
  - intros p Hp. by apply elem_of_nil in Hp.
  - done.
  - done.
  - simpl. intros ?. lia.
  - simpl. lia.
Qed.

Lemma reachable_zoned c : reachable V_of_K c → zoned c.
Proof.
  induction 1 as [size create evict ns ads c Hnew|c key v c' ev Hr IH Hf].
  - by eapply new_zoned.
  - destruct (reachable_inv c Hr) as (Hwf & _).
    assert (Node key ≠ Dummy) as Hnd by done.
    unfold fetch in Hf. destruct (map c !! key) as [n0|] eqn:Hkey.
    + destruct (use_ c (Node key)) as [c1|] eqn:Hu; [|done]. simpl in Hf.
      destruct (map c1 !! key); [|done]. simplify_eq/=.
      destruct Hwf as (Hl & _). by eapply use_zoned.
    + destruct (match on_create c with
                | Some f => (f key, [Created key])
                | None => (V_of_K key, [])
                end) as [v0 ev0].
      destruct (add_ _ _) as [[c1 ev1]|] eqn:Ha; [|done]. simpl in Hf.
      destruct (map c1 !! key); [|done]. simplify_eq/=.
      destruct IH as (l1 & l2 & l3 & Hzb).
      destruct (inserted_ready c key v0 Hwf Hkey) as (Hl0 & Hst & _).
      eapply add_zoned; [exact Hl0|by apply fresh_zoned|done..].
Qed.

(** In a reachable cache the node at [inlet] is never [NOMINATED]. *)
Lemma reachable_inlet c :
  reachable V_of_K c → get_state c (inlet c) ≠ Some NOMINATED.
Proof.
  intros (l1 & l2 & l3 & Hzb)%reachable_zoned.
  destruct Hzb as (_ & _ & Hin & HR & _ & Hd & _). rewrite Hin.
  destruct l3 as [|z t]; simpl; [congruence|].
  rewrite HR by by left. done.
Qed.

Lemma run_reachable c keys c' out :
  reachable V_of_K c → run V_of_K c keys = Some (c', out) →
  reachable V_of_K c'.
Proof.
  revert c out. induction keys as [|key keys IH]; intros c out Hr Hrun.
  - by simplify_eq/=.
  - simpl in Hrun.
    destruct (fetch V_of_K c key) as [[[v c1] ev]|] eqn:Hf; [|done].
    simpl in Hrun.
    destruct (run V_of_K c1 keys) as [[c2 out']|] eqn:Hrun'; [|done].
    simplify_eq/=. eapply IH; [|done]. by eapply reach_fetch.
Qed.

(** ** The specification, claim by claim *)

(** The count of entries, for the calls that return.  In every reachable
    cache the number of tracked entries (the size of the map, which
    [cache_size] counts) is at most [cache_limit]; and a call for a
    missing key made while that number equals [cache_limit], when it
    returns, has erased exactly one entry and left the number at
    [cache_limit]. *)
Theorem count_within_capacity c :
  reachable V_of_K c →
  Z.of_nat (size (map c)) = cache_size c ∧
  Z.of_nat (size (map c)) <= cache_limit c ∧
  ∀ key v c' ev,
    map c !! key = None →
    Z.of_nat (size (map c)) = cache_limit c →
    fetch V_of_K c key = Some (v, c', ev) →
    length (erased ev) = 1%nat ∧
    Z.of_nat (size (map c')) = cache_limit c'.
Proof.
  intros Hr. destruct (reachable_inv c Hr) as (Hwf & Hsz & Hle).
  split; [done|]. split; [lia|]. intros key v c' ev Hkey Hfull Hf.
  destruct (reachable_inv c' (reach_fetch _ _ _ _ _ _ Hr Hf))
    as (_ & Hsz' & _).
  destruct (fetch_miss c key v c' ev Hwf Hkey Hf)
    as (_ & _ & _ & Hlim & _ & _ & _ & _ & Hcase).
  destruct Hcase as [(? & _)|(_ & kr & nr & _ & _ & _ & -> & Hz & _)];
    [lia|].
  split; [|lia]. unfold erased. rewrite omap_app. simpl.
  rewrite length_app. simpl.
  destruct (on_create c), (on_evict c); reflexivity.
Qed.

(** C7.  Promotion of a node whose state is [ADDED] or [REUSED] returns
    the cache as it was: every link, every state tag and both markers. *)
Theorem use_noop c k :
  get_state c (Node k) = Some ADDED ∨ get_state c (Node k) = Some REUSED →
  use_ c (Node k) = Some c.
Proof.
  intros Hst. unfold use_.
  destruct Hst as [-> | ->]; reflexivity.
Qed.

(** C8.  When a call for a missing key returns [v], the next call for the
    same key returns [v] again, with no event: nothing is erased and the
    factory is not called. *)
Theorem refetch_same_value c key v c1 ev1 :
  reachable V_of_K c → map c !! key = None →
  fetch V_of_K c key = Some (v, c1, ev1) →
  ∃ c2, fetch V_of_K c1 key = Some (v, c2, []).
Proof.
  intros Hr Hkey Hf. destruct (reachable_inv c Hr) as (Hwf & _).
  destruct (fetch_miss c key v c1 ev1 Hwf Hkey Hf)
    as (Hv & Hv1 & Hwf1 & _).
  simpl in Hv, Hv1. rewrite <-Hv in Hv1.
  destruct (map c1 !! key) as [n1|] eqn:Hn1; [|done]. simplify_eq/=.
  destruct (fetch_hit c1 key n1 Hwf1 Hn1) as (c2 & Hf2 & _).
  exists c2. by rewrite <-Hv1.
Qed.


(** C6, as the code has it.  A call for a missing key on a cache without
    factory stores and returns [V(key)], the value converted from the
    key. *)
Theorem missing_value_is_converted_key c key v c' ev :
  reachable V_of_K c → on_create c = None → map c !! key = None →
  fetch V_of_K c key = Some (v, c', ev) →
  v = V_of_K key ∧ value <$> map c' !! key = Some (V_of_K key).
Proof.
  intros Hr Hoc Hkey Hf. destruct (reachable_inv c Hr) as (Hwf & _).
  destruct (fetch_miss c key v c' ev Hwf Hkey Hf) as (Hv & Hv' & _).
  simpl in Hv, Hv'. by rewrite Hoc in Hv, Hv'.
Qed.

(** The boundary step of an insertion at capacity and the cascade of a
    promotion are the same transformation when the node at [nomination]
    is [ADDED] and the node at [inlet] is not [REUSED]. *)
Lemma cascades_agree c st :
  get_state c (nomination c) = Some ADDED →
  get_state c (inlet c) = Some st → st ≠ REUSED →
  use_cascade c = add_cascade c.
Proof.
  intros Hn Hi Hst. unfold use_cascade, add_cascade. rewrite Hn. simpl.
  destruct (set_state c (nomination c) NOMINATED) as [c1|] eqn:H1; [|done].
  simpl.
  destruct (set_state_spec _ _ _ _ H1)
    as (Hl1 & Hn1 & Hp1 & Hs1 & Hd1 & Hz1 & Hi1 & Hm1).
  destruct (get_next c1 (nomination c1)) as [nn|]; [|done]. simpl.
  assert (∀ r, deref (set_nomination c1 nn) r = deref c1 r) as Hd2
    by by apply deref_same.
  unfold get_state in *. rewrite Hd2, Hi1, Hs1.
  case_decide as Heq; simpl; [done|]. rewrite Hi. simpl.
  by rewrite decide_False.
Qed.

Lemma walk_head c fuel p s l :
  p ≠ Dummy → walk c fuel p Dummy = Some l → all_state s l = true →
  get_state c p = Some s.
Proof.
  intros Hp Hw Hl. destruct fuel as [|fuel]; simpl in Hw;
    (destruct (decide (p = Dummy)); [done|]); [done|].
  destruct p as [|k]; [done|].
  destruct (get_state c (Node k)) as [st|]; [|done]. simpl in Hw.
  destruct (get_next c (Node k)) as [nx|]; [|done]. simpl in Hw.
  destruct (walk c fuel nx Dummy) as [rest|]; [|done]. simplify_eq/=.
  apply andb_prop in Hl as [Hst _]. apply bool_decide_eq_true in Hst.
  simpl in Hst. by subst.
Qed.

(** In the layout the node at [inlet] is the sentinel or a [REUSED] node. *)
Lemma zones_ok_inlet c :
  zones_ok c = true →
  inlet c = Dummy ∨ get_state c (inlet c) = Some REUSED.
Proof.
  unfold zones_ok, zones. generalize (S (size (map c))). intros fuel Hz.
  destruct (walk c fuel (next (dummy c)) (nomination c)) as [zn|]; [|done].
  cbn [mbind option_bind] in Hz.
  destruct (walk c fuel (nomination c) (inlet c)) as [za|]; [|done].
  cbn [mbind option_bind] in Hz.
  destruct (walk c fuel (inlet c) Dummy) as [zr|] eqn:Hw; [|done].
  cbn [mbind option_bind] in Hz. apply andb_prop in Hz as [_ Hr].
  destruct (decide (inlet c = Dummy)) as [|Hne]; [by left|right].
  by eapply walk_head.
Qed.

(** C2, as the code has it.  In a reachable cache with the zone layout,
    promotion of a [NOMINATED] node returns, leaves the node next to the
    sentinel on the head side and [REUSED]; among the other nodes, the one
    at [nomination] becomes [NOMINATED] when it is [ADDED], and no other
    node becomes [NOMINATED]. *)
Theorem promotion_of_nominated c k :
  reachable V_of_K c → zones_ok c = true →
  get_state c (Node k) = Some NOMINATED →
  ∃ c',
    use_ c (Node k) = Some c' ∧
    prev (dummy c') = Node k ∧ get_next c' (Node k) = Some Dummy ∧
    get_state c' (Node k) = Some REUSED ∧
    ∀ m, m ≠ Node k →
      (get_state c' m = Some NOMINATED ↔
       get_state c m = Some NOMINATED ∨
       (m = nomination c ∧ get_state c m = Some ADDED)).
Proof.
  intros Hr Hz Hst. destruct (reachable_inv c Hr) as (Hwf & _).
  assert (Node k ≠ Dummy) as Hnd by done.
  destruct (use_total c (Node k) Hwf) as [c' Hu];
    [by eapply get_state_live|done|].
  exists c'. split; [done|]. unfold use_ in Hu. rewrite Hst in Hu.
  simpl in Hu.
  destruct (use_move c (Node k)) as [c3|] eqn:H3; [|done]. simpl in Hu.
  destruct Hwf as (Hl & _).
  destruct (use_move_spec _ _ _ Hl Hnd H3)
    as (Hl3 & (Hd3 & Hz3 & Hi3 & Hm3) & Hpd & Hnx & Hs3).
  destruct (use_cascade_spec _ _ Hu)
    as (Hn & Hp & Hd & Hz' & Hi & Hm & HN & Hfr).
  assert (inlet c ≠ Node k) as Hik.
  { destruct (zones_ok_inlet c Hz) as [?|?]; congruence. }
  split_and!.
  - specialize (Hp Dummy). rewrite Hpd in Hp. unfold get_prev in Hp.
    simpl in Hp. congruence.
  - by rewrite Hn.
  - rewrite Hfr; rewrite ?Hs3, ?decide_True by done; congruence.
  - intros m Hm'. rewrite HN, !Hs3, Hm3. rewrite decide_False by done.
    done.
Qed.

(** ** Further properties of the cache *)

(** X1.  With the default limits ([nominated_size] and [added_size] left
    0) the three assertions of the constructor hold exactly for sizes of 4
    and more. *)
Theorem default_limits_need_four (size : Z) (create : option (K → V))
    (evict : bool) :
  is_Some (LruCache_new size create evict 0 0) ↔ 4 <= size.
Proof.
  unfold LruCache_new. destruct (decide (0 = 0)) as [_|?]; [|done].
  assert (size ÷ 2 > 0 ∧ size ÷ 2 + size ÷ 4 > size ÷ 2 ∧
          size > size ÷ 2 + size ÷ 4 ↔ 4 <= size) as Hiff.
  { Z.to_euclidean_division_equations. lia. }
  case_decide as Hlim.
  - split; [intros _; by apply Hiff|by eauto].
  - split; [by intros [? ?]|]. intros Hs. by apply Hiff in Hs.
Qed.

(** X2.  In a reachable cache both markers point to live nodes, and on
    every live node (the sentinel included) [next] and [prev] lead to
    live nodes and undo each other. *)
Theorem reachable_well_linked c :
  reachable V_of_K c →
  live c (inlet c) ∧ live c (nomination c) ∧
  ∀ p, live c p →
    ∃ q r, get_next c p = Some q ∧ get_prev c p = Some r ∧
           get_prev c q = Some p ∧ get_next c r = Some p.
Proof.
  intros Hr. destruct (reachable_inv c Hr) as ((Hl & Hi & Hm) & _).
  split_and!; [done..|]. intros p Hp.
  destruct (Hl p (λ F, F) Hp) as (q & r & ? & ? & _ & _ & ? & ?).
  by exists q, r.
Qed.

(** X3.  In a reachable cache the nodes form one ring through the
    sentinel, each tracked node on it once, and the ring splits into three
    runs [l1 ++ l2 ++ l3], tail to head, with [nomination] at the head of
    [l2 ++ l3] and [inlet] at the head of [l3] (the sentinel when the run
    is empty): [l3] holds [REUSED] nodes only, [l2] holds no [NOMINATED]
    node, the sentinel stays [DETACHED]; [l2] and [l3] are empty while at
    most [nominated_limit] entries are counted, and [l2] is not empty
    beyond. *)
Theorem reachable_markers_in_order c :
  reachable V_of_K c →
  ∃ l1 l2 l3,
    ring c (λ _, False) (l1 ++ l2 ++ l3) ∧
    nomination c = hd Dummy (l2 ++ l3) ∧
    inlet c = hd Dummy l3 ∧
    (∀ p, p ∈ l3 → get_state c p = Some REUSED) ∧
    (∀ p, p ∈ l2 → get_state c p ≠ Some NOMINATED) ∧
    get_state c Dummy = Some DETACHED ∧
    (cache_size c <= nominated_limit c → l2 = [] ∧ l3 = []) ∧
    (cache_size c > nominated_limit c → l2 ≠ []).
Proof.
  intros (l1 & l2 & l3 & Hzb)%reachable_zoned. exists l1, l2, l3.
  destruct Hzb as (? & ? & ? & ? & ? & ? & ? & ? & _). done.
Qed.

(** X4.  In a reachable cache the sentinel is [DETACHED] and the node at
    [inlet] is the sentinel or a [REUSED] node; past [nominated_limit]
    entries [nomination] points to a node that is not [NOMINATED]. *)
Theorem reachable_marker_tags c :
  reachable V_of_K c →
  get_state c Dummy = Some DETACHED ∧
  (inlet c = Dummy ∨ get_state c (inlet c) = Some REUSED) ∧
  (cache_size c > nominated_limit c →
   nomination c ≠ Dummy ∧ live c (nomination c) ∧
   get_state c (nomination c) ≠ Some NOMINATED).
Proof.
  intros (l1 & l2 & l3 & Hzb)%reachable_zoned.
  destruct Hzb as (Hring & Hnom & Hin & HR & HA & Hd & _ & Hgt & _).
  split_and!; [done| |].
  - rewrite Hin. destruct l3 as [|z t]; simpl; [by left|right].
    apply HR. by left.
  - intros Hsz. specialize (Hgt Hsz). destruct l2 as [|y m]; [done|].
    simpl in Hnom. rewrite Hnom.
    destruct (ring_elem _ _ _ y Hring) as (? & ? & _).
    { apply elem_of_app. right. by left. }
    split_and!; [done..|]. apply HA. by left.
Qed.

Lemma use_nominated c k :
  reachable V_of_K c → get_state c (Node k) = Some NOMINATED →
  ∃ c', use_ c (Node k) = Some c' ∧
        get_state c' (Node k) = Some REUSED ∧
        prev (dummy c') = Node k ∧ get_next c' (Node k) = Some Dummy.
Proof.
  intros Hr Hst. destruct (reachable_inv c Hr) as (Hwf & _).
  assert (Node k ≠ Dummy) as Hnd by done.
  destruct (use_total c (Node k) Hwf) as [c' Hu];
    [by eapply get_state_live|done|].
  exists c'. split; [done|]. unfold use_ in Hu. rewrite Hst in Hu.
  simpl in Hu.
  destruct (use_move c (Node k)) as [c3|] eqn:H3; [|done]. simpl in Hu.
  destruct Hwf as (Hl & _).
  destruct (use_move_spec _ _ _ Hl Hnd H3)
    as (Hl3 & (Hd3 & Hz3 & Hi3 & Hm3) & Hpd & Hnx & Hs3).
  destruct (use_cascade_spec _ _ Hu)
    as (Hn & Hp & Hd & Hz' & Hi & Hm & HN & Hfr).
  assert (inlet c ≠ Node k) as Hik.
  { pose proof (reachable_inlet c Hr). congruence. }
  split_and!.
  - rewrite Hfr; rewrite ?Hs3, ?decide_True by done; congruence.
  - specialize (Hp Dummy). rewrite Hpd in Hp. unfold get_prev in Hp.
    simpl in Hp. congruence.
  - by rewrite Hn.
Qed.

(** X5.  In a reachable cache a call for a key whose node is [NOMINATED]
    returns the stored value with no event, and leaves the node [REUSED]
    and next to the sentinel on the head side. *)
Theorem hit_on_nominated_promotes c key :
  reachable V_of_K c → get_state c (Node key) = Some NOMINATED →
  ∃ v c',
    fetch V_of_K c key = Some (v, c', []) ∧
    value <$> map c !! key = Some v ∧
    get_state c' (Node key) = Some REUSED ∧
    prev (dummy c') = Node key ∧ get_next c' (Node key) = Some Dummy.
Proof.
  intros Hr Hst. destruct (reachable_inv c Hr) as (Hwf & _).
  destruct (use_nominated c key Hr Hst) as (c' & Hu & Hs' & Hp' & Hn').
  destruct (get_state_live _ _ _ Hst) as [b Hb]. simpl in Hb.
  destruct (map c !! key) as [n0|] eqn:Hkey; [|done].
  destruct (fetch_hit c key n0 Hwf Hkey) as (c'' & Hf & _).
  assert (c'' = c') as ->.
  { unfold fetch in Hf. rewrite Hkey, Hu in Hf. simpl in Hf.
    destruct (map c' !! key); by simplify_eq/=. }
  by exists (value n0), c'.
Qed.

(** X6.  In a reachable cache holding [cache_limit] entries, a returning
    call for a missing key erases exactly the entry of the node that
    follows the sentinel, calls the observer (when there is one) once,
    with that entry's key and value, and keeps every other entry. *)
Theorem miss_at_capacity_evicts_tail c key v c' ev :
  reachable V_of_K c → map c !! key = None →
  Z.of_nat (size (map c)) = cache_limit c →
  fetch V_of_K c key = Some (v, c', ev) →
  ∃ kr nr,
    next (dummy c) = Node kr ∧ map c !! kr = Some nr ∧
    erased ev = [kr] ∧
    observed ev = (if on_evict c then [(kr, value nr)] else []) ∧
    map c' !! kr = None ∧
    ∀ k, k ≠ kr → k ≠ key → value <$> map c' !! k = value <$> map c !! k.
Proof.
  intros Hr Hkey Hfull Hf. destruct (reachable_inv c Hr) as (Hwf & Hsz & _).
  destruct (fetch_miss c key v c' ev Hwf Hkey Hf)
    as (_ & _ & _ & _ & _ & _ & _ & _ & Hcase).
  destruct Hcase as [(? & _)|(_ & kr & nr & Hkr & Hne & Hnr & -> & _ & Hv)];
    [lia|].
  exists kr, nr. split_and!; [done|done| | | |].
  - unfold erased. rewrite omap_app. simpl.
    by destruct (on_create c), (on_evict c).
  - unfold observed. rewrite omap_app. simpl.
    by destruct (on_create c), (on_evict c).
  - specialize (Hv kr). rewrite decide_True in Hv by done.
    by destruct (map c' !! kr).
  - intros k Hk1 Hk2. rewrite Hv. by rewrite !decide_False.
Qed.

(** X7.  In a reachable cache a returning call for a missing key calls
    the factory exactly once, with the key, when there is one, and not at
    all otherwise; the value returned and stored is the factory's result,
    or [V(key)] without factory. *)
Theorem miss_value_and_factory c key v c' ev :
  reachable V_of_K c → map c !! key = None →
  fetch V_of_K c key = Some (v, c', ev) →
  value <$> map c' !! key = Some v ∧
  match on_create c with
  | Some f => v = f key ∧ created ev = [key]
  | None => v = V_of_K key ∧ created ev = []
  end.
Proof.
  intros Hr Hkey Hf. destruct (reachable_inv c Hr) as (Hwf & _).
  destruct (fetch_miss c key v c' ev Hwf Hkey Hf)
    as (Hv & Hv' & _ & _ & _ & _ & _ & _ & Hcase).
  simpl in Hv, Hv'. rewrite <-Hv in Hv'. split; [done|].
  assert (∀ kr (w : list (event K V)),
            created (Erased kr :: w) = created w) as Her by done.
  destruct (on_create c) as [f|]; (split; [done|]);
    destruct Hcase as [(_ & -> & _)|(_ & kr & nr & _ & _ & _ & -> & _)];
    simpl; try done; rewrite ?Her; by destruct (on_evict c).
Qed.

(** X8.  A returning call never changes the limits or the callbacks of a
    reachable cache, and the entry counter stays or grows by one. *)
Theorem fetch_keeps_configuration c key v c' ev :
  reachable V_of_K c → fetch V_of_K c key = Some (v, c', ev) →
  cache_limit c' = cache_limit c ∧
  nominated_limit c' = nominated_limit c ∧
  added_limit c' = added_limit c ∧
  on_create c' = on_create c ∧ on_evict c' = on_evict c ∧
  cache_size c <= cache_size c' <= cache_size c + 1.
Proof.
  intros Hr Hf. destruct (reachable_inv c Hr) as (Hwf & _).
  destruct (map c !! key) as [n0|] eqn:Hkey.
  - destruct (fetch_hit c key n0 Hwf Hkey)
      as (c'' & Hf' & _ & (? & ? & ? & ? & ? & _) & ?).
    rewrite Hf in Hf'. simplify_eq. split_and!; try done; lia.
  - destruct (fetch_miss c key v c' ev Hwf Hkey Hf)
      as (_ & _ & _ & ? & ? & ? & ? & ? & Hcase).
    split_and!; try done;
      destruct Hcase as [(_ & _ & ? & _)|(_ & kr & nr & _ & _ & _ & _ & ? & _)];
      lia.
Qed.

Lemma add_place c0 n c' ev :
  linked c0 (λ p, p = n) → n ≠ Dummy →
  get_state c0 n = Some DETACHED →
  live c0 (inlet c0) → inlet c0 ≠ n → nomination c0 ≠ n →
  nominated_limit c0 < cache_limit c0 →
  add_ c0 n = Some (c', ev) →
  get_prev c' (inlet c') = Some n ∧
  get_state c' n = Some (if decide (cache_size c0 < nominated_limit c0)
                         then NOMINATED else ADDED).
Proof.
  intros Hl Hn Hst Hli Hin Hnm Hcfg Ha. unfold add_ in Ha.
  rewrite Hst in Ha. simpl in Ha.
  destruct (decide (DETACHED ≠ DETACHED)); [done|].
  destruct (set_state c0 n ADDED) as [ca|] eqn:Hca; [|done]. simpl in Ha.
  destruct (set_state_spec _ _ _ _ Hca)
    as (Hlna & Hna & Hpa & Hsa & (Hcl & Hnl & _) & Hza & Hia & Hma).
  pose proof (set_state_linked _ _ _ _ _ Hca Hl) as Hla.
  assert (get_state ca n = Some ADDED) as Hna'.
  { rewrite Hsa. by rewrite decide_True. }
  destruct (decide (cache_size ca >= cache_limit ca)) as [Hfull|Hroom].
  - destruct (next (dummy ca)) as [|kr] eqn:Hkr; [done|].
    destruct (remove_ ca (Node kr)) as [c1|] eqn:H1; [|done]. simpl in Ha.
    destruct (map c1 !! kr) as [nr1|] eqn:Hnr1; [|done]. simpl in Ha.
    set (c2 := set_map c1 (delete kr (map c1))) in *.
    destruct (insert_before_ c2 (inlet c1) n) as [c3|] eqn:H3; [|done].
    simpl in Ha.
    destruct (add_cascade c3) as [c4|] eqn:H4; [|done]. simpl in Ha.
    injection Ha as <- _.
    destruct (remove_spec _ _ _ H1)
      as (nn & np & _ & _ & _ & _ & _ & _ & Hs1 & (Hd1 & Hz1 & Hi1 & Hm1)).
    destruct (insert_before_spec _ _ _ _ H3)
      as (ap & Hap & Hlx & _ & _ & Hp3 & Hs3 & (Hd3 & Hz3 & Hi3 & Hm3)).
    destruct (add_cascade_spec _ _ H4)
      as (_ & Hp4 & Hs4 & Hd4 & Hz4 & Hi4 & Hm4).
    assert (n ≠ Node kr) as Hnk.
    { intros ->. destruct Hlx as [b Hb]. simpl in Hb.
      by rewrite lookup_delete_eq in Hb. }
    simpl in *. split.
    + rewrite Hp4, Hi4, Hi3. simpl. rewrite Hp3. by rewrite decide_True.
    + rewrite Hs4. rewrite decide_False by congruence.
      rewrite Hs3. unfold c2. rewrite get_state_erase by done.
      rewrite Hs1, Hna'. rewrite decide_False; [done|lia].
  - destruct (add_warmup ca n) as [c1|] eqn:H1; [|done]. simpl in Ha.
    set (c2 := set_cache_size c1 (cache_size c1 + 1)) in *.
    destruct (insert_before_ c2 (inlet c1) n) as [c3|] eqn:H3; [|done].
    simpl in Ha. injection Ha as <- _.
    assert (∀ r, deref c2 r = deref c1 r) as Hd2 by by apply deref_same.
    destruct (insert_before_spec _ _ _ _ H3)
      as (ap & Hap & _ & _ & _ & Hp3 & Hs3 & (_ & _ & Hi3 & _)).
    simpl in Hi3. split.
    { rewrite Hi3, Hp3. by rewrite decide_True. }
    rewrite Hs3. replace (get_state c2 n) with (get_state c1 n)
      by (unfold get_state; by rewrite Hd2).
    unfold add_warmup in H1. rewrite Hza, Hnl in H1.
    destruct (decide (cache_size c0 < nominated_limit c0)) as [Hlt|Hge].
    { destruct (set_state_spec _ _ _ _ H1) as (_ & _ & _ & Hs1 & _).
      rewrite Hs1. by rewrite decide_True. }
    destruct (decide (cache_size c0 = nominated_limit c0)) as [Heq|Hne].
    { by simplify_eq. }
    destruct (get_prev ca (inlet ca)) as [ip|] eqn:Hip; [|done].
    simpl in H1.
    set (cb := if decide (nomination ca = ip)
               then set_nomination (set_inlet ca ip) n
               else set_inlet ca ip) in *.
    assert (∀ r, deref cb r = deref ca r) as Hdb.
    { unfold cb. case_decide; by apply deref_same. }
    assert (inlet cb = ip) as Hib by (unfold cb; by case_decide).
    rewrite Hib in H1.
    destruct (set_state_spec _ _ _ _ H1) as (_ & _ & _ & Hs1 & _).
    assert (ip ≠ n) as Hipn.
    { destruct (Hla (inlet ca)) as (_ & r & _ & Hr & _ & HPr & _);
        [congruence|apply (frame_live c0 ca);
                      [by apply (set_state_spec _ _ _ _ Hca)|congruence]|].
      congruence. }
    rewrite Hs1. rewrite decide_False by done.
    unfold get_state in *. by rewrite Hdb.
Qed.

(** X9.  After a returning call for a missing key on a reachable cache
    the new node sits immediately before [inlet]; it is [NOMINATED] when
    the call found fewer than [nominated_limit] entries counted, and
    [ADDED] otherwise. *)
Theorem new_entry_placement c key v c' ev :
  reachable V_of_K c → map c !! key = None →
  fetch V_of_K c key = Some (v, c', ev) →
  get_next c' (Node key) = Some (inlet c') ∧
  get_prev c' (inlet c') = Some (Node key) ∧
  get_state c' (Node key) =
    Some (if decide (cache_size c < nominated_limit c)
          then NOMINATED else ADDED).
Proof.
  intros Hr Hkey Hf. destruct (reachable_inv c Hr) as (Hwf & _).
  destruct (reachable_inv c' (reach_fetch _ _ _ _ _ _ Hr Hf))
    as ((Hl' & Hi' & _) & _).
  destruct (reachable_zoned c Hr)
    as (l1 & l2 & l3 & (_ & _ & _ & _ & _ & _ & _ & _ & Hcfg)).
  unfold fetch in Hf. rewrite Hkey in Hf.
  destruct (match on_create c with
            | Some f => (f key, [Created key])
            | None => (V_of_K key, [])
            end) as [v0 ev0].
  destruct (inserted_ready c key v0 Hwf Hkey) as (Hl0 & Hst & Hli & Hin & Hlm).
  destruct (add_ _ _) as [[c1 ev1]|] eqn:Ha; [|done]. simpl in Hf.
  destruct (map c1 !! key); [|done]. simplify_eq/=.
  assert (nomination c ≠ Node key) as Hnm.
  { destruct Hwf as (_ & _ & [b Hb]). intros Heq. rewrite Heq in Hb.
    simpl in Hb. by rewrite Hkey in Hb. }
  destruct (add_place _ _ _ _ Hl0 (λ E, eq_ind (Node key)
    (λ p, match p with Dummy => False | Node _ => True end) I _ E)
    Hst Hli Hin Hnm Hcfg Ha) as (Hp & Hs).
  split_and!; [|done..].
  destruct (Hl' (inlet c') (λ F, F) Hi') as (_ & r & _ & Hr' & _ & _ & _ & Hrn).
  congruence.
Qed.

#[local] Instance Node_inj : Inj (=) (=) (@Node K).
Proof. by intros ?? [= ->]. Qed.

Lemma ring_length c l : ring c (λ _, False) l → length l = size (map c).
Proof.
  intros Hr. destruct (ring_NoDup _ _ _ Hr) as [Hnd HD].
  destruct Hr as (_ & Hmem & _).
  transitivity (length (Node <$> (map_to_list (map c)).*1));
    [|by rewrite !length_fmap, length_map_to_list].
  apply Permutation_length, NoDup_Permutation; [done| |].
  { apply NoDup_fmap_2; [apply _|]. apply NoDup_fst_map_to_list. }
  intros x. split.
  - intros Hx. destruct (Hmem x) as [[[b Hb] _] _]; [by right|].
    destruct x as [|k]; [done|]. simpl in Hb.
    apply fmap_Some in Hb as (n & Hn & _).
    apply list_elem_of_fmap. exists k. split; [done|].
    apply list_elem_of_fmap. exists (k, n). split; [done|].
    by apply elem_of_map_to_list.
  - intros Hx. apply list_elem_of_fmap in Hx as (k & -> & Hk).
    apply list_elem_of_fmap in Hk as ([k' n] & -> & Hk).
    apply elem_of_map_to_list in Hk. destruct (Hmem (Node k')) as [_ Hin].
    apply elem_of_cons in Hin as [?|?]; [done|done|].
    split; [|tauto]. exists (base n). simpl. by rewrite Hk.
Qed.

(** What a walk of [check] collects when it follows a stretch [a] of the
    list up to the node after it. *)
Lemma walk_ring c P pre a post fuel :
  ring c P (pre ++ a ++ post) → (length a ≤ fuel)%nat →
  ∃ z, walk c fuel (hd Dummy (a ++ post)) (hd Dummy post) = Some z ∧
       Forall2 (λ p e, p = Node e.1 ∧ get_state c p = Some e.2) a z.
Proof.
  revert pre fuel. induction a as [|x a IH]; intros pre fuel Hr Hlen.
  - exists []. split; [|constructor]. simpl.
    destruct fuel; simpl; by rewrite decide_True.
  - simpl in Hlen. destruct fuel as [|fuel]; [lia|].
    destruct (ring_elem _ _ _ x Hr) as (HxD & Hlx & _); [set_solver|].
    destruct x as [|k]; [done|].
    assert (Node k ≠ hd Dummy post) as Hxt.
    { destruct (ring_NoDup _ _ _ Hr) as [Hnd HD].
      destruct post as [|t post]; simpl; [done|]. intros Heq.
      apply NoDup_app in Hnd as (_ & _ & Hnd). simpl in Hnd.
      apply NoDup_cons in Hnd as [Hnd _]. apply Hnd. rewrite Heq.
      set_solver. }
    pose proof (ring_next c P pre (Node k) (a ++ post) Hr) as Hnx.
    apply live_get_state in Hlx as [st Hst].
    destruct (IH (pre ++ [Node k]) fuel) as (z & Hz & HF);
      [by rewrite <-app_assoc|lia|].
    exists ((k, st) :: z). split; [|by constructor].
    change (hd Dummy ((Node k :: a) ++ post)) with (Node k : ptr K).
    simpl. rewrite decide_False by done. rewrite Hst, Hnx. simpl.
    by rewrite Hz.
Qed.

Lemma walked_keys c a (z : list (K * State)) :
  Forall2 (λ p e, p = Node e.1 ∧ get_state c p = Some e.2) a z →
  a = Node <$> z.*1 ∧ ∀ e, e ∈ z → get_state c (Node e.1) = Some e.2.
Proof.
  induction 1 as [|p e a z [-> Hs] _ [-> IH]]; [by split; [|set_solver]|].
  split; [done|]. intros e' [->|?]%elem_of_cons; [done|by apply IH].
Qed.

(** X10.  On a reachable cache the three walks of [check] all end, each
    at its marker; together they meet every tracked key exactly once,
    with its tag; the walk from [inlet] meets only [REUSED] nodes and
    the walk from [nomination] no [NOMINATED] node. *)
Theorem check_walk_covers_map c :
  reachable V_of_K c →
  ∃ zn za zr,
    zones c = Some (zn, za, zr) ∧
    NoDup (zn ++ za ++ zr).*1 ∧
    (∀ k, k ∈ (zn ++ za ++ zr).*1 ↔ is_Some (map c !! k)) ∧
    (∀ e, e ∈ zn ++ za ++ zr → get_state c (Node e.1) = Some e.2) ∧
    (∀ e, e ∈ za → e.2 ≠ NOMINATED) ∧
    all_state REUSED zr = true.
Proof.
  intros Hr. destruct (reachable_zoned c Hr)
    as (l1 & l2 & l3 & Hring & Hnom & Hin & H3 & H2 & _).
  pose proof (ring_length _ _ Hring) as Hlen. rewrite !length_app in Hlen.
  pose proof (ring_next_Dummy _ _ _ Hring) as Hnx.
  assert (next (dummy c) = hd Dummy (l1 ++ l2 ++ l3)) as Hhd.
  { unfold get_next in Hnx. simpl in Hnx. congruence. }
  destruct (walk_ring c _ [] l1 (l2 ++ l3) (S (size (map c))) Hring)
    as (zn & Hzn & Fn); [lia|].
  destruct (walk_ring c _ l1 l2 l3 (S (size (map c))) Hring)
    as (za & Hza & Fa); [lia|].
  destruct (walk_ring c (λ _, False) (l1 ++ l2) l3 [] (S (size (map c))))
    as (zr & Hzr & Fr); [by rewrite app_nil_r, <-app_assoc|lia|].
  rewrite app_nil_r in Hzr.
  change (hd Dummy []) with (Dummy : ptr K) in Hzr.
  exists zn, za, zr.
  destruct (walked_keys _ _ _ Fa) as [Ea Sa].
  destruct (walked_keys _ _ _ Fr) as [Er Sr].
  pose proof (Forall2_app Fn (Forall2_app Fa Fr)) as F.
  destruct (walked_keys _ _ _ F) as [E S].
  destruct (ring_NoDup _ _ _ Hring) as [Hnd HD].
  destruct Hring as (_ & Hmem & _).
  split_and!.
  - unfold zones. rewrite Hhd, Hnom, Hin, Hzn. cbn [mbind option_bind].
    rewrite Hza. cbn [mbind option_bind]. by rewrite Hzr.
  - rewrite E in Hnd. by apply NoDup_fmap_1 in Hnd.
  - intros k. rewrite <-(list_elem_of_fmap_inj Node), <-E. split.
    + intros Hk. destruct (Hmem (Node k)) as [[[b Hb] _] _]; [by right|].
      simpl in Hb. apply fmap_Some in Hb as (n & Hn & _). by exists n.
    + intros [n Hn]. destruct (Hmem (Node k)) as [_ Hk].
      apply elem_of_cons in Hk as [?|?]; [done|done|].
      split; [|tauto]. exists (base n). simpl. by rewrite Hn.
  - done.
  - intros e He Hs. apply (H2 (Node e.1)).
    + rewrite Ea. by apply list_elem_of_fmap_2, list_elem_of_fmap_2.
    + rewrite (Sa e He). by rewrite Hs.
  - apply forallb_forall. intros e He%list_elem_of_In.
    apply bool_decide_eq_true. specialize (Sr e He).
    rewrite H3 in Sr; [congruence|].
    rewrite Er. by apply list_elem_of_fmap_2, list_elem_of_fmap_2.
Qed.

(** ** Where a call leaves defined behaviour *)

Lemma set_state_dummy c n s c' :
  n ≠ Dummy → set_state c n s = Some c' → dummy c' = dummy c.
Proof.
  intros Hn Hs. destruct n as [|k]; [done|]. unfold set_state in Hs.
  simpl in Hs. destruct (map c !! k); by simplify_eq/=.
Qed.

Lemma add_full_fails c0 n :
  n ≠ Dummy → get_state c0 n = Some DETACHED →
  cache_size c0 >= cache_limit c0 →
  next (dummy c0) = inlet c0 ∨ next (dummy c0) = nomination c0 →
  add_ c0 n = None.
Proof.
  intros Hn Hst Hfull Htail. unfold add_. rewrite Hst. simpl.
  destruct (decide (DETACHED ≠ DETACHED)); [done|].
  destruct (set_state c0 n ADDED) as [ca|] eqn:Hca; [|done]. simpl.
  destruct (set_state_spec _ _ _ _ Hca)
    as (_ & _ & _ & _ & (Hcl & _) & Hza & Hia & Hma).
  pose proof (set_state_dummy _ _ _ _ Hn Hca) as Hda.
  rewrite decide_True by lia. rewrite Hda.
  destruct (next (dummy c0)) as [|kr] eqn:Hkr; [done|].
  destruct (remove_ ca (Node kr)) as [c1|] eqn:H1; [|done]. simpl.
  destruct (map c1 !! kr) as [nr1|] eqn:Hnr1; [|done]. simpl.
  set (c2 := set_map c1 (delete kr (map c1))).
  destruct (remove_spec _ _ _ H1)
    as (nn & np & _ & _ & _ & _ & _ & _ & _ & (_ & _ & Hi1 & Hm1)).
  assert (¬ live c2 (Node kr)) as Hdead.
  { intros [b Hb]. simpl in Hb. by rewrite lookup_delete_eq in Hb. }
  destruct (insert_before_ c2 (inlet c1) n) as [c3|] eqn:H3; [|done]. simpl.
  destruct (insert_before_spec _ _ _ _ H3)
    as (ap & Hap & _ & _ & _ & _ & _ & Hf3).
  destruct (add_cascade c3) as [c4|] eqn:H4; [|done]. exfalso.
  destruct Htail as [Heq|Heq].
  - apply Hdead. apply get_prev_live in Hap. congruence.
  - destruct (add_cascade_spec _ _ H4) as (_ & _ & _ & _ & _ & _ & Hnx).
    apply get_next_live in Hnx. apply (frame_live _ _ _ Hf3) in Hnx.
    destruct Hf3 as (_ & _ & _ & Hm3). simpl in Hm3. apply Hdead. congruence.
Qed.

Lemma add_full_total c0 n :
  linked c0 (λ p, p = n) → n ≠ Dummy →
  get_state c0 n = Some DETACHED →
  live c0 (inlet c0) → inlet c0 ≠ n →
  live c0 (nomination c0) → nomination c0 ≠ n →
  next (dummy c0) ≠ Dummy →
  next (dummy c0) ≠ inlet c0 → next (dummy c0) ≠ nomination c0 →
  cache_size c0 >= cache_limit c0 →
  is_Some (add_ c0 n).
Proof.
  intros Hl Hn Hst Hli Hin Hlm Hnm HtD Hti Htn Hfull.
  unfold add_. rewrite Hst. simpl.
  destruct (decide (DETACHED ≠ DETACHED)); [done|].
  destruct (set_state_total c0 n ADDED) as [ca Hca];
    [by eapply get_state_live|].
  rewrite Hca. simpl.
  destruct (set_state_spec _ _ _ _ Hca)
    as (Hlna & Hna & Hpa & Hsa & Hfa).
  pose proof (set_state_linked _ _ _ _ _ Hca Hl) as Hla.
  pose proof (set_state_dummy _ _ _ _ Hn Hca) as Hda.
  destruct Hfa as ((Hcl & _) & Hza & Hia & Hma).
  assert (∀ r, live ca r ↔ live c0 r) as Hlivea.
  { intros r. apply (frame_live c0 ca). by apply (set_state_spec _ _ _ _ Hca). }
  rewrite decide_True by lia. rewrite Hda.
  destruct (next (dummy c0)) as [|kr] eqn:Hkr; [done|].
  destruct (Hla Dummy) as (q & _ & Hq & _ & HPq & _ & Hqp & _);
    [done|by eexists|].
  assert (q = Node kr) as ->.
  { unfold get_next in Hq. simpl in Hq. congruence. }
  destruct (Hla (Node kr)) as (nn & np & Hnn & Hnp & _ & _ & Hnnp & Hnpn);
    [done|by eapply get_prev_live|].
  destruct (remove_total ca (Node kr) nn np) as [c1 H1];
    [done|done|by eapply get_prev_live|by eapply get_next_live|].
  rewrite H1. simpl.
  pose proof (remove_linked _ _ _ _ Hla HPq H1) as Hl1.
  destruct (remove_spec _ _ _ H1)
    as (? & ? & _ & _ & _ & _ & _ & _ & _ & Hf1).
  assert (∀ r, live c1 r ↔ live c0 r) as Hlive1.
  { intros r. rewrite (frame_live _ _ r Hf1). apply Hlivea. }
  destruct Hf1 as (_ & _ & Hi1 & Hm1).
  assert (is_Some (map c1 !! kr)) as [nr1 Hnr1].
  { assert (live c1 (Node kr)) as [b Hb].
    { apply Hlive1, Hlivea. by eapply get_prev_live. }
    simpl in Hb. apply fmap_Some in Hb as (nr & ? & _). by eexists. }
  rewrite Hnr1. simpl.
  set (c2 := set_map c1 (delete kr (map c1))).
  pose proof (erase_linked c1 kr _ Hl1 (or_intror eq_refl)) as Hl2.
  fold c2 in Hl2.
  assert (∀ r, r ≠ Node kr → live c0 r → live c2 r) as Hlive2.
  { intros r Hr Hlr. apply Hlive1 in Hlr. destruct Hlr as [b Hb].
    exists b. destruct r as [|k]; simpl in *; [done|].
    rewrite lookup_delete_ne; [done|congruence]. }
  destruct (Hl2 (inlet c1)) as (_ & ap & _ & Hap & _ & _ & _ & Hapn).
  { intros [[?|?] ?]; congruence. }
  { apply Hlive2; congruence. }
  destruct (insert_before_total c2 (inlet c1) n ap) as [c3 H3];
    [done| |by eapply get_next_live|].
  { apply Hlive2; [congruence|]. by eapply get_state_live. }
  change (inlet c2) with (inlet c1). rewrite H3. simpl.
  destruct (insert_before_spec _ _ _ _ H3)
    as (? & _ & _ & _ & _ & _ & _ & Hf3).
  assert (live c3 (nomination c3)) as Hl3.
  { apply (frame_live _ _ _ Hf3). destruct Hf3 as (_ & _ & _ & ->). simpl.
    rewrite Hm1, Hma. apply Hlive2; [congruence|done]. }
  unfold add_cascade.
  destruct (set_state_total c3 (nomination c3) NOMINATED) as [c4 H4]; [done|].
  rewrite H4. simpl.
  destruct (set_state_spec _ _ _ _ H4) as (_ & _ & _ & _ & Hf4).
  destruct (live_get_next c4 (nomination c4)) as [nx Hnx].
  { apply (frame_live _ _ _ Hf4). destruct Hf4 as (_ & _ & _ & ->). done. }
  rewrite Hnx. simpl. by eauto.
Qed.

Lemma zoned_full_tail c :
  zoned c → cache_size c >= cache_limit c →
  next (dummy c) ≠ Dummy ∧ next (dummy c) ≠ inlet c.
Proof.
  intros (l1 & l2 & l3 & Hring & Hnom & Hin & _ & _ & _ & _ & Hgt & Hcfg) Hfull.
  pose proof (ring_next_Dummy _ _ _ Hring) as Hnx.
  assert (next (dummy c) = hd Dummy (l1 ++ l2 ++ l3)) as ->.
  { unfold get_next in Hnx. simpl in Hnx. congruence. }
  destruct (ring_NoDup _ _ _ Hring) as [Hnd HD].
  destruct l2 as [|y l2]; [by destruct Hgt; [lia|]|]. clear Hgt.
  rewrite Hin. rewrite app_assoc in Hnd, HD |- *.
  destruct (l1 ++ y :: l2) as [|t u] eqn:Ht; [by destruct l1|].
  simpl. split; [set_solver|].
  destruct l3 as [|z l3]; simpl; [set_solver|].
  simpl in Hnd. apply NoDup_cons in Hnd as [Hnd _]. set_solver.
Qed.

(** X11.  On a reachable cache a call leaves defined behaviour (it
    reads a node that [map.erase] has destroyed) exactly when the key is
    missing, the cache is at capacity, and [nomination] points at the
    tail node, the one about to be evicted. *)
Theorem undefined_exactly_when_tail_is_nomination c key :
  reachable V_of_K c →
  fetch V_of_K c key = None ↔
  map c !! key = None ∧ cache_size c >= cache_limit c ∧
  next (dummy c) = nomination c.
Proof.
  intros Hr. destruct (reachable_inv c Hr) as (Hwf & _).
  pose proof (reachable_zoned c Hr) as Hz.
  assert (Node key ≠ Dummy) as Hnd by done.
  split.
  - intros Hf. destruct (map c !! key) as [n0|] eqn:Hkey.
    { destruct (fetch_hit c key n0 Hwf Hkey) as (? & ? & _). congruence. }
    split; [done|].
    destruct (decide (cache_size c < cache_limit c)) as [Hroom|Hfull].
    { destruct (fetch_miss_total c key Hwf Hkey Hroom). congruence. }
    split; [lia|].
    destruct (decide (next (dummy c) = nomination c)) as [|Htn]; [done|].
    exfalso. destruct (zoned_full_tail c Hz) as [HtD Hti]; [lia|].
    unfold fetch in Hf. rewrite Hkey in Hf.
    destruct (match on_create c with
              | Some f => (f key, [Created key])
              | None => (V_of_K key, [])
              end) as [v0 ev0].
    destruct (inserted_ready c key v0 Hwf Hkey)
      as (Hl0 & Hst & Hli & Hin & Hlm).
    assert (nomination c ≠ Node key) as Hnm.
    { destruct Hwf as (_ & _ & [b Hb]). intros Heq. rewrite Heq in Hb.
      simpl in Hb. by rewrite Hkey in Hb. }
    destruct (add_full_total _ _ Hl0 Hnd Hst Hli Hin Hlm Hnm HtD Hti Htn)
      as [[c1 ev1] Ha]; [simpl; lia|].
    rewrite Ha in Hf. simpl in Hf.
    destruct (add_spec _ _ _ _ Hl0 Hnd Hst Hli Hin Hlm Ha)
      as (_ & _ & _ & _ & _ & _ &
          [(Hroom & _)|(_ & kr & nr & _ & Hkr & _ & _ & _ & Hv)]);
      [simpl in Hroom; lia|].
    specialize (Hv key). simpl in Hv.
    rewrite lookup_delete_ne, lookup_insert_eq in Hv by congruence.
    by destruct (map c1 !! key).
  - intros (Hkey & Hfull & Htn). unfold fetch. rewrite Hkey.
    destruct (match on_create c with
              | Some f => (f key, [Created key])
              | None => (V_of_K key, [])
              end) as [v0 ev0].
    destruct (inserted_ready c key v0 Hwf Hkey) as (_ & Hst & _).
    rewrite add_full_fails; [done|done|done|done|by right].
Qed.

(** X12.  A call for a key right after a hit on the same key changes
    nothing: it returns the same value, with no event, and leaves the
    cache as the hit left it. *)
Theorem second_hit_changes_nothing c key v c' ev :
  reachable V_of_K c → is_Some (map c !! key) →
  fetch V_of_K c key = Some (v, c', ev) →
  fetch V_of_K c' key = Some (v, c', []).
Proof.
  intros Hr [n0 Hkey] Hf. unfold fetch in Hf. rewrite Hkey in Hf.
  destruct (use_ c (Node key)) as [c1|] eqn:Hu; [|done]. simpl in Hf.
  destruct (map c1 !! key) as [n1|] eqn:Hn1; [|done]. simplify_eq/=.
  assert (∃ st, get_state c' (Node key) = Some st ∧ st ≠ NOMINATED)
    as (st & Hst & Hne).
  { assert (live c (Node key)) as [st Hst]%live_get_state.
    { exists (base n0). simpl. by rewrite Hkey. }
    destruct (decide (st = NOMINATED)) as [->|Hne].
    - destruct (use_nominated c key Hr Hst) as (c2 & Hu2 & Hs2 & _).
      exists REUSED. split; [congruence|done].
    - unfold use_ in Hu. rewrite Hst in Hu. simpl in Hu.
      rewrite decide_True in Hu by done. simplify_eq. by exists st. }
  unfold fetch. rewrite Hn1. unfold use_. rewrite Hst. simpl.
  rewrite decide_True by done. simpl. by rewrite Hn1.
Qed.

Lemma cache_ext (c c' : cache) :
  frame c c' →
  (∀ r, get_next c' r = get_next c r) →
  (∀ r, get_prev c' r = get_prev c r) →
  (∀ r, get_state c' r = get_state c r) →
  c' = c.
Proof.
  intros ((Hcl & Hnl & Hal & Hoc & Hoe & Hv) & Hz & Hi & Hm) Hn Hp Hs.
  assert (∀ r, deref c' r = deref c r) as Hd.
  { intros r. specialize (Hn r). specialize (Hp r). specialize (Hs r).
    unfold get_next, get_prev, get_state in *.
    destruct (deref c' r) as [[]|], (deref c r) as [[]|]; by simplify_eq/=. }
  assert (map c' = map c) as Hmap.
  { apply map_eq. intros k. specialize (Hv k). specialize (Hd (Node k)).
    simpl in Hd.
    destruct (map c' !! k) as [[]|], (map c !! k) as [[]|]; by simplify_eq/=. }
  specialize (Hd Dummy). simpl in Hd.
  destruct c, c'. by simplify_eq/=.
Qed.

(** X13.  In a well-linked list, taking a node off with [remove_] and
    putting it back with [insert_before_] in front of the node that
    followed it restores the cache exactly; both steps stay within
    defined behaviour. *)
Theorem remove_then_insert_restores c x :
  linked c (λ _, False) → live c x →
  ∃ nn c1,
    get_next c x = Some nn ∧ remove_ c x = Some c1 ∧
    insert_before_ c1 nn x = Some c.
Proof.
  intros Hl Hlx.
  destruct (Hl x) as (nn & np & Hnn & Hnp & _ & _ & Hnnp & Hnpn);
    [tauto|done|].
  destruct (remove_total c x nn np) as [c1 H1];
    [done|done|by eapply get_prev_live|by eapply get_next_live|].
  destruct (remove_spec _ _ _ H1)
    as (nn' & np' & Hnn' & Hnp' & _ & _ & Hn1 & Hp1 & Hs1 & Hf1).
  assert (nn' = nn) as -> by congruence.
  assert (np' = np) as -> by congruence.
  assert (get_prev c1 nn = Some np) as Hap.
  { rewrite Hp1. by rewrite decide_True. }
  destruct (insert_before_total c1 nn x np) as [c2 H2]; [done| | |].
  { by apply (frame_live _ _ _ Hf1). }
  { apply (frame_live _ _ _ Hf1). by eapply get_next_live. }
  exists nn, c1. split_and!; [done..|]. rewrite H2. f_equal.
  destruct (insert_before_spec _ _ _ _ H2)
    as (ap & Hap' & _ & _ & Hn2 & Hp2 & Hs2 & Hf2).
  assert (ap = np) as -> by congruence.
  apply cache_ext.
  - by eapply frame_trans.
  - intros r. rewrite Hn2, Hn1. repeat case_decide; congruence.
  - intros r. rewrite Hp2, Hp1. repeat case_decide; congruence.
  - intros r. by rewrite Hs2, Hs1.
Qed.

Lemma add_full_tail c0 n c' ev kr y :
  linked c0 (λ p, p = n) → n ≠ Dummy →
  get_state c0 n = Some DETACHED → inlet c0 ≠ n →
  cache_size c0 >= cache_limit c0 →
  next (dummy c0) = Node kr → get_next c0 (Node kr) = Some y →
  y ≠ inlet c0 →
  add_ c0 n = Some (c', ev) → next (dummy c') = y.
Proof.
  intros Hl Hn Hst Hin Hfull Hkr Hy Hyi Ha. unfold add_ in Ha.
  rewrite Hst in Ha. simpl in Ha.
  destruct (decide (DETACHED ≠ DETACHED)); [done|].
  destruct (set_state c0 n ADDED) as [ca|] eqn:Hca; [|done]. simpl in Ha.
  destruct (set_state_spec _ _ _ _ Hca)
    as (_ & Hna & Hpa & _ & (Hcl & _) & Hza & Hia & Hma).
  pose proof (set_state_linked _ _ _ _ _ Hca Hl) as Hla.
  pose proof (set_state_dummy _ _ _ _ Hn Hca) as Hda.
  rewrite decide_True in Ha by lia. rewrite Hda, Hkr in Ha.
  destruct (remove_ ca (Node kr)) as [c1|] eqn:H1; [|done]. simpl in Ha.
  destruct (map c1 !! kr) as [nr1|] eqn:Hnr1; [|done]. simpl in Ha.
  set (c2 := set_map c1 (delete kr (map c1))) in *.
  destruct (insert_before_ c2 (inlet c1) n) as [c3|] eqn:H3; [|done].
  simpl in Ha.
  destruct (add_cascade c3) as [c4|] eqn:H4; [|done]. simpl in Ha.
  injection Ha as <- _.
  destruct (Hla Dummy) as (q & _ & Hq & _ & HPq & _ & Hqp & _);
    [done|by eexists|].
  assert (q = Node kr) as ->.
  { unfold get_next in Hq. simpl in Hq. congruence. }
  pose proof (remove_linked _ _ _ _ Hla HPq H1) as Hl1.
  destruct (remove_spec _ _ _ H1)
    as (nn & np & Hnn & Hnp & _ & _ & Hn1 & _ & _ & (_ & _ & Hi1 & _)).
  assert (nn = y) as -> by (rewrite Hna in Hnn; congruence).
  assert (np = Dummy) as -> by congruence.
  pose proof (erase_linked c1 kr _ Hl1 (or_intror eq_refl)) as Hl2.
  fold c2 in Hl2.
  destruct (insert_before_spec _ _ _ _ H3)
    as (ap & Hap & _ & _ & Hn3 & _).
  destruct (add_cascade_spec _ _ H4) as (Hn4 & _).
  assert (get_next c2 Dummy = Some y) as Hy2.
  { specialize (Hn1 Dummy). by rewrite decide_True in Hn1. }
  assert (ap ≠ Dummy) as Hapd.
  { intros ->.
    destruct (Hl2 (inlet c1)) as (_ & r & _ & Hr & _ & _ & _ & Hrn).
    - intros [[?|?] ?]; congruence.
    - by eapply get_prev_live.
    - assert (r = Dummy) as -> by congruence. congruence. }
  specialize (Hn4 Dummy). rewrite Hn3 in Hn4.
  rewrite !decide_False in Hn4 by done.
  unfold get_next in Hn4, Hy2. simpl in Hn4, Hy2. congruence.
Qed.

(** X14.  When a call for a missing key at capacity returns, the tail
    moves on to the node that followed the evicted one; it is a tracked
    node and not the one just inserted, which so outlives the next
    eviction. *)
Theorem eviction_advances_tail c key v c' ev :
  reachable V_of_K c → map c !! key = None →
  cache_size c >= cache_limit c →
  fetch V_of_K c key = Some (v, c', ev) →
  ∃ kr,
    next (dummy c) = Node kr ∧
    get_next c (Node kr) = Some (next (dummy c')) ∧
    next (dummy c') ≠ Node key ∧ next (dummy c') ≠ Dummy.
Proof.
  intros Hr Hkey Hfull Hf. destruct (reachable_inv c Hr) as (Hwf & _).
  destruct (reachable_zoned c Hr)
    as (l1 & l2 & l3 & Hring & Hnom & Hin & _ & _ & _ & _ & Hgt & Hcfg).
  assert (Node key ≠ Dummy) as Hnd by done.
  unfold fetch in Hf. rewrite Hkey in Hf.
  destruct (match on_create c with
            | Some f => (f key, [Created key])
            | None => (V_of_K key, [])
            end) as [v0 ev0].
  destruct (inserted_ready c key v0 Hwf Hkey) as (Hl0 & Hst & Hli & Hin0 & Hlm).
  destruct (add_ _ _) as [[c1 ev1]|] eqn:Ha; [|done]. simpl in Hf.
  destruct (map c1 !! key); [|done]. simplify_eq/=.
  pose proof (ring_next_Dummy _ _ _ Hring) as Hnx.
  assert (next (dummy c) = hd Dummy (l1 ++ l2 ++ l3)) as Hhd.
  { unfold get_next in Hnx. simpl in Hnx. congruence. }
  destruct l2 as [|y2 l2]; [by destruct Hgt; [lia|]|]. clear Hgt.
  destruct l1 as [|t l1].
  { rewrite add_full_fails in Ha; [done..|]. right. simpl.
    by rewrite Hhd, Hnom. }
  destruct (ring_elem _ _ _ t Hring) as (HtD & Hlt & _); [by left|].
  destruct t as [|kr]; [done|]. exists kr. split; [done|].
  pose proof (ring_next c _ [] (Node kr) _ Hring) as Hy.
  set (y := hd Dummy (l1 ++ (y2 :: l2) ++ l3)) in *.
  assert (y ∈ l1 ++ y2 :: l2) as Hyin.
  { unfold y. destruct l1; simpl; by left. }
  destruct (ring_elem _ _ _ y Hring) as (HyD & Hly & _); [set_solver|].
  assert (kr ≠ key) as Hkk.
  { intros ->. destruct Hlt as [b Hb]. simpl in Hb. by rewrite Hkey in Hb. }
  assert (y ≠ inlet c) as Hyi.
  { rewrite Hin. destruct (ring_NoDup _ _ _ Hring) as [Hndp _].
    simpl in Hndp. apply NoDup_cons in Hndp as [_ Hndp].
    change (l1 ++ y2 :: l2 ++ l3) with (l1 ++ (y2 :: l2) ++ l3) in Hndp.
    rewrite app_assoc in Hndp. apply NoDup_app in Hndp as (_ & Hdis & _).
    destruct l3 as [|z l3]; simpl; [done|]. intros Heq.
    apply (Hdis z); [by rewrite <-Heq|by left]. }
  assert (next (dummy c') = y) as ->.
  { apply (add_full_tail _ (Node key) c' ev1 kr y Hl0 Hnd Hst Hin0).
    - simpl. lia.
    - done.
    - unfold get_next. simpl. rewrite lookup_insert_ne by done. apply Hy.
    - done.
    - done. }
  split_and!; [done| |done]. intros Heq. destruct Hly as [b Hb].
  rewrite Heq in Hb. simpl in Hb. by rewrite Hkey in Hb.
Qed.

(** ** The layout of the comments, once established *)

Lemma fetch_returns c key :
  reachable V_of_K c → next (dummy c) ≠ nomination c →
  is_Some (fetch V_of_K c key).
Proof.
  intros Hr Htn. destruct (reachable_inv c Hr) as (Hwf & _).
  pose proof (reachable_zoned c Hr) as Hz.
  assert (Node key ≠ Dummy) as Hnd by done.
  destruct (map c !! key) as [n0|] eqn:Hkey.
  { destruct (fetch_hit c key n0 Hwf Hkey) as (? & -> & _). by eexists. }
  destruct (decide (cache_size c < cache_limit c)) as [Hroom|Hfull].
  { by apply fetch_miss_total. }
  destruct (zoned_full_tail c Hz) as [HtD Hti]; [lia|].
  unfold fetch. rewrite Hkey.
  destruct (match on_create c with
            | Some f => (f key, [Created key])
            | None => (V_of_K key, [])
            end) as [v0 ev0].
  destruct (inserted_ready c key v0 Hwf Hkey) as (Hl0 & Hst & Hli & Hin & Hlm).
  assert (nomination c ≠ Node key) as Hnm.
  { destruct Hwf as (_ & _ & [b Hb]). intros Heq. rewrite Heq in Hb.
    simpl in Hb. by rewrite Hkey in Hb. }
  destruct (add_full_total _ _ Hl0 Hnd Hst Hli Hin Hlm Hnm HtD Hti Htn)
    as [[c1 ev1] Ha]; [simpl; lia|].
  rewrite Ha. simpl.
  destruct (add_spec _ _ _ _ Hl0 Hnd Hst Hli Hin Hlm Ha)
    as (_ & _ & _ & _ & _ & _ &
        [(Hroom & _)|(_ & kr & nr & _ & Hkr & _ & _ & _ & Hv)]);
    [simpl in Hroom; lia|].
  specialize (Hv key). simpl in Hv.
  rewrite lookup_delete_ne, lookup_insert_eq in Hv by congruence.
  destruct (map c1 !! key); [by eexists|done].
Qed.

Lemma ring_zones c l1 l2 l3 :
  ring c (λ _, False) (l1 ++ l2 ++ l3) →
  nomination c = hd Dummy (l2 ++ l3) → inlet c = hd Dummy l3 →
  ∃ zn za zr,
    zones c = Some (zn, za, zr) ∧
    Forall2 (λ p e, p = Node e.1 ∧ get_state c p = Some e.2) l1 zn ∧
    Forall2 (λ p e, p = Node e.1 ∧ get_state c p = Some e.2) l2 za ∧
    Forall2 (λ p e, p = Node e.1 ∧ get_state c p = Some e.2) l3 zr.
Proof.
  intros Hring Hnom Hin.
  pose proof (ring_length _ _ Hring) as Hlen. rewrite !length_app in Hlen.
  pose proof (ring_next_Dummy _ _ _ Hring) as Hnx.
  assert (next (dummy c) = hd Dummy (l1 ++ l2 ++ l3)) as Hhd.
  { unfold get_next in Hnx. simpl in Hnx. congruence. }
  destruct (walk_ring c _ [] l1 (l2 ++ l3) (S (size (map c))) Hring)
    as (zn & Hzn & Fn); [lia|].
  destruct (walk_ring c _ l1 l2 l3 (S (size (map c))) Hring)
    as (za & Hza & Fa); [lia|].
  destruct (walk_ring c (λ _, False) (l1 ++ l2) l3 [] (S (size (map c))))
    as (zr & Hzr & Fr); [by rewrite app_nil_r, <-app_assoc|lia|].
  rewrite app_nil_r in Hzr.
  change (hd Dummy []) with (Dummy : ptr K) in Hzr.
  exists zn, za, zr. split; [|done].
  unfold zones. rewrite Hhd, Hnom, Hin, Hzn. cbn [mbind option_bind].
  rewrite Hza. cbn [mbind option_bind]. by rewrite Hzr.
Qed.

Lemma walked_all_state c l (z : list (K * State)) s :
  Forall2 (λ p e, p = Node e.1 ∧ get_state c p = Some e.2) l z →
  (∀ p, p ∈ l → get_state c p = Some s) ↔ all_state s z = true.
Proof.
  induction 1 as [|p e l z [-> Hs] _ IH]; simpl.
  - split; [done|]. intros _ p Hp. by apply elem_of_nil in Hp.
  - rewrite andb_true_iff, bool_decide_eq_true, <-IH. split.
    + intros Hall. split.
      * specialize (Hall (Node e.1)). rewrite Hs in Hall.
        assert (Some e.2 = Some s) by (apply Hall; by left). congruence.
      * intros q Hq. apply Hall. by right.
    + intros [He Hall] q [->|Hq]%elem_of_cons; [congruence|by apply Hall].
Qed.

Lemma reachable_laid c zn za zr :
  reachable V_of_K c →
  zones c = Some (zn, za, zr) → zones_ok c = true →
  zn ≠ [] → za ≠ [] → zr ≠ [] →
  ∃ l1 l2 l3,
    laid_by c (λ _, False) l1 l2 l3 ∧
    length l1 = length zn ∧ length l2 = length za ∧
    length l3 = length zr ∧ cache_size c > nominated_limit c.
Proof.
  intros Hr Hz Hok Hn1 Hn2 Hn3.
  destruct (reachable_zoned c Hr)
    as (l1 & l2 & l3 & Hring & Hnom & Hin & _ & _ & _ & Hle & _).
  destruct (ring_zones c l1 l2 l3 Hring Hnom Hin)
    as (zn' & za' & zr' & Hz' & F1 & F2 & F3).
  rewrite Hz in Hz'. injection Hz' as <- <- <-.
  unfold zones_ok in Hok. rewrite Hz in Hok.
  apply andb_prop in Hok as [Hok H3]. apply andb_prop in Hok as [H1 H2].
  exists l1, l2, l3.
  pose proof (Forall2_length _ _ _ F1) as E1.
  pose proof (Forall2_length _ _ _ F2) as E2.
  pose proof (Forall2_length _ _ _ F3) as E3.
  assert (∀ (a : list (ptr K)) (b : list (K * State)),
            length a = length b → b ≠ [] → a ≠ []) as Hnil.
  { intros a b E Hb ->. by destruct b. }
  split; [split; [exact Hring|]; split_and!; try done|].
  - by apply (proj2 (walked_all_state c l1 zn NOMINATED F1)).
  - by apply (proj2 (walked_all_state c l2 za ADDED F2)).
  - by apply (proj2 (walked_all_state c l3 zr REUSED F3)).
  - by eapply Hnil.
  - by eapply Hnil.
  - by eapply Hnil.
  - split_and!; [done..|].
    destruct (decide (cache_size c <= nominated_limit c)) as [Hsz|]; [|lia].
    destruct (Hle Hsz) as [-> _]. by destruct za.
Qed.

Lemma laid_zones c l1 l2 l3 :
  laid_by c (λ _, False) l1 l2 l3 →
  ∃ zn za zr,
    zones c = Some (zn, za, zr) ∧ zones_ok c = true ∧
    length zn = length l1 ∧ length za = length l2 ∧ length zr = length l3.
Proof.
  intros (Hring & Hnom & Hin & HN & HA & HR & _).
  destruct (ring_zones c l1 l2 l3 Hring Hnom Hin)
    as (zn & za & zr & Hz & F1 & F2 & F3).
  exists zn, za, zr. unfold zones_ok. rewrite Hz.
  apply (walked_all_state c l1 zn _ F1) in HN.
  apply (walked_all_state c l2 za _ F2) in HA.
  apply (walked_all_state c l3 zr _ F3) in HR.
  rewrite HN, HA, HR.
  by rewrite (Forall2_length _ _ _ F1), (Forall2_length _ _ _ F2),
    (Forall2_length _ _ _ F3).
Qed.

Lemma fresh_laid c key v l1 l2 l3 :
  laid_by c (λ _, False) l1 l2 l3 → map c !! key = None →
  laid_by (set_map c (<[key := fresh_node key v]> (map c)))
          (λ p, p = Node key) l1 l2 l3.
Proof.
  intros (Hring & Hnom & Hin & HN & HA & HR & Hne1 & Hne2 & Hne3) Hkey.
  set (c0 := set_map c (<[key := fresh_node key v]> (map c))).
  assert (∀ r, r ≠ Node key → get_state c0 r = get_state c r) as Hs.
  { intros [|k'] Hr; unfold get_state; simpl; [done|].
    rewrite lookup_insert_ne; [done|congruence]. }
  assert (∀ p, p ∈ l1 ++ l2 ++ l3 → p ≠ Node key) as Hne.
  { intros p Hp ->. destruct (ring_elem _ _ _ _ Hring Hp) as (_ & [b Hb] & _).
    simpl in Hb. by rewrite Hkey in Hb. }
  split_and!; try done.
  - eapply ring_iff; [|by apply ring_fresh]. simpl. intuition.
  - intros p Hp. rewrite Hs; [by apply HN|]. apply Hne. set_solver.
  - intros p Hp. rewrite Hs; [by apply HA|]. apply Hne. set_solver.
  - intros p Hp. rewrite Hs; [by apply HR|]. apply Hne. set_solver.
Qed.

Lemma NoDup_zones_ne (a b m t : list (ptr K)) x y z :
  NoDup ((a ++ x :: b) ++ (y :: m) ++ z :: t) →
  (y ≠ x ∧ z ≠ x ∧ z ≠ y) ∧
  (∀ p, p ∈ a ++ b → (p ≠ x ∧ p ≠ y ∧ p ≠ z) ∧ p ∈ a ++ x :: b) ∧
  (∀ p, p ∈ m → p ≠ x ∧ p ≠ y ∧ p ≠ z) ∧
  (∀ p, p ∈ t → p ≠ x ∧ p ≠ y ∧ p ≠ z).
Proof.
  intros (N1 & D & N2)%NoDup_app.
  apply NoDup_remove_mid in N1 as [_ Hx].
  apply NoDup_app in N2 as (Ny & D2 & Nz).
  apply NoDup_cons in Ny as [Hy _]. apply NoDup_cons in Nz as [Hz _].
  assert (x ∈ a ++ x :: b) as Hxl by (apply elem_of_app; right; by left).
  pose proof (D x Hxl) as Dx.
  assert (∀ p, p ∈ y :: m → p ≠ x) as Hym.
  { intros p Hp ->. apply Dx, elem_of_app. by left. }
  assert (∀ p, p ∈ z :: t → p ≠ x) as Hzt.
  { intros p Hp ->. apply Dx, elem_of_app. by right. }
  assert (∀ p, p ∈ y :: m → p ∉ z :: t) as D2' by done.
  split_and!.
  - apply Hym. by left.
  - apply Hzt. by left.
  - intros ->. apply (D2' y); by left.
  - intros p Hp.
    assert (p ∈ a ++ x :: b) as Hpl.
    { apply elem_of_app in Hp as [?|?]; apply elem_of_app;
        [by left|right; by right]. }
    split; [|done]. split_and!.
    + intros ->. by apply Hx.
    + intros ->. apply (D y Hpl), elem_of_app. left. by left.
    + intros ->. apply (D z Hpl), elem_of_app. right. by left.
  - intros p Hp. split_and!.
    + apply Hym. by right.
    + intros ->. by apply Hy.
    + intros ->. apply (D2' z); [by right|by left].
  - intros p Hp. split_and!.
    + apply Hzt. by right.
    + intros ->. apply (D2' y); [by left|by right].
    + intros ->. by apply Hz.
Qed.

Lemma use_laid c x c' l1 l2 l3 :
  linked c (λ _, False) → laid_by c (λ _, False) l1 l2 l3 → x ≠ Dummy →
  use_ c x = Some c' →
  ∃ l1' l2' l3',
    laid_by c' (λ _, False) l1' l2' l3' ∧
    length l1' = length l1 ∧ length l2' = length l2 ∧
    length l3' = length l3.
Proof.
  intros Hl Hlaid Hx Hu. unfold use_ in Hu.
  destruct (get_state c x) as [st|] eqn:Hst; [|done]. simpl in Hu.
  destruct (decide (st ≠ NOMINATED)) as [|Hn%dec_stable].
  { simplify_eq. by exists l1, l2, l3. }
  subst st. destruct (use_move c x) as [c3|] eqn:H3; [|done]. simpl in Hu.
  destruct (use_move_spec _ _ _ Hl Hx H3)
    as (Hl3 & (Hdat3 & Hsz & Hi3 & Hm3) & _ & _ & Hs3).
  destruct Hlaid as (Hring & Hnom & Hin & HN & HA & HR & Hne1 & Hne2 & Hne3).
  assert (x ∈ l1) as Hx1.
  { destruct Hring as (_ & Hmem & _).
    assert (x ∈ Dummy :: l1 ++ l2 ++ l3) as Hxl.
    { apply Hmem. split; [by eapply get_state_live|tauto]. }
    apply elem_of_cons in Hxl as [?|Hxl]; [done|].
    apply elem_of_app in Hxl as [?|Hxl]; [done|]. exfalso.
    apply elem_of_app in Hxl as [Hxl|Hxl].
    - rewrite (HA x Hxl) in Hst. done.
    - rewrite (HR x Hxl) in Hst. done. }
  apply list_elem_of_split in Hx1 as (a & b & ->).
  assert (ring c3 (λ _, False) ((a ++ b ++ l2 ++ l3) ++ [x])) as Hring3.
  { unfold use_move in H3.
    destruct (remove_ c x) as [c1|] eqn:H1; [|done]. simpl in H3.
    destruct (insert_before_ c1 Dummy x) as [c2|] eqn:H2; [|done].
    simpl in H3. rewrite <-app_assoc in Hring. simpl in Hring.
    pose proof (ring_remove _ _ _ _ _ _ Hring Hl H1) as Hr1.
    pose proof (remove_linked _ _ _ _ Hl (λ F, F) H1) as Hl1.
    rewrite <-(app_nil_r (a ++ b ++ l2 ++ l3)) in Hr1.
    pose proof (ring_insert _ _ _ [] x _ Hr1 Hl1 (or_intror eq_refl) H2)
      as Hr2.
    eapply ring_set_state; [done|]. eapply ring_iff; [|done].
    simpl. intuition. }
  destruct l2 as [|y m]; [done|]. destruct l3 as [|z t]; [done|].
  clear Hne1 Hne2 Hne3. simpl in Hnom, Hin.
  destruct (ring_NoDup _ _ _ Hring) as [Hnd Hdl].
  destruct (NoDup_zones_ne _ _ _ _ _ _ _ Hnd)
    as ((Hyx & Hzx & Hzy) & Hab & Hmm & Htt).
  assert (nomination c3 = y) as Hmy by congruence.
  assert (inlet c3 = z) as Hiz by congruence.
  assert (get_state c3 y = Some ADDED) as Hy3.
  { rewrite Hs3, decide_False by done. apply HA. by left. }
  assert (get_state c3 z = Some REUSED) as Hz3.
  { rewrite Hs3, decide_False by done. apply HR. by left. }
  destruct (use_cascade_cases _ _ Hu)
    as [[Hna _]|(_ & Hn & Hdat & Hz & Hnn & Hcase)].
  { exfalso. apply Hna. by rewrite Hmy. }
  destruct Hcase as [(_ & Hor & _)|(_ & _ & Hinn & Hs')].
  { exfalso. rewrite Hiz, Hmy in Hor. destruct Hor as [?|Hor]; [done|].
    by apply Hor. }
  rewrite Hmy in Hnn. rewrite Hiz in Hinn. rewrite Hiz, Hmy in Hs'.
  assert (∀ r, live c' r ↔ live c3 r) as Hlive.
  { intros r. by apply same_data_live. }
  pose proof (ring_same_links c3 c' _ _ Hn Hlive Hring3) as Hring'.
  assert (get_next c3 y = Some (hd Dummy (m ++ (z :: t) ++ [x]))) as Hny.
  { apply (ring_next c3 (λ _, False) (a ++ b)).
    eapply eq_rect; [exact Hring3|]. by simplify_list_eq. }
  assert (get_next c3 z = Some (hd Dummy (t ++ [x]))) as Hnz.
  { apply (ring_next c3 (λ _, False) (a ++ b ++ y :: m)).
    eapply eq_rect; [exact Hring3|]. by simplify_list_eq. }
  exists (a ++ b ++ [y]), (m ++ [z]), (t ++ [x]).
  split; [|rewrite !length_app; simpl; lia]. split_and!.
  - eapply eq_rect; [exact Hring'|]. by simplify_list_eq.
  - replace ((m ++ [z]) ++ t ++ [x]) with (m ++ (z :: t) ++ [x])
      by (by simplify_list_eq). congruence.
  - congruence.
  - intros p Hp. rewrite Hs'.
    rewrite app_assoc in Hp.
    apply elem_of_app in Hp as [Hp| ->%list_elem_of_singleton].
    + destruct (Hab p Hp) as ((? & ? & ?) & ?).
      rewrite !decide_False by done.
      rewrite Hs3, decide_False by done. by apply HN.
    + rewrite decide_False by done. by rewrite decide_True.
  - intros p [Hp| ->%list_elem_of_singleton]%elem_of_app.
    + destruct (Hmm p Hp) as (? & ? & ?).
      rewrite Hs'. rewrite !decide_False by done.
      rewrite Hs3, decide_False by done. apply HA. by right.
    + rewrite Hs'. by rewrite decide_True.
  - intros p [Hp| ->%list_elem_of_singleton]%elem_of_app.
    + destruct (Htt p Hp) as (? & ? & ?).
      rewrite Hs'. rewrite !decide_False by done.
      rewrite Hs3, decide_False by done. apply HR. by right.
    + rewrite Hs'. rewrite !decide_False by done.
      rewrite Hs3. by rewrite decide_True.
  - intros Hnil%(f_equal length). rewrite !length_app in Hnil.
    simpl in Hnil. lia.
  - intros Hnil%(f_equal length). rewrite !length_app in Hnil.
    simpl in Hnil. lia.
  - intros Hnil%(f_equal length). rewrite !length_app in Hnil.
    simpl in Hnil. lia.
Qed.

Lemma add_below c0 n c' ev l1 m z l3 :
  linked c0 (λ p, p = n) →
  ring c0 (λ p, p = n) (l1 ++ (m ++ [z]) ++ l3) →
  nomination c0 = hd Dummy ((m ++ [z]) ++ l3) → inlet c0 = hd Dummy l3 →
  n ≠ Dummy → get_state c0 n = Some DETACHED →
  cache_size c0 > nominated_limit c0 → cache_size c0 < cache_limit c0 →
  add_ c0 n = Some (c', ev) →
  ring c' (λ _, False) (l1 ++ (m ++ [n]) ++ z :: l3) ∧
  nomination c' = hd Dummy ((m ++ [n]) ++ z :: l3) ∧ inlet c' = z ∧
  cache_size c' = cache_size c0 + 1 ∧
  ∀ r, get_state c' r = if decide (r = z) then Some REUSED
                        else if decide (r = n) then Some ADDED
                        else get_state c0 r.
Proof.
  intros Hl Hring Hnom Hin Hn Hst Hgt Hroom0 Ha.
  unfold add_ in Ha. rewrite Hst in Ha. simpl in Ha.
  destruct (decide (DETACHED ≠ DETACHED)); [done|].
  destruct (set_state c0 n ADDED) as [ca|] eqn:Hca; [|done]. simpl in Ha.
  destruct (set_state_spec _ _ _ _ Hca)
    as (Hlna & Hna & Hpa & Hsa & (Hcl & Hnl & _) & Hza & Hia & Hma).
  pose proof (set_state_linked _ _ _ _ _ Hca Hl) as Hla.
  pose proof (ring_set_state _ _ _ _ _ _ Hca Hring) as Hringa.
  destruct (ring_NoDup _ _ _ Hring) as [Hnd Hdl].
  assert (∀ p, p ∈ l1 ++ (m ++ [z]) ++ l3 → p ≠ n ∧ p ≠ Dummy) as Hmem.
  { intros p Hp. destruct (ring_elem _ _ _ _ Hring Hp) as (? & _ & ?).
    done. }
  destruct (decide (cache_size ca >= cache_limit ca)) as [Hfull|Hroom];
    [lia|].
  destruct (add_warmup ca n) as [c1|] eqn:H1; [|done]. simpl in Ha.
  set (c2 := set_cache_size c1 (cache_size c1 + 1)) in *.
  destruct (insert_before_ c2 (inlet c1) n) as [c3|] eqn:H3; [|done].
  simpl in Ha. injection Ha as <- _.
  assert (∀ r, deref c2 r = deref c1 r) as Hd2 by by apply deref_same.
  destruct (insert_before_spec _ _ _ _ H3)
    as (ap & Hap & _ & _ & _ & _ & Hs3 & ((Hcl3 & Hnl3 & _) & Hz3 & Hi3 & Hm3)).
  assert (∀ r, get_state c3 r = get_state c1 r) as Hs31.
  { intros r. rewrite Hs3. unfold get_state. by rewrite Hd2. }
  assert (∀ p : ptr K, (p = n ∧ p ≠ n) ↔ False) as HPF by tauto.
  unfold add_warmup in H1.
  destruct (decide (cache_size ca < nominated_limit ca)) as [Hlt|Hge];
    [lia|].
  destruct (decide (cache_size ca = nominated_limit ca)) as [Heq|Hne];
    [lia|].
  destruct (get_prev ca (inlet ca)) as [ip|] eqn:Hip; [|done].
  simpl in H1.
  repeat (rewrite NoDup_app in Hnd || rewrite NoDup_cons in Hnd).
  assert (z ≠ n ∧ z ≠ Dummy) as [Hzn Hzd] by (apply Hmem; set_solver).
  assert (succ (Dummy :: l1 ++ (m ++ [z]) ++ l3) Dummy z = hd Dummy l3)
    as Hsz.
  { replace (Dummy :: l1 ++ (m ++ [z]) ++ l3)
      with ((Dummy :: l1 ++ m) ++ z :: l3) by (by simplify_list_eq).
    apply succ_app_cons. set_solver. }
  assert (ip = z) as ->.
  { pose proof (ring_prev ca _ _ z Hringa Hla) as Hpz.
    rewrite Hsz, <-Hin, <-Hia, Hip in Hpz.
    assert (Some ip = Some z); [|congruence]. apply Hpz. set_solver. }
  set (cb := if decide (nomination ca = z)
             then set_nomination (set_inlet ca z) n
             else set_inlet ca z) in *.
  assert (∀ r, deref cb r = deref ca r) as Hdb.
  { unfold cb. case_decide; by apply deref_same. }
  assert (inlet cb = z) as Hib by (unfold cb; by case_decide).
  assert (cache_size cb = cache_size ca) as Hzb.
  { unfold cb. by case_decide. }
  assert (nomination cb = hd Dummy ((m ++ [n]) ++ z :: l3)) as Hmb.
  { assert (nomination ca = hd Dummy ((m ++ [z]) ++ l3)) as Hma'
      by congruence.
    unfold cb. case_decide as Hc; simpl; rewrite Hma' in *.
    - destruct m as [|m0 m']; simpl in *; [done|]. set_solver.
    - destruct m as [|m0 m']; simpl in *; done. }
  rewrite Hib in H1.
  destruct (set_state_spec _ _ _ _ H1)
    as (_ & Hn1 & _ & Hs1 & (Hcl1 & Hnl1 & _) & Hz1 & Hi1 & Hm1).
  pose proof (ring_deref_same _ _ _ _ Hd2
                (ring_set_state _ _ _ _ _ _ H1
                   (ring_deref_same _ _ _ _ Hdb Hringa))) as Hr2.
  pose proof (linked_deref_same _ _ _ Hd2
                (set_state_linked _ _ _ _ _ H1
                   (linked_deref_same _ _ _ Hdb Hla))) as Hl2.
  assert (inlet c1 = hd Dummy (z :: l3)) as Hin1 by (simpl; congruence).
  rewrite Hin1 in H3.
  replace (l1 ++ (m ++ [z]) ++ l3) with ((l1 ++ m) ++ z :: l3) in Hr2
    by (by simplify_list_eq).
  pose proof (ring_insert c2 _ (l1 ++ m) (z :: l3) n c3 Hr2 Hl2
                eq_refl H3) as Hr3.
  apply (ring_iff _ _ _ _ HPF) in Hr3.
  simpl in Hi3, Hm3, Hz3, Hcl3, Hnl3.
  split_and!.
  - eapply eq_rect; [exact Hr3|]. by simplify_list_eq.
  - congruence.
  - congruence.
  - lia.
  - intros r. rewrite Hs31, Hs1. case_decide; [done|].
    unfold get_state in *. by rewrite Hdb, Hsa.
Qed.

Lemma add_laid c0 n c' ev l1 l2 l3 :
  linked c0 (λ p, p = n) → laid_by c0 (λ p, p = n) l1 l2 l3 →
  n ≠ Dummy → get_state c0 n = Some DETACHED →
  cache_size c0 > nominated_limit c0 →
  add_ c0 n = Some (c', ev) →
  ∃ l1' l2' l3',
    laid_by c' (λ _, False) l1' l2' l3' ∧
    length l1' = length l1 ∧ length l2' = length l2 ∧
    (length l3' = length l3 ∧ cache_size c' = cache_size c0 ∨
     length l3' = S (length l3) ∧ cache_size c' = cache_size c0 + 1).
Proof.
  intros Hl (Hring & Hnom & Hin & HN & HA & HR & Hne1 & Hne2 & Hne3)
    Hn Hst Hgt Ha.
  assert (∀ p, p ∈ l1 ++ l2 ++ l3 → p ≠ n ∧ p ≠ Dummy) as Hmem.
  { intros p Hp. destruct (ring_elem _ _ _ _ Hring Hp) as (? & _ & ?).
    done. }
  destruct (ring_NoDup _ _ _ Hring) as [Hnd Hdl].
  destruct (decide (cache_size c0 >= cache_limit c0)) as [Hfull0|Hroom0].
  - (* at capacity *)
    unfold add_ in Ha. rewrite Hst in Ha. simpl in Ha.
    destruct (decide (DETACHED ≠ DETACHED)); [done|].
    destruct (set_state c0 n ADDED) as [ca|] eqn:Hca; [|done]. simpl in Ha.
    destruct (set_state_spec _ _ _ _ Hca)
      as (Hlna & Hna & Hpa & Hsa & (Hcl & Hnl & _) & Hza & Hia & Hma).
    pose proof (set_state_linked _ _ _ _ _ Hca Hl) as Hla.
    pose proof (ring_set_state _ _ _ _ _ _ Hca Hring) as Hringa.
    destruct (decide (cache_size ca >= cache_limit ca)) as [Hfull|Hroom];
      [|lia].
    destruct l2 as [|y m]; [done|].
    pose proof (ring_next_Dummy _ _ _ Hringa) as Hnd0.
    unfold get_next in Hnd0. simpl in Hnd0.
    destruct (next (dummy ca)) as [|kr] eqn:Hkr; [done|].
    destruct (remove_ ca (Node kr)) as [c1|] eqn:H1; [|done]. simpl in Ha.
    destruct (map c1 !! kr) as [nr1|] eqn:Hnr1; [|done]. simpl in Ha.
    set (c2 := set_map c1 (delete kr (map c1))) in *.
    destruct (insert_before_ c2 (inlet c1) n) as [c3|] eqn:H3; [|done].
    simpl in Ha.
    destruct (add_cascade c3) as [c4|] eqn:H4; [|done]. simpl in Ha.
    injection Ha as <- _.
    destruct (remove_spec _ _ _ H1)
      as (nn & np & _ & _ & _ & _ & _ & _ & Hs1 & (Hd1 & Hz1 & Hi1 & Hm1)).
    destruct (insert_before_spec _ _ _ _ H3)
      as (ap & Hap & _ & _ & _ & _ & Hs3 & (Hd3 & Hz3 & Hi3 & Hm3)).
    destruct (add_cascade_spec _ _ H4)
      as (Hn4 & _ & Hs4 & Hd4 & Hz4 & Hi4 & Hm4).
    assert (nomination c3 = y) as Hnom3.
    { rewrite Hm3. simpl. by rewrite Hm1, Hma, Hnom. }
    destruct l1 as [|t1 l1']; [done|].
    simpl in Hnd0. assert (t1 = Node kr) as -> by congruence.
    assert (Node kr ≠ n) as Hkn by (apply Hmem; by left).
    pose proof (ring_remove ca _ [] (Node kr) (l1' ++ (y :: m) ++ l3) c1
                  Hringa Hla H1) as Hr1.
    pose proof (remove_linked _ _ _ _ Hla Hkn H1) as Hl1.
    pose proof (ring_erase c1 kr _ _ Hr1 (or_intror eq_refl)) as Hr2.
    pose proof (erase_linked c1 kr _ Hl1 (or_intror eq_refl)) as Hl2.
    fold c2 in Hr2, Hl2. simpl in Hr2.
    assert (inlet c1 = hd Dummy l3) as Hin1 by congruence.
    rewrite Hin1 in H3.
    replace (l1' ++ y :: m ++ l3) with ((l1' ++ y :: m) ++ l3) in Hr2
      by (by rewrite <-app_assoc).
    assert ((n = n ∨ n = Node kr) ∧ n ≠ Node kr) as HPn.
    { split; [by left|congruence]. }
    pose proof (ring_insert c2 _ (l1' ++ y :: m) l3 n c3 Hr2 Hl2 HPn H3)
      as Hr3.
    assert (ring c4 (λ _, False) ((l1' ++ y :: m) ++ n :: l3)) as Hr4.
    { eapply ring_same_links;
        [exact Hn4|intros r; by apply same_data_live|].
      eapply ring_iff; [|exact Hr3]. simpl. intros p. split; [|done].
      intros [[[?|?] ?] ?]; done. }
    assert (∀ p, p ≠ n → p ≠ Node kr → get_state c3 p = get_state c0 p)
      as Hst3.
    { intros p Hpn Hpk. rewrite Hs3. unfold c2.
      rewrite get_state_erase by done. rewrite Hs1, Hsa.
      by rewrite decide_False. }
    assert (get_state c3 n = Some ADDED) as Hn3.
    { rewrite Hs3. unfold c2. rewrite get_state_erase by done.
      rewrite Hs1, Hsa. by rewrite decide_True. }
    assert (y ≠ n) as Hyn by (apply Hmem; set_solver).
    simpl in *.
    repeat (rewrite NoDup_app in Hnd || rewrite NoDup_cons in Hnd).
    exists (l1' ++ [y]), (m ++ [n]), l3.
    split; [|rewrite !length_app; simpl; split_and!; [lia|lia|left; lia]].
    split_and!.
    + eapply eq_rect; [exact Hr4|]. by simplify_list_eq.
    + rewrite hd_app_cons.
      pose proof (ring_next c4 (λ _, False) l1' y (m ++ n :: l3)) as Hny.
      rewrite Hn4 in Hny. rewrite Hnom3 in Hm4.
      assert (Some (nomination c4) = Some (hd Dummy (m ++ n :: l3)));
        [|congruence].
      rewrite <-Hm4. apply Hny.
      eapply eq_rect; [exact Hr4|]. by simplify_list_eq.
    + congruence.
    + intros p [Hp| ->%list_elem_of_singleton]%elem_of_app.
      * rewrite Hs4, Hnom3. rewrite decide_False by set_solver.
        rewrite Hst3; [apply HN; by right| |].
        -- apply Hmem. set_solver.
        -- set_solver.
      * rewrite Hs4, Hnom3. by rewrite decide_True.
    + intros p [Hp| ->%list_elem_of_singleton]%elem_of_app.
      * rewrite Hs4, Hnom3. rewrite decide_False by set_solver.
        rewrite Hst3; [apply HA; by right| |].
        -- apply Hmem. set_solver.
        -- set_solver.
      * rewrite Hs4, Hnom3. rewrite decide_False by done. done.
    + intros p Hp. rewrite Hs4, Hnom3. rewrite decide_False by set_solver.
      rewrite Hst3; [by apply HR| |].
      * apply Hmem. set_solver.
      * set_solver.
    + intros Hnil%(f_equal length). rewrite !length_app in Hnil.
      simpl in Hnil. lia.
    + intros Hnil%(f_equal length). rewrite !length_app in Hnil.
      simpl in Hnil. lia.
    + done.
  - (* below capacity: beyond [nominated_limit] only the last branch *)
    destruct (exists_last Hne2) as (m & z & ->).
    destruct (add_below _ _ _ _ _ _ _ _ Hl Hring Hnom Hin Hn Hst Hgt
                ltac:(lia) Ha) as (Hr' & Hm' & Hi' & Hz' & Hs').
    repeat (rewrite NoDup_app in Hnd || rewrite NoDup_cons in Hnd).
    exists l1, (m ++ [n]), (z :: l3).
    split; [|rewrite !length_app; simpl; split_and!; [lia|lia|right; lia]].
    split_and!; try done.
    + intros p Hp. rewrite Hs'. rewrite !decide_False; [by apply HN|..].
      * apply Hmem. set_solver.
      * set_solver.
    + intros p [Hp| ->%list_elem_of_singleton]%elem_of_app.
      * rewrite Hs'. rewrite !decide_False; [apply HA|..].
        -- set_solver.
        -- apply Hmem. set_solver.
        -- set_solver.
      * rewrite Hs'. rewrite decide_False by (apply not_eq_sym, Hmem; set_solver).
        by rewrite decide_True.
    + intros p [->|Hp]%elem_of_cons.
      * rewrite Hs'. by rewrite decide_True.
      * rewrite Hs'. rewrite !decide_False; [by apply HR|..].
        -- apply Hmem. set_solver.
        -- set_solver.
    + intros Hnil%(f_equal length). rewrite !length_app in Hnil.
      simpl in Hnil. lia.
Qed.

Lemma laid_step c key l1 l2 l3 :
  reachable V_of_K c → laid_by c (λ _, False) l1 l2 l3 →
  cache_size c > nominated_limit c →
  ∃ v c' ev l1' l2' l3',
    fetch V_of_K c key = Some (v, c', ev) ∧
    laid_by c' (λ _, False) l1' l2' l3' ∧
    length l1' = length l1 ∧ length l2' = length l2 ∧
    (length l3' = length l3 ∧ cache_size c' = cache_size c ∨
     length l3' = S (length l3) ∧ cache_size c' = cache_size c + 1) ∧
    nominated_limit c' = nominated_limit c.
Proof.
  intros Hr Hlaid Hgt.
  destruct (reachable_inv c Hr) as (Hwf & _).
  assert (Node key ≠ Dummy) as Hnd by done.
  assert (next (dummy c) ≠ nomination c) as Htn.
  { destruct Hlaid as (Hring & Hnom & _ & _ & _ & _ & N1 & N2 & _).
    pose proof (ring_next_Dummy _ _ _ Hring) as Hnx.
    unfold get_next in Hnx. simpl in Hnx.
    destruct (ring_NoDup _ _ _ Hring) as [Hndp _].
    destruct l1 as [|t l1]; [done|]. destruct l2 as [|y l2]; [done|].
    simpl in Hnx, Hnom, Hndp. rewrite Hnom. intros Heq.
    assert (t = y) as -> by congruence.
    apply NoDup_cons in Hndp as [Hndp _]. apply Hndp, elem_of_app.
    right. by left. }
  destruct (fetch_returns c key Hr Htn) as [[[v c'] ev] Hf].
  exists v, c', ev. pose proof Hf as Hf0. unfold fetch in Hf0.
  destruct (map c !! key) as [n0|] eqn:Hkey.
  - destruct (use_ c (Node key)) as [c1|] eqn:Hu; [|done]. simpl in Hf0.
    destruct (map c1 !! key); [|done]. simplify_eq/=.
    destruct (use_spec _ _ _ Hwf Hnd Hu) as (_ & (_ & Hnl & _) & Hsz).
    destruct Hwf as (Hl & _).
    destruct (use_laid _ _ _ _ _ _ Hl Hlaid Hnd Hu)
      as (l1' & l2' & l3' & ? & ? & ? & ?).
    exists l1', l2', l3'. split_and!; [done..| |done]. by left.
  - destruct (match on_create c with
              | Some f => (f key, [Created key])
              | None => (V_of_K key, [])
              end) as [v0 ev0].
    destruct (inserted_ready c key v0 Hwf Hkey)
      as (Hl0 & Hst & Hli & Hin & Hlm).
    destruct (add_ _ _) as [[c1 ev1]|] eqn:Ha; [|done]. simpl in Hf0.
    destruct (map c1 !! key); [|done]. simplify_eq/=.
    destruct (add_spec _ _ _ _ Hl0 Hnd Hst Hli Hin Hlm Ha)
      as (_ & _ & Hnl & _).
    destruct (add_laid _ _ _ _ _ _ _ Hl0
                (fresh_laid c key v0 _ _ _ Hlaid Hkey) Hnd Hst Hgt Ha)
      as (l1' & l2' & l3' & ? & ? & ? & ?).
    exists l1', l2', l3'. by split_and!.
Qed.

Lemma laid_run c keys l1 l2 l3 :
  reachable V_of_K c → laid_by c (λ _, False) l1 l2 l3 →
  cache_size c > nominated_limit c →
  ∃ c' out l1' l2' l3',
    run V_of_K c keys = Some (c', out) ∧
    laid_by c' (λ _, False) l1' l2' l3' ∧
    length l1' = length l1 ∧ length l2' = length l2 ∧
    Z.of_nat (length l3') - Z.of_nat (length l3) =
      cache_size c' - cache_size c.
Proof.
  revert c l1 l2 l3.
  induction keys as [|key keys IH]; intros c l1 l2 l3 Hr Hlaid Hgt.
  - exists c, [], l1, l2, l3. split_and!; [done..|lia].
  - destruct (laid_step c key l1 l2 l3 Hr Hlaid Hgt)
      as (v & c1 & ev & m1 & m2 & m3 & Hf & Hlaid1 & E1 & E2 & E3 & Hnl).
    destruct (IH c1 m1 m2 m3) as (c' & out & l1' & l2' & l3' &
                                  Hrun & Hlaid' & F1 & F2 & F3).
    + by eapply reach_fetch.
    + done.
    + destruct E3 as [[_ ?]|[_ ?]]; lia.
    + exists c', ((v, ev) :: out), l1', l2', l3'.
      split_and!; [|done|congruence|congruence|].
      * simpl. rewrite Hf. simpl. by rewrite Hrun.
      * destruct E3 as [[? ?]|[? ?]]; lia.
Qed.

(** X15.  Once the walks of [check] show the layout of the comments with
    no zone empty, every sequence of later calls returns (no call runs
    into a destroyed node) and ends in that layout: the zones before
    [nomination] and before [inlet] keep their lengths, and the [REUSED]
    zone has grown by the number of entries added below capacity. *)
Theorem layout_kept_once_established c keys zn za zr :
  reachable V_of_K c →
  zones c = Some (zn, za, zr) → zones_ok c = true →
  zn ≠ [] → za ≠ [] → zr ≠ [] →
  ∃ c' out zn' za' zr',
    run V_of_K c keys = Some (c', out) ∧
    zones c' = Some (zn', za', zr') ∧ zones_ok c' = true ∧
    length zn' = length zn ∧ length za' = length za ∧
    Z.of_nat (length zr') - Z.of_nat (length zr) =
      cache_size c' - cache_size c.
Proof.
  intros Hr Hz Hok Hn1 Hn2 Hn3.
  destruct (reachable_laid c zn za zr Hr Hz Hok Hn1 Hn2 Hn3)
    as (l1 & l2 & l3 & Hlaid & E1 & E2 & E3 & Hgt).
  destruct (laid_run c keys l1 l2 l3 Hr Hlaid Hgt)
    as (c' & out & l1' & l2' & l3' & Hrun & Hlaid' & F1 & F2 & F3).
  destruct (laid_zones _ _ _ _ Hlaid')
    as (zn' & za' & zr' & Hz' & Hok' & G1 & G2 & G3).
  exists c', out, zn', za', zr'. split_and!; [done..|lia|lia|lia].
Qed.

(** ** How the layout gets established *)

Lemma add_first c0 n c' ev l1 :
  linked c0 (λ p, p = n) → ring c0 (λ p, p = n) l1 →
  nomination c0 = Dummy → inlet c0 = Dummy →
  n ≠ Dummy → get_state c0 n = Some DETACHED →
  cache_size c0 <= nominated_limit c0 → cache_size c0 < cache_limit c0 →
  add_ c0 n = Some (c', ev) →
  ring c' (λ _, False) (l1 ++ [n]) ∧ inlet c' = Dummy ∧
  cache_size c' = cache_size c0 + 1 ∧
  nomination c' = (if decide (cache_size c0 < nominated_limit c0)
                   then Dummy else n) ∧
  ∀ r, get_state c' r =
       if decide (r = n)
       then Some (if decide (cache_size c0 < nominated_limit c0)
                  then NOMINATED else ADDED)
       else get_state c0 r.
Proof.
  intros Hl Hring Hnom Hin Hn Hst Hle Hroom0 Ha.
  unfold add_ in Ha. rewrite Hst in Ha. simpl in Ha.
  destruct (decide (DETACHED ≠ DETACHED)); [done|].
  destruct (set_state c0 n ADDED) as [ca|] eqn:Hca; [|done]. simpl in Ha.
  destruct (set_state_spec _ _ _ _ Hca)
    as (Hlna & Hna & Hpa & Hsa & (Hcl & Hnl & _) & Hza & Hia & Hma).
  pose proof (set_state_linked _ _ _ _ _ Hca Hl) as Hla.
  pose proof (ring_set_state _ _ _ _ _ _ Hca Hring) as Hringa.
  destruct (decide (cache_size ca >= cache_limit ca)) as [Hfull|Hroom];
    [lia|].
  destruct (add_warmup ca n) as [c1|] eqn:H1; [|done]. simpl in Ha.
  set (c2 := set_cache_size c1 (cache_size c1 + 1)) in *.
  destruct (insert_before_ c2 (inlet c1) n) as [c3|] eqn:H3; [|done].
  simpl in Ha. injection Ha as <- _.
  assert (∀ r, deref c2 r = deref c1 r) as Hd2 by by apply deref_same.
  destruct (insert_before_spec _ _ _ _ H3)
    as (ap & Hap & _ & _ & _ & _ & Hs3 & ((Hcl3 & Hnl3 & _) & Hz3 & Hi3 & Hm3)).
  assert (∀ r, get_state c3 r = get_state c1 r) as Hs31.
  { intros r. rewrite Hs3. unfold get_state. by rewrite Hd2. }
  assert (∀ p : ptr K, (p = n ∧ p ≠ n) ↔ False) as HPF by tauto.
  rewrite <-(app_nil_r l1) in Hringa.
  unfold add_warmup in H1. rewrite Hza, Hnl in H1.
  destruct (decide (cache_size c0 < nominated_limit c0)) as [Hlt|Hge].
  - destruct (set_state_spec _ _ _ _ H1)
      as (_ & Hn1 & _ & Hs1 & (Hcl1 & Hnl1 & _) & Hz1 & Hi1 & Hm1).
    pose proof (ring_deref_same _ _ _ _ Hd2
                  (ring_set_state _ _ _ _ _ _ H1 Hringa)) as Hr2.
    pose proof (linked_deref_same _ _ _ Hd2
                  (set_state_linked _ _ _ _ _ H1 Hla)) as Hl2.
    assert (inlet c1 = hd Dummy []) as Hin1 by (simpl; congruence).
    rewrite Hin1 in H3.
    pose proof (ring_insert c2 _ l1 [] n c3 Hr2 Hl2 eq_refl H3) as Hr3.
    apply (ring_iff _ _ _ _ HPF) in Hr3.
    simpl in *. split_and!; [done|congruence|lia|congruence|].
    intros r. rewrite Hs31, Hs1. case_decide; [done|].
    rewrite Hsa. by rewrite decide_False.
  - rewrite decide_True in H1 by lia. injection H1 as <-.
    assert (∀ r, deref (set_nomination ca n) r = deref ca r) as Hd1
      by by apply deref_same.
    pose proof (ring_deref_same _ _ _ _ Hd2
                  (ring_deref_same _ _ _ _ Hd1 Hringa)) as Hr2.
    pose proof (linked_deref_same _ _ _ Hd2
                  (linked_deref_same _ _ _ Hd1 Hla)) as Hl2.
    assert (inlet (set_nomination ca n) = hd Dummy []) as Hin1
      by (simpl; congruence).
    rewrite Hin1 in H3.
    pose proof (ring_insert c2 _ l1 [] n c3 Hr2 Hl2 eq_refl H3) as Hr3.
    apply (ring_iff _ _ _ _ HPF) in Hr3.
    simpl in *. split_and!; [done|congruence|lia|congruence|].
    intros r. rewrite Hs31. unfold get_state in *. by rewrite Hd1, Hsa.
Qed.

Lemma new_ring size create evict nominated_size added_size c :
  LruCache_new size create evict nominated_size added_size = Some c →
  ring c (λ _, False) [] ∧ nomination c = Dummy ∧ inlet c = Dummy.
Proof.
  unfold LruCache_new. intros Hnew. case_decide as Hlim; [|done].
  simplify_eq. split; [|done]. split_and!.
  - apply NoDup_singleton.
  - intros p. rewrite list_elem_of_singleton. split.
    + intros ->. split; [by eexists|tauto].
    + intros [[b Hb] _]. by destruct p.
  - by intros p ->%list_elem_of_singleton.
Qed.

Lemma fresh_get_state c key v r :
  r ≠ Node key →
  get_state (set_map c (<[key := fresh_node key v]> (map c))) r =
  get_state c r.
Proof.
  intros Hr. destruct r as [|k']; unfold get_state; simpl; [done|].
  rewrite lookup_insert_ne; [done|congruence].
Qed.

(** A call for a missing key, as [add_] sees it. *)
Lemma fetch_miss_add c key v c' ev :
  wf c → map c !! key = None → fetch V_of_K c key = Some (v, c', ev) →
  ∃ v0 ev1,
    let c0 := set_map c (<[key := fresh_node key v0]> (map c)) in
    add_ c0 (Node key) = Some (c', ev1) ∧
    linked c0 (λ p, p = Node key) ∧
    get_state c0 (Node key) = Some DETACHED.
Proof.
  intros Hwf Hkey Hf. unfold fetch in Hf. rewrite Hkey in Hf.
  destruct (match on_create c with
            | Some f => (f key, [Created key])
            | None => (V_of_K key, [])
            end) as [v0 ev0].
  destruct (inserted_ready c key v0 Hwf Hkey) as (Hl0 & Hst & _).
  destruct (add_ _ _) as [[c1 ev1]|] eqn:Ha; [|done]. simpl in Hf.
  destruct (map c1 !! key); [|done]. simplify_eq/=.
  by exists v0, ev1.
Qed.

Lemma miss_keeps_missing c key v c' ev k :
  wf c → map c !! key = None → cache_size c < cache_limit c →
  fetch V_of_K c key = Some (v, c', ev) →
  k ≠ key → map c !! k = None → map c' !! k = None.
Proof.
  intros Hwf Hkey Hroom Hf Hk Hnone.
  destruct (fetch_miss c key v c' ev Hwf Hkey Hf)
    as (_ & _ & _ & _ & _ & _ & _ & _ & [(_ & _ & _ & Hv)|(? & _)]); [|lia].
  specialize (Hv k). rewrite decide_False, Hnone in Hv by done.
  by destruct (map c' !! k).
Qed.

Lemma fill_step c key l1 :
  reachable V_of_K c → ring c (λ _, False) l1 →
  nomination c = Dummy → inlet c = Dummy →
  map c !! key = None → cache_size c <= nominated_limit c →
  ∃ v c' ev,
    fetch V_of_K c key = Some (v, c', ev) ∧
    ring c' (λ _, False) (l1 ++ [Node key]) ∧ inlet c' = Dummy ∧
    cache_size c' = cache_size c + 1 ∧
    nomination c' = (if decide (cache_size c < nominated_limit c)
                     then Dummy else Node key) ∧
    ∀ r, get_state c' r =
         if decide (r = Node key)
         then Some (if decide (cache_size c < nominated_limit c)
                    then NOMINATED else ADDED)
         else get_state c r.
Proof.
  intros Hr Hring Hnom Hin Hkey Hle.
  destruct (reachable_inv c Hr) as (Hwf & _).
  destruct (reachable_zoned c Hr)
    as (? & ? & ? & (_ & _ & _ & _ & _ & _ & _ & _ & Hcfg)).
  destruct (fetch_miss_total c key Hwf Hkey) as [[[v c'] ev] Hf]; [lia|].
  exists v, c', ev. split; [done|].
  destruct (fetch_miss_add c key v c' ev Hwf Hkey Hf)
    as (v0 & ev1 & Ha & Hl0 & Hst).
  assert (Node key ≠ Dummy) as Hnd by done.
  assert (ring (set_map c (<[key := fresh_node key v0]> (map c)))
            (λ p, p = Node key) l1) as Hr0.
  { eapply ring_iff; [|by apply ring_fresh]. simpl. intuition. }
  destruct (add_first _ _ _ _ l1 Hl0 Hr0 Hnom Hin Hnd Hst Hle
              ltac:(simpl; lia) Ha) as (Hr' & Hi' & Hz' & Hm' & Hs').
  split_and!; try done. intros r. rewrite Hs'.
  destruct (decide (r = Node key)); [done|]. by apply fresh_get_state.
Qed.

Lemma fill_last c key l1 y :
  reachable V_of_K c → ring c (λ _, False) (l1 ++ [y]) →
  nomination c = y → inlet c = Dummy →
  map c !! key = None →
  cache_size c > nominated_limit c → cache_size c < cache_limit c →
  ∃ v c' ev,
    fetch V_of_K c key = Some (v, c', ev) ∧
    ring c' (λ _, False) (l1 ++ [Node key] ++ [y]) ∧
    nomination c' = Node key ∧ inlet c' = y ∧
    cache_size c' = cache_size c + 1 ∧
    ∀ r, get_state c' r = if decide (r = y) then Some REUSED
                          else if decide (r = Node key) then Some ADDED
                          else get_state c r.
Proof.
  intros Hr Hring Hnom Hin Hkey Hgt Hroom.
  destruct (reachable_inv c Hr) as (Hwf & _).
  destruct (fetch_miss_total c key Hwf Hkey Hroom) as [[[v c'] ev] Hf].
  exists v, c', ev. split; [done|].
  destruct (fetch_miss_add c key v c' ev Hwf Hkey Hf)
    as (v0 & ev1 & Ha & Hl0 & Hst).
  assert (Node key ≠ Dummy) as Hnd by done.
  assert (ring (set_map c (<[key := fresh_node key v0]> (map c)))
            (λ p, p = Node key) (l1 ++ ([] ++ [y]) ++ [])) as Hr0.
  { rewrite app_nil_r. simpl.
    eapply ring_iff; [|by apply ring_fresh]. simpl. intuition. }
  destruct (add_below _ _ _ _ l1 [] y [] Hl0 Hr0 Hnom Hin Hnd Hst Hgt
              Hroom Ha) as (Hr' & Hm' & Hi' & Hz' & Hs').
  split_and!; try done.
  intros r. rewrite Hs'. destruct (decide (r = y)); [done|].
  destruct (decide (r = Node key)); [done|]. by apply fresh_get_state.
Qed.

Lemma fill_run c keys l1 :
  reachable V_of_K c → ring c (λ _, False) l1 →
  nomination c = Dummy → inlet c = Dummy →
  (∀ p, p ∈ l1 → get_state c p = Some NOMINATED) →
  cache_size c <= nominated_limit c →
  0 < nominated_limit c → nominated_limit c + 2 <= cache_limit c →
  NoDup keys → (∀ k, k ∈ keys → map c !! k = None) →
  Z.of_nat (length keys) = nominated_limit c + 2 - cache_size c →
  ∃ c' out l1' y z,
    run V_of_K c keys = Some (c', out) ∧
    laid_by c' (λ _, False) l1' [y] [z] ∧
    cache_size c' = nominated_limit c + 2.
Proof.
  revert c l1. induction keys as [|key keys IH];
    intros c l1 Hr Hring Hnom Hin HN Hle Hpos Hcfg Hnd Hmiss Hlen.
  { simpl in Hlen. lia. }
  apply NoDup_cons in Hnd as [Hkk Hnd].
  assert (map c !! key = None) as Hkey by (apply Hmiss; by left).
  destruct (reachable_inv c Hr) as (Hwf & Hsz & _).
  destruct (fill_step c key l1 Hr Hring Hnom Hin Hkey Hle)
    as (v & c1 & ev & Hf & Hr1 & Hi1 & Hz1 & Hm1 & Hs1).
  pose proof (reach_fetch _ _ _ _ _ _ Hr Hf) as Hreach1.
  destruct (fetch_miss c key v c1 ev Hwf Hkey Hf)
    as (_ & _ & _ & Hcl1 & Hnl1 & _).
  assert (∀ k, k ∈ keys → map c1 !! k = None) as Hmiss1.
  { intros k Hk. apply (miss_keeps_missing c key v c1 ev); try done.
    - lia.
    - by intros ->.
    - apply Hmiss. by right. }
  assert (∀ p, p ∈ l1 → p ≠ Node key) as Hl1k.
  { intros p Hp ->. destruct (ring_elem _ _ _ _ Hring Hp) as (_ & [b Hb] & _).
    simpl in Hb. by rewrite Hkey in Hb. }
  simpl in Hlen.
  destruct (decide (cache_size c < nominated_limit c)) as [Hlt|Hge].
  - destruct (IH c1 (l1 ++ [Node key])) as (c' & out & l1' & y & z &
                                           Hrun & Hlaid & Hz');
      try done; try lia.
    + intros p [Hp| ->%list_elem_of_singleton]%elem_of_app.
      * rewrite Hs1, decide_False by by apply Hl1k. by apply HN.
      * rewrite Hs1. by rewrite decide_True.
    + exists c', ((v, ev) :: out), l1', y, z. split_and!; [|done|lia].
      simpl. rewrite Hf. simpl. by rewrite Hrun.
  - destruct keys as [|key2 [|? ?]]; simpl in Hlen; [lia| |lia].
    assert (map c1 !! key2 = None) as Hkey2 by (apply Hmiss1; by left).
    destruct (fill_last c1 key2 l1 (Node key) Hreach1 Hr1 Hm1 Hi1 Hkey2)
      as (v2 & c2 & ev2 & Hf2 & Hr2 & Hm2 & Hi2 & Hz2 & Hs2); [lia|lia|].
    exists c2, [(v, ev); (v2, ev2)], l1, (Node key2), (Node key).
    split_and!; [|split_and!|lia].
    + simpl. rewrite Hf. simpl. by rewrite Hf2.
    + done.
    + done.
    + done.
    + intros p Hp. assert (p ≠ Node key2) as Hp2.
      { intros ->.
        destruct (ring_elem _ _ _ (Node key2) Hr1) as (_ & [b Hb] & _);
          [apply elem_of_app; by left|].
        simpl in Hb. by rewrite Hkey2 in Hb. }
      rewrite Hs2, !decide_False by (done || by apply Hl1k).
      rewrite Hs1, decide_False by by apply Hl1k. by apply HN.
    + intros p ->%list_elem_of_singleton. rewrite Hs2.
      rewrite decide_False; [by rewrite decide_True|].
      intros [= ->]. apply Hkk. by left.
    + intros p ->%list_elem_of_singleton. rewrite Hs2.
      by rewrite decide_True.
    + intros ->. pose proof (ring_length _ _ Hring) as Hl. simpl in Hl. lia.
    + done.
    + done.
Qed.

(** X16.  A cache whose first [nominated_limit + 2] calls are for
    pairwise different keys has then the layout of the comments, as the
    walks of [check] show it: [nominated_limit] nodes [NOMINATED], then one
    [ADDED], then one [REUSED]; all these calls return. *)
Theorem distinct_warmup_establishes_layout size create evict
    nominated_size added_size c0 keys :
  LruCache_new size create evict nominated_size added_size = Some c0 →
  NoDup keys → Z.of_nat (length keys) = nominated_limit c0 + 2 →
  ∃ c out zn za zr,
    run V_of_K c0 keys = Some (c, out) ∧
    zones c = Some (zn, za, zr) ∧ zones_ok c = true ∧
    Z.of_nat (length zn) = nominated_limit c0 ∧
    length za = 1%nat ∧ length zr = 1%nat.
Proof.
  intros Hnew Hnd Hlen.
  destruct (new_wf _ _ _ _ _ _ Hnew) as (_ & Hmap & Hz0 & Hlim1 & Hlim2).
  destruct (new_ring _ _ _ _ _ _ Hnew) as (Hring & Hnom & Hin).
  pose proof (reach_new V_of_K _ _ _ _ _ _ Hnew) as Hr.
  destruct (fill_run c0 keys [] Hr Hring Hnom Hin)
    as (c & out & l1 & y & z & Hrun & Hlaid & Hz); try done; try lia.
  { intros p Hp. by apply elem_of_nil in Hp. }
  { intros k _. by rewrite Hmap. }
  destruct (laid_zones _ _ _ _ Hlaid)
    as (zn & za & zr & Hzs & Hok & G1 & G2 & G3).
  exists c, out, zn, za, zr. split_and!; try done.
  pose proof (run_reachable _ _ _ _ Hr Hrun) as Hrc.
  destruct (reachable_inv c Hrc) as (_ & Hsz & _).
  destruct Hlaid as (Hringc & _).
  pose proof (ring_length _ _ Hringc) as Hl.
  rewrite !length_app in Hl. simpl in Hl. lia.
Qed.

(** X17.  While the walks of [check] show the layout of the comments with
    no zone empty, a call for a missing key at capacity returns and the
    entry it erases is the tail node, which is [NOMINATED]: no entry that
    was promoted or is still [ADDED] is evicted. *)
Theorem laid_eviction_takes_nominated c key zn za zr :
  reachable V_of_K c →
  zones c = Some (zn, za, zr) → zones_ok c = true →
  zn ≠ [] → za ≠ [] → zr ≠ [] →
  map c !! key = None → cache_size c >= cache_limit c →
  ∃ v c' ev kr,
    fetch V_of_K c key = Some (v, c', ev) ∧
    next (dummy c) = Node kr ∧ erased ev = [kr] ∧
    get_state c (Node kr) = Some NOMINATED ∧
    hd_error zn = Some (kr, NOMINATED) ∧
    map c' !! kr = None.
Proof.
  intros Hr Hz Hok Hn1 Hn2 Hn3 Hkey Hfull.
  destruct (reachable_inv c Hr) as (Hwf & _).
  destruct (reachable_zoned c Hr)
    as (l1 & l2 & l3 & Hring & Hnom & Hin & _).
  destruct (ring_zones c l1 l2 l3 Hring Hnom Hin)
    as (zn' & za' & zr' & Hz' & F1 & F2 & _).
  rewrite Hz in Hz'. injection Hz' as <- <- <-.
  unfold zones_ok in Hok. rewrite Hz in Hok.
  apply andb_prop in Hok as [Hok _]. apply andb_prop in Hok as [H1 _].
  destruct F1 as [|t [k st] l1' zn' [Ht Hst] _]; [done|].
  destruct F2 as [|y e2 l2' za' _ _]; [done|].
  simpl in Ht, Hst, H1. subst t.
  apply andb_prop in H1 as [H1 _]. apply bool_decide_eq_true in H1.
  simpl in H1. subst st.
  pose proof (ring_next_Dummy _ _ _ Hring) as Hnx.
  unfold get_next in Hnx. simpl in Hnx.
  assert (next (dummy c) = Node k) as Htail by congruence.
  assert (next (dummy c) ≠ nomination c) as Htn.
  { rewrite Htail, Hnom. simpl. intros <-.
    destruct (ring_NoDup _ _ _ Hring) as [Hnd _]. simpl in Hnd.
    apply NoDup_cons in Hnd as [Hnd _]. apply Hnd, elem_of_app.
    right. by left. }
  destruct (fetch_returns c key Hr Htn) as [[[v c'] ev] Hf].
  destruct (fetch_miss c key v c' ev Hwf Hkey Hf)
    as (_ & _ & _ & _ & _ & _ & _ & _ & Hcase).
  destruct Hcase as [(? & _)|(_ & kr & nr & Hkr & Hne & Hnr & -> & _ & Hv)];
    [lia|].
  assert (kr = k) as -> by congruence.
  eexists v, c', _, k. split_and!; [done|done| |done|done|].
  - unfold erased. rewrite omap_app. simpl.
    by destruct (on_create c), (on_evict c).
  - specialize (Hv k). rewrite decide_True in Hv by done.
    by destruct (map c' !! k).
Qed.

(** ** The claims that needed the later facts *)

(** C10.  A call for a missing key made while fewer than [cache_limit]
    entries are tracked returns, erases nothing and does not call the
    observer; [cache_size] and the number of entries of the map both grow
    by exactly one and stay equal, every other entry is kept, and the new
    node is linked into the list, immediately before [inlet], tagged
    [NOMINATED] or [ADDED]. *)
Theorem warmup_insert_grows c key :
  reachable V_of_K c → map c !! key = None →
  Z.of_nat (size (map c)) < cache_limit c →
  ∃ v c' ev,
    fetch V_of_K c key = Some (v, c', ev) ∧
    erased ev = [] ∧ observed ev = [] ∧
    cache_size c' = cache_size c + 1 ∧
    Z.of_nat (size (map c')) = cache_size c' ∧
    size (map c') = S (size (map c)) ∧
    (∀ k, k ≠ key → value <$> map c' !! k = value <$> map c !! k) ∧
    get_next c' (Node key) = Some (inlet c') ∧
    get_prev c' (inlet c') = Some (Node key) ∧
    get_state c' (Node key) =
      Some (if decide (cache_size c < nominated_limit c)
            then NOMINATED else ADDED).
Proof.
  intros Hr Hkey Hroom. destruct (reachable_inv c Hr) as (Hwf & Hsz & _).
  destruct (fetch_miss_total c key Hwf Hkey) as [[[v c'] ev] Hf]; [lia|].
  exists v, c', ev. split; [done|].
  destruct (reachable_inv c' (reach_fetch _ _ _ _ _ _ Hr Hf))
    as ((Hl' & Hi' & _) & Hsz' & _).
  destruct (reachable_zoned c Hr)
    as (l1 & l2 & l3 & (_ & _ & _ & _ & _ & _ & _ & _ & Hcfg)).
  assert (get_prev c' (inlet c') = Some (Node key) ∧
          get_state c' (Node key) =
            Some (if decide (cache_size c < nominated_limit c)
                  then NOMINATED else ADDED)) as [Hp Hs].
  { destruct (fetch_miss_add c key v c' ev Hwf Hkey Hf)
      as (v0 & ev1 & Ha & Hl0 & Hst).
    destruct (inserted_ready c key v0 Hwf Hkey) as (_ & _ & Hli & Hin & _).
    assert (Node key ≠ Dummy) as Hnd by done.
    assert (nomination c ≠ Node key) as Hnm.
    { destruct Hwf as (_ & _ & [b Hb]). intros Heq. rewrite Heq in Hb.
      simpl in Hb. by rewrite Hkey in Hb. }
    apply (add_place _ _ _ _ Hl0 Hnd Hst Hli Hin Hnm Hcfg Ha). }
  destruct (fetch_miss c key v c' ev Hwf Hkey Hf)
    as (_ & _ & _ & _ & _ & _ & _ & _ & Hcase).
  destruct Hcase as [(_ & -> & Hz & Hv)|(? & _)]; [|lia].
  split_and!.
  - by destruct (on_create c).
  - by destruct (on_create c).
  - done.
  - done.
  - lia.
  - intros k Hk. rewrite Hv. by rewrite decide_False.
  - destruct (Hl' (inlet c') (λ F, F) Hi')
      as (_ & r & _ & Hr' & _ & _ & _ & Hrn). congruence.
  - done.
  - done.
Qed.

(** C5, as the code has it.  With both markers on live nodes the boundary
    step of an insertion at capacity returns; it tags the node at
    [nomination] [NOMINATED] whatever its state was, moves [nomination]
    to the next node, and changes nothing else: no link, no other tag,
    not [inlet], no entry.  The cascade of a promotion on the same cache
    changes nothing when that node is not [ADDED]; when it is [ADDED] and
    the node at [inlet] is not [REUSED] (or is the node just relabelled)
    it is the same transformation; when it is [ADDED] and the node at
    [inlet] is another, [REUSED] node, it does the same and then also
    tags the node at [inlet] [ADDED] and moves [inlet] to the next
    node. *)
Theorem insertion_step_and_cascade c :
  live c (nomination c) → live c (inlet c) →
  ∃ c',
    add_cascade c = Some c' ∧
    (∀ r, get_state c' r = if decide (r = nomination c)
                           then Some NOMINATED else get_state c r) ∧
    get_next c (nomination c) = Some (nomination c') ∧
    inlet c' = inlet c ∧
    (∀ r, get_next c' r = get_next c r) ∧
    (∀ r, get_prev c' r = get_prev c r) ∧
    cache_size c' = cache_size c ∧
    (∀ k, value <$> map c' !! k = value <$> map c !! k) ∧
    (get_state c (nomination c) ≠ Some ADDED → use_cascade c = Some c) ∧
    (get_state c (nomination c) = Some ADDED →
     inlet c = nomination c ∨ get_state c (inlet c) ≠ Some REUSED →
     use_cascade c = Some c') ∧
    (get_state c (nomination c) = Some ADDED →
     inlet c ≠ nomination c → get_state c (inlet c) = Some REUSED →
     ∃ cu,
       use_cascade c = Some cu ∧ cu ≠ c' ∧
       nomination cu = nomination c' ∧
       get_next c (inlet c) = Some (inlet cu) ∧
       (∀ r, get_state cu r = if decide (r = inlet c)
                              then Some ADDED else get_state c' r) ∧
       (∀ r, get_next cu r = get_next c' r) ∧
       (∀ r, get_prev cu r = get_prev c' r)).
Proof.
  intros Hln Hli.
  destruct (set_state_total c (nomination c) NOMINATED Hln) as [c1 H1].
  destruct (set_state_spec _ _ _ _ H1)
    as (_ & Hn1 & Hp1 & Hs1 & ((_ & _ & _ & _ & _ & Hv1) & Hz1 & Hi1 & Hm1)).
  destruct (live_get_next c (nomination c) Hln) as [nn Hnn].
  set (c2 := set_nomination c1 nn).
  assert (∀ r, deref c2 r = deref c1 r) as Hd2 by by apply deref_same.
  assert (add_cascade c = Some c2) as Hadd.
  { unfold add_cascade. rewrite H1. simpl. by rewrite Hm1, Hn1, Hnn. }
  assert (∀ r, get_state c2 r = if decide (r = nomination c)
                                then Some NOMINATED else get_state c r)
    as Hs2.
  { intros r. rewrite <-Hs1. unfold get_state. by rewrite Hd2. }
  assert (∀ r, get_next c2 r = get_next c r) as Hn2.
  { intros r. rewrite <-Hn1. unfold get_next. by rewrite Hd2. }
  assert (∀ r, get_prev c2 r = get_prev c r) as Hp2.
  { intros r. rewrite <-Hp1. unfold get_prev. by rewrite Hd2. }
  destruct (use_cascade_total c Hln Hli) as [cu Hu].
  exists c2. split_and!; try done.
  - intros Hna.
    destruct (use_cascade_cases _ _ Hu) as [[_ ->]|(Hst & _)]; done.
  - intros Hst Hor. subst c2. unfold use_cascade. rewrite Hst. simpl.
    rewrite H1. simpl. rewrite Hn1, Hm1, Hnn. simpl.
    unfold get_state in *. rewrite Hd2, Hi1, Hs1.
    destruct (decide (inlet c = nomination c)) as [|Hne]; simpl; [done|].
    destruct Hor as [?|Hor]; [done|].
    destruct (proj1 (live_get_state _ _) Hli) as [ist Hist].
    unfold get_state in Hist. rewrite Hist in Hor |- *. simpl.
    rewrite decide_False; [done|]. intros ->. by apply Hor.
  - intros Hst Hne HR. exists cu. split; [done|].
    destruct (use_cascade_spec _ _ Hu) as (_ & Hpu & _).
    destruct (use_cascade_cases _ _ Hu)
      as [[Hna _]|(_ & Hnu & _ & _ & Hnnu & Hcase)]; [done|].
    destruct Hcase as [(_ & [?|Hnr] & _)|(_ & _ & Hinn & Hsu)]; [done..|].
    assert (∀ r, get_state cu r = if decide (r = inlet c) then Some ADDED
                                  else get_state c2 r) as Hsu2.
    { intros r. by rewrite Hsu, Hs2. }
    split_and!.
    + intros Heq. pose proof (Hsu2 (inlet c)) as Hx.
      rewrite decide_True, Heq, Hs2, decide_False, HR in Hx by done. done.
    + simpl. congruence.
    + done.
    + done.
    + intros r. by rewrite Hnu, Hn2.
    + intros r. by rewrite Hpu, Hp2.
Qed.

End Facts.

(** * The instance of the test *)

Lemma after_reachable size create evict ns ads keys c :
  after (LruCache_new size create evict ns ads) keys = Some c →
  reachable int_of_int c.
Proof.
  unfold after, run_on. intros Ha.
  destruct (LruCache_new size create evict ns ads) as [c0|] eqn:Hnew;
    [|done].
  simpl in Ha.
  destruct (run int_of_int c0 keys) as [[c' out]|] eqn:Hrun; [|done].
  simplify_eq/=. eapply run_reachable; [|done]. by eapply reach_new.
Qed.

(** The model goes through [TEST(LruTest, Basic)] as the test expects. *)
Example test_Basic :
  zones_after test_cache [] = Some ([], [], []) ∧
  zones_after test_cache [0] = Some ([(0, NOMINATED)], [], []) ∧
  zones_after test_cache [0; 1] =
    Some ([(0, NOMINATED); (1, NOMINATED)], [], []) ∧
  zones_after test_cache [0; 1; 2] =
    Some ([(0, NOMINATED); (1, NOMINATED)], [(2, ADDED)], []) ∧
  zones_after test_cache [0; 1; 2; 3] =
    Some ([(0, NOMINATED); (1, NOMINATED)], [(3, ADDED)], [(2, REUSED)]) ∧
  zones_after test_cache [0; 1; 2; 3; 4] =
    Some ([(1, NOMINATED); (3, NOMINATED)], [(4, ADDED)], [(2, REUSED)]) ∧
  zones_after test_cache [0; 1; 2; 3; 4; 2] =
    Some ([(1, NOMINATED); (3, NOMINATED)], [(4, ADDED)], [(2, REUSED)]) ∧
  zones_after test_cache [0; 1; 2; 3; 4; 2; 4] =
    Some ([(1, NOMINATED); (3, NOMINATED)], [(4, ADDED)], [(2, REUSED)]) ∧
  zones_after test_cache [0; 1; 2; 3; 4; 2; 4; 3] =
    Some ([(1, NOMINATED); (4, NOMINATED)], [(2, ADDED)], [(3, REUSED)]) ∧
  zones_after test_cache [0; 1; 2; 3; 4; 2; 4; 3; 5] =
    Some ([(4, NOMINATED); (2, NOMINATED)], [(5, ADDED)], [(3, REUSED)]) ∧
  returned test_cache [0; 1; 2; 3; 4; 2; 4; 3; 5] =
    Some [0; 10; 20; 30; 40; 20; 40; 30; 50].
Proof. split_and!; vm_compute; reflexivity. Qed.

(** C1.  The layout does not survive a hit made while the cache fills
    up: after [cache[0]; cache[0]] the only node is [REUSED] and sits
    before [nomination], which still is the sentinel; after
    [cache[0]; cache[1]; cache[2]; cache[0]] node 0 is [REUSED] and sits
    between [nomination] and [inlet]. *)
Theorem layout_broken_by_early_hit :
  (∃ c, after test_cache [0; 0] = Some c ∧
        nomination c = Dummy ∧ inlet c = Dummy ∧
        zones c = Some ([(0, REUSED)], [], []) ∧
        zones_ok c = false) ∧
  (∃ c, after test_cache [0; 1; 2; 0] = Some c ∧
        nomination c = Node 0 ∧ inlet c = Dummy ∧
        zones c = Some ([(1, NOMINATED); (2, NOMINATED)],
                        [(0, REUSED)], []) ∧
        zones_ok c = false).
Proof.
  split; eexists; (split; [vm_compute; reflexivity|]);
    split_and!; vm_compute; reflexivity.
Qed.

(** C3.  After [cache[1]; cache[1]; cache[2]; cache[3]; cache[4]] the
    cache is full and the node after the sentinel is node 1, which is
    [REUSED]; [cache[5]] erases it and hands it to the observer. *)
Theorem eviction_of_reused_entry :
  ∃ c c',
    after observed_cache [1; 1; 2; 3; 4] = Some c ∧
    cache_size c = cache_limit c ∧
    next (dummy c) = Node 1 ∧
    get_state c (Node 1) = Some REUSED ∧
    fetch int_of_int c 5 =
      Some (50, c', [Created 5; Erased 1; Evicted 1 10]).
Proof.
  eexists _, _. split; [vm_compute; reflexivity|].
  split_and!; vm_compute; reflexivity.
Qed.

(** C4.  After [cache[0]; cache[1]; cache[2]; cache[0]; cache[1];
    cache[2]; cache[3]] the cache holds [cache_limit] entries and
    [nomination] points at node 0, the node after the sentinel.
    [cache[4]], an insertion at capacity, unlinks and erases that node and
    then writes its state through [nomination] (line 120): the call has
    no defined outcome, and no eviction is completed. *)
Theorem insertion_at_capacity_undefined :
  ∃ c,
    after test_cache [0; 1; 2; 0; 1; 2; 3] = Some c ∧
    Z.of_nat (size (map c)) = cache_limit c ∧
    cache_size c = cache_limit c ∧
    map c !! 4 = None ∧
    next (dummy c) = Node 0 ∧ nomination c = Node 0 ∧
    fetch int_of_int c 4 = None.
Proof.
  eexists. split; [vm_compute; reflexivity|].
  split_and!; vm_compute; reflexivity.
Qed.

(** A key that is not among the keys of a map is not in the map. *)
Lemma lookup_None_keys {A} (m : gmap Z A) (j : Z) :
  j ∉ (map_to_list m).*1 → m !! j = None.
Proof.
  intros Hj. destruct (m !! j) as [a|] eqn:Hm; [|done].
  exfalso. apply Hj. apply list_elem_of_fmap. exists (j, a).
  split; [done|]. by apply elem_of_map_to_list.
Qed.

(** C2 fails as stated: in the cache after [cache[0]; cache[1]], which
    has the layout, promotion of the [NOMINATED] node 0 changes the state
    tag of no other node; [nomination] is the sentinel. *)
Lemma promotion_relabels_nothing :
  ∃ c c',
    after test_cache [0; 1] = Some c ∧
    zones_ok c = true ∧
    get_state c (Node 0) = Some NOMINATED ∧
    nomination c = Dummy ∧
    use_ c (Node 0) = Some c' ∧
    ∀ m, m ≠ Node 0 → get_state c' m = get_state c m.
Proof.
  eexists _, _. split; [vm_compute; reflexivity|].
  split; [vm_compute; reflexivity|]. split; [vm_compute; reflexivity|].
  split; [vm_compute; reflexivity|]. split; [vm_compute; reflexivity|].
  intros [|j] Hj; [reflexivity|].
  destruct (decide (j = 1)) as [->|Hj1]; [vm_compute; reflexivity|].
  assert (j ≠ 0) as Hj0 by congruence.
  unfold get_state, deref. cbn [map].
  rewrite !(lookup_None_keys _ j); [done|..];
    match goal with
    | |- j ∉ ?l => let l' := eval vm_compute in l in change l with l'
    end;
    rewrite !not_elem_of_cons; split_and!; try done; apply not_elem_of_nil.
Qed.

(** C5 fails as stated: on the cache the promotion of node 3 has reached
    when its cascade starts (the test's [cache[3]], after the move to the
    head), the cascade of [use_] also relabels the node at [inlet] and
    moves [inlet]; the step of [add_] leaves both alone. *)
Lemma cascades_differ :
  ∃ c c3 cu ca,
    after test_cache [0; 1; 2; 3; 4] = Some c ∧
    use_move c (Node 3) = Some c3 ∧
    use_cascade c3 = Some cu ∧ add_cascade c3 = Some ca ∧
    inlet cu = Node 3 ∧ inlet ca = Node 2 ∧
    get_state cu (Node 2) = Some ADDED ∧
    get_state ca (Node 2) = Some REUSED.
Proof.
  eexists _, _, _, _. split; [vm_compute; reflexivity|].
  split; [vm_compute; reflexivity|]. split; [vm_compute; reflexivity|].
  split; [vm_compute; reflexivity|]. split_and!; vm_compute; reflexivity.
Qed.

(** C6 fails as stated: [LruCache<int, int> cache(4)] answers
    [cache[5]] with 5, which is [int(5)] and not [int()]. *)
Lemma missing_value_not_default :
  ∃ c c' ev,
    plain_cache = Some c ∧ on_create c = None ∧ map c !! 5 = None ∧
    fetch int_of_int c 5 = Some (5, c', ev) ∧
    value <$> map c' !! 5 = Some 5 ∧
    5 ≠ int_default.
Proof.
  eexists _, _, _. split; [vm_compute; reflexivity|].
  split_and!; try (vm_compute; reflexivity). done.
Qed.

(** ** The theorems at work on the test's cache *)

Lemma count_within_capacity_witness :
  ∃ c,
    after test_cache [0; 1; 2; 3] = Some c ∧
    Z.of_nat (size (map c)) = cache_size c ∧
    Z.of_nat (size (map c)) <= cache_limit c ∧
    ∀ key v c' ev,
      map c !! key = None →
      Z.of_nat (size (map c)) = cache_limit c →
      fetch int_of_int c key = Some (v, c', ev) →
      length (erased ev) = 1%nat ∧
      Z.of_nat (size (map c')) = cache_limit c'.
Proof.
  eexists. split; [vm_compute; reflexivity|].
  apply (count_within_capacity int_of_int).
  apply (after_reachable 4 (Some times10) false 0 0 [0; 1; 2; 3]).
  vm_compute; reflexivity.
Defined.

Lemma use_noop_witness :
  ∃ c, after test_cache [0; 1; 2; 3] = Some c ∧
       get_state c (Node 3) = Some ADDED ∧
       use_ c (Node 3) = Some c.
Proof.
  eexists. split; [vm_compute; reflexivity|].
  split; [vm_compute; reflexivity|].
  apply use_noop. left. vm_compute; reflexivity.
Defined.

Lemma refetch_same_value_witness :
  ∃ c c1 ev1,
    after test_cache [0; 1; 2; 3] = Some c ∧
    map c !! 4 = None ∧
    fetch int_of_int c 4 = Some (40, c1, ev1) ∧
    ∃ c2, fetch int_of_int c1 4 = Some (40, c2, []).
Proof.
  eexists _, _, _. split; [vm_compute; reflexivity|].
  split; [vm_compute; reflexivity|]. split; [vm_compute; reflexivity|].
  eapply (refetch_same_value int_of_int).
  - apply (after_reachable 4 (Some times10) false 0 0 [0; 1; 2; 3]).
    vm_compute; reflexivity.
  - vm_compute; reflexivity.
  - vm_compute; reflexivity.
Defined.


Lemma warmup_insert_grows_witness :
  ∃ c,
    after test_cache [0; 1; 2] = Some c ∧
    ∃ v c' ev,
      fetch int_of_int c 3 = Some (v, c', ev) ∧
      erased ev = [] ∧ observed ev = [] ∧
      cache_size c' = cache_size c + 1 ∧
      Z.of_nat (size (map c')) = cache_size c' ∧
      size (map c') = S (size (map c)) ∧
      (∀ k, k ≠ 3 → value <$> map c' !! k = value <$> map c !! k) ∧
      get_next c' (Node 3) = Some (inlet c') ∧
      get_prev c' (inlet c') = Some (Node 3) ∧
      get_state c' (Node 3) =
        Some (if decide (cache_size c < nominated_limit c)
              then NOMINATED else ADDED).
Proof.
  eexists. split; [vm_compute; reflexivity|].
  apply (warmup_insert_grows int_of_int).
  - apply (after_reachable 4 (Some times10) false 0 0 [0; 1; 2]).
    vm_compute; reflexivity.
  - vm_compute; reflexivity.
  - vm_compute; reflexivity.
Defined.

Lemma missing_value_is_converted_key_witness :
  ∃ c c' ev,
    plain_cache = Some c ∧
    fetch int_of_int c 5 = Some (5, c', ev) ∧
    5 = int_of_int 5 ∧ value <$> map c' !! 5 = Some (int_of_int 5).
Proof.
  eexists _, _, _. split; [vm_compute; reflexivity|].
  split; [vm_compute; reflexivity|].
  eapply (missing_value_is_converted_key int_of_int).
  - apply (after_reachable 4 None false 0 0 []). vm_compute; reflexivity.
  - vm_compute; reflexivity.
  - vm_compute; reflexivity.
  - vm_compute; reflexivity.
Defined.

Lemma promotion_of_nominated_witness :
  ∃ c,
    after test_cache [0; 1; 2; 3; 4] = Some c ∧
    ∃ c',
      use_ c (Node 3) = Some c' ∧
      prev (dummy c') = Node 3 ∧ get_next c' (Node 3) = Some Dummy ∧
      get_state c' (Node 3) = Some REUSED ∧
      ∀ m, m ≠ Node 3 →
        (get_state c' m = Some NOMINATED ↔
         get_state c m = Some NOMINATED ∨
         (m = nomination c ∧ get_state c m = Some ADDED)).
Proof.
  eexists. split; [vm_compute; reflexivity|].
  apply (promotion_of_nominated int_of_int).
  - apply (after_reachable 4 (Some times10) false 0 0 [0; 1; 2; 3; 4]).
    vm_compute; reflexivity.
  - vm_compute; reflexivity.
  - vm_compute; reflexivity.
Defined.

(** ** Instances of the further properties *)

Lemma reachable_well_linked_witness :
  ∃ c,
    after test_cache [0; 1; 2; 3] = Some c ∧
    live c (inlet c) ∧ live c (nomination c) ∧
    ∀ p, live c p →
      ∃ q r, get_next c p = Some q ∧ get_prev c p = Some r ∧
             get_prev c q = Some p ∧ get_next c r = Some p.
Proof.
  eexists. split; [vm_compute; reflexivity|].
  apply (reachable_well_linked int_of_int).
  apply (after_reachable 4 (Some times10) false 0 0 [0; 1; 2; 3]).
  vm_compute; reflexivity.
Defined.

Lemma reachable_markers_in_order_witness :
  ∃ c,
    after test_cache [0; 1; 2; 3] = Some c ∧
    ∃ l1 l2 l3,
      ring c (λ _, False) (l1 ++ l2 ++ l3) ∧
      nomination c = hd Dummy (l2 ++ l3) ∧
      inlet c = hd Dummy l3 ∧
      (∀ p, p ∈ l3 → get_state c p = Some REUSED) ∧
      (∀ p, p ∈ l2 → get_state c p ≠ Some NOMINATED) ∧
      get_state c Dummy = Some DETACHED ∧
      (cache_size c <= nominated_limit c → l2 = [] ∧ l3 = []) ∧
      (cache_size c > nominated_limit c → l2 ≠ []).
Proof.
  eexists. split; [vm_compute; reflexivity|].
  apply (reachable_markers_in_order int_of_int).
  apply (after_reachable 4 (Some times10) false 0 0 [0; 1; 2; 3]).
  vm_compute; reflexivity.
Defined.

Lemma reachable_marker_tags_witness :
  ∃ c,
    after test_cache [0; 1; 2; 3] = Some c ∧
    get_state c Dummy = Some DETACHED ∧
    (inlet c = Dummy ∨ get_state c (inlet c) = Some REUSED) ∧
    (cache_size c > nominated_limit c →
     nomination c ≠ Dummy ∧ live c (nomination c) ∧
     get_state c (nomination c) ≠ Some NOMINATED).
Proof.
  eexists. split; [vm_compute; reflexivity|].
  apply (reachable_marker_tags int_of_int).
  apply (after_reachable 4 (Some times10) false 0 0 [0; 1; 2; 3]).
  vm_compute; reflexivity.
Defined.

Lemma hit_on_nominated_promotes_witness :
  ∃ c,
    after test_cache [0; 1; 2; 3; 4] = Some c ∧
    ∃ v c',
      fetch int_of_int c 3 = Some (v, c', []) ∧
      value <$> map c !! 3 = Some v ∧
      get_state c' (Node 3) = Some REUSED ∧
      prev (dummy c') = Node 3 ∧ get_next c' (Node 3) = Some Dummy.
Proof.
  eexists. split; [vm_compute; reflexivity|].
  apply (hit_on_nominated_promotes int_of_int).
  - apply (after_reachable 4 (Some times10) false 0 0 [0; 1; 2; 3; 4]).
    vm_compute; reflexivity.
  - vm_compute; reflexivity.
Defined.

Lemma miss_at_capacity_evicts_tail_witness :
  ∃ c v c' ev,
    after observed_cache [0; 1; 2; 3] = Some c ∧
    fetch int_of_int c 4 = Some (v, c', ev) ∧
    ∃ kr nr,
      next (dummy c) = Node kr ∧ map c !! kr = Some nr ∧
      erased ev = [kr] ∧
      observed ev = (if on_evict c then [(kr, value nr)] else []) ∧
      map c' !! kr = None ∧
      ∀ k, k ≠ kr → k ≠ 4 → value <$> map c' !! k = value <$> map c !! k.
Proof.
  eexists _, _, _, _. split; [vm_compute; reflexivity|].
  split; [vm_compute; reflexivity|].
  eapply (miss_at_capacity_evicts_tail int_of_int).
  - apply (after_reachable 4 (Some times10) true 0 0 [0; 1; 2; 3]).
    vm_compute; reflexivity.
  - vm_compute; reflexivity.
  - vm_compute; reflexivity.
  - vm_compute; reflexivity.
Defined.

Lemma miss_value_and_factory_witness :
  ∃ c v c' ev,
    after test_cache [0; 1; 2] = Some c ∧
    fetch int_of_int c 3 = Some (v, c', ev) ∧
    value <$> map c' !! 3 = Some v ∧
    match on_create c with
    | Some f => v = f 3 ∧ created ev = [3]
    | None => v = int_of_int 3 ∧ created ev = []
    end.
Proof.
  eexists _, _, _, _. split; [vm_compute; reflexivity|].
  split; [vm_compute; reflexivity|].
  eapply (miss_value_and_factory int_of_int).
  - apply (after_reachable 4 (Some times10) false 0 0 [0; 1; 2]).
    vm_compute; reflexivity.
  - vm_compute; reflexivity.
  - vm_compute; reflexivity.
Defined.

Lemma fetch_keeps_configuration_witness :
  ∃ c v c' ev,
    after test_cache [0; 1; 2; 3] = Some c ∧
    fetch int_of_int c 4 = Some (v, c', ev) ∧
    cache_limit c' = cache_limit c ∧
    nominated_limit c' = nominated_limit c ∧
    added_limit c' = added_limit c ∧
    on_create c' = on_create c ∧ on_evict c' = on_evict c ∧
    cache_size c <= cache_size c' <= cache_size c + 1.
Proof.
  eexists _, _, _, _. split; [vm_compute; reflexivity|].
  split; [vm_compute; reflexivity|].
  eapply (fetch_keeps_configuration int_of_int _ 4).
  - apply (after_reachable 4 (Some times10) false 0 0 [0; 1; 2; 3]).
    vm_compute; reflexivity.
  - vm_compute; reflexivity.
Defined.

Lemma new_entry_placement_witness :
  ∃ c v c' ev,
    after test_cache [0; 1; 2] = Some c ∧
    fetch int_of_int c 3 = Some (v, c', ev) ∧
    get_next c' (Node 3) = Some (inlet c') ∧
    get_prev c' (inlet c') = Some (Node 3) ∧
    get_state c' (Node 3) =
      Some (if decide (cache_size c < nominated_limit c)
            then NOMINATED else ADDED).
Proof.
  eexists _, _, _, _. split; [vm_compute; reflexivity|].
  split; [vm_compute; reflexivity|].
  eapply (new_entry_placement int_of_int).
  - apply (after_reachable 4 (Some times10) false 0 0 [0; 1; 2]).
    vm_compute; reflexivity.
  - vm_compute; reflexivity.
  - vm_compute; reflexivity.
Defined.

Lemma check_walk_covers_map_witness :
  ∃ c,
    after test_cache [0; 1; 2; 3; 4] = Some c ∧
    ∃ zn za zr,
      zones c = Some (zn, za, zr) ∧
      NoDup (zn ++ za ++ zr).*1 ∧
      (∀ k, k ∈ (zn ++ za ++ zr).*1 ↔ is_Some (map c !! k)) ∧
      (∀ e, e ∈ zn ++ za ++ zr → get_state c (Node e.1) = Some e.2) ∧
      (∀ e, e ∈ za → e.2 ≠ NOMINATED) ∧
      all_state REUSED zr = true.
Proof.
  eexists. split; [vm_compute; reflexivity|].
  apply (check_walk_covers_map int_of_int).
  apply (after_reachable 4 (Some times10) false 0 0 [0; 1; 2; 3; 4]).
  vm_compute; reflexivity.
Defined.

Lemma undefined_exactly_when_tail_is_nomination_witness :
  ∃ c,
    after test_cache [0; 1; 2; 0; 1; 2; 3] = Some c ∧
    (fetch int_of_int c 4 = None ↔
     map c !! 4 = None ∧ cache_size c >= cache_limit c ∧
     next (dummy c) = nomination c).
Proof.
  eexists. split; [vm_compute; reflexivity|].
  apply (undefined_exactly_when_tail_is_nomination int_of_int).
  apply (after_reachable 4 (Some times10) false 0 0 [0; 1; 2; 0; 1; 2; 3]).
  vm_compute; reflexivity.
Defined.

Lemma second_hit_changes_nothing_witness :
  ∃ c v c' ev,
    after test_cache [0; 1; 2; 3; 4] = Some c ∧
    fetch int_of_int c 3 = Some (v, c', ev) ∧
    fetch int_of_int c' 3 = Some (v, c', []).
Proof.
  eexists _, _, _, _. split; [vm_compute; reflexivity|].
  split; [vm_compute; reflexivity|].
  eapply (second_hit_changes_nothing int_of_int).
  - apply (after_reachable 4 (Some times10) false 0 0 [0; 1; 2; 3; 4]).
    vm_compute; reflexivity.
  - eexists. vm_compute; reflexivity.
  - vm_compute; reflexivity.
Defined.

Lemma remove_then_insert_restores_witness :
  ∃ c,
    after test_cache [0; 1; 2; 3] = Some c ∧
    ∃ nn c1,
      get_next c (Node 1) = Some nn ∧ remove_ c (Node 1) = Some c1 ∧
      insert_before_ c1 nn (Node 1) = Some c.
Proof.
  eexists. split; [vm_compute; reflexivity|].
  apply remove_then_insert_restores.
  - refine (proj1 (proj1 (reachable_inv int_of_int _ _))).
    apply (after_reachable 4 (Some times10) false 0 0 [0; 1; 2; 3]).
    vm_compute; reflexivity.
  - eexists. vm_compute; reflexivity.
Defined.

Lemma eviction_advances_tail_witness :
  ∃ c v c' ev,
    after test_cache [0; 1; 2; 3] = Some c ∧
    fetch int_of_int c 4 = Some (v, c', ev) ∧
    ∃ kr,
      next (dummy c) = Node kr ∧
      get_next c (Node kr) = Some (next (dummy c')) ∧
      next (dummy c') ≠ Node 4 ∧ next (dummy c') ≠ Dummy.
Proof.
  eexists _, _, _, _. split; [vm_compute; reflexivity|].
  split; [vm_compute; reflexivity|].
  eapply (eviction_advances_tail int_of_int).
  - apply (after_reachable 4 (Some times10) false 0 0 [0; 1; 2; 3]).
    vm_compute; reflexivity.
  - vm_compute; reflexivity.
  - simpl; lia.
  - vm_compute; reflexivity.
Defined.

Lemma layout_kept_once_established_witness :
  ∃ c zn za zr,
    after test_cache [0; 1; 2; 3] = Some c ∧
    zones c = Some (zn, za, zr) ∧
    ∃ c' out zn' za' zr',
      run int_of_int c [4; 1; 5; 2; 6] = Some (c', out) ∧
      zones c' = Some (zn', za', zr') ∧ zones_ok c' = true ∧
      length zn' = length zn ∧ length za' = length za ∧
      Z.of_nat (length zr') - Z.of_nat (length zr) =
        cache_size c' - cache_size c.
Proof.
  eexists _, _, _, _. split; [vm_compute; reflexivity|].
  split; [vm_compute; reflexivity|].
  apply (layout_kept_once_established int_of_int).
  - apply (after_reachable 4 (Some times10) false 0 0 [0; 1; 2; 3]).
    vm_compute; reflexivity.
  - vm_compute; reflexivity.
  - vm_compute; reflexivity.
  - discriminate.
  - discriminate.
  - discriminate.
Defined.

Lemma distinct_warmup_establishes_layout_witness :
  ∃ c0,
    test_cache = Some c0 ∧
    ∃ c out zn za zr,
      run int_of_int c0 [7; 3; 9; 1] = Some (c, out) ∧
      zones c = Some (zn, za, zr) ∧ zones_ok c = true ∧
      Z.of_nat (length zn) = nominated_limit c0 ∧
      length za = 1%nat ∧ length zr = 1%nat.
Proof.
  eexists. split; [vm_compute; reflexivity|].
  apply (distinct_warmup_establishes_layout int_of_int
           4 (Some times10) false 0 0).
  - vm_compute; reflexivity.
  - by apply (bool_decide_unpack _).
  - vm_compute; reflexivity.
Defined.

Lemma laid_eviction_takes_nominated_witness :
  ∃ c zn za zr,
    after test_cache [0; 1; 2; 3] = Some c ∧
    zones c = Some (zn, za, zr) ∧
    ∃ v c' ev kr,
      fetch int_of_int c 4 = Some (v, c', ev) ∧
      next (dummy c) = Node kr ∧ erased ev = [kr] ∧
      get_state c (Node kr) = Some NOMINATED ∧
      hd_error zn = Some (kr, NOMINATED) ∧
      map c' !! kr = None.
Proof.
  eexists _, _, _, _. split; [vm_compute; reflexivity|].
  split; [vm_compute; reflexivity|].
  eapply (laid_eviction_takes_nominated int_of_int).
  - apply (after_reachable 4 (Some times10) false 0 0 [0; 1; 2; 3]).
    vm_compute; reflexivity.
  - vm_compute; reflexivity.
  - vm_compute; reflexivity.
  - discriminate.
  - discriminate.
  - discriminate.
  - vm_compute; reflexivity.
  - simpl; lia.
Defined.

(** The state on which lines 120-121 run in [cache[4]] after the test's
    [cache[0]; cache[1]; cache[2]; cache[3]]: node 0 erased, node 4 put
    before [inlet]; [nomination] is on the [ADDED] node 3 and [inlet] on
    the [REUSED] node 2. *)
Lemma insertion_step_and_cascade_witness :
  ∃ c c3,
    after test_cache [0; 1; 2; 3] = Some c ∧
    (ca ← set_state (set_map c (<[4 := fresh_node 4 40]> (map c)))
           (Node 4) ADDED;
     c1 ← remove_ ca (Node 0);
     let c2 := set_map c1 (delete 0 (map c1)) in
     insert_before_ c2 (inlet c2) (Node 4)) = Some c3 ∧
    get_state c3 (nomination c3) = Some ADDED ∧
    inlet c3 ≠ nomination c3 ∧
    get_state c3 (inlet c3) = Some REUSED ∧
    ∃ c' cu,
      add_cascade c3 = Some c' ∧
      (∀ r, get_state c' r = if decide (r = nomination c3)
                             then Some NOMINATED else get_state c3 r) ∧
      get_next c3 (nomination c3) = Some (nomination c') ∧
      inlet c' = inlet c3 ∧
      use_cascade c3 = Some cu ∧ cu ≠ c' ∧
      nomination cu = nomination c' ∧
      get_next c3 (inlet c3) = Some (inlet cu) ∧
      (∀ r, get_state cu r = if decide (r = inlet c3)
                             then Some ADDED else get_state c' r).
Proof.
  eexists _, _. split; [vm_compute; reflexivity|].
  split; [vm_compute; reflexivity|].
  split; [vm_compute; reflexivity|].
  split; [vm_compute; discriminate|].
  split; [vm_compute; reflexivity|].
  edestruct (insertion_step_and_cascade (K := Z) (V := Z))
    as (c' & Hadd & Hs & Hnx & Hin & _ & _ & _ & _ & _ & _ & Hcu).
  3: { edestruct Hcu as (cu & Hu & Hne & Hm & Hi & Hsu & _).
       4: { exists c', cu. split_and!; eassumption. }
       - vm_compute; reflexivity.
       - vm_compute; discriminate.
       - vm_compute; reflexivity. }
  - eexists. vm_compute; reflexivity.
  - eexists. vm_compute; reflexivity.
Defined.
